(** * Day 8: closest-pair connectivity over a disjoint-set forest

    A shallow embedding of [part1], [part2], [createSortedPairs],
    [distanceSqrt] and the [UnionFind] class of the day 8 solution,
    followed by the properties of the incremental connectivity engine.

    Modelling conventions.
    - JavaScript numbers that hold array indices, counters and set sizes are
      [nat]; coordinates and squared distances are [Z] (the puzzle input is
      integral).  [distanceSqrt], [createSortedPairs], [part1] and [part2]
      compute on [Z] without rounding; their [f64_] copies round every
      operation as doubles do.  The two agree on integer coordinates of
      magnitude at most 2^24 ([exact_boxes]), where every intermediate
      value stays below 2^53, and the theorems that speak of a weight or of
      the product of [part2] are stated for the [f64_] functions on such
      coordinates.  The one place where the source computes a non-integral
      number, [length / 2], is kept as a rational.
    - Arrays are lists read with [!!] and updated with [<[_:=_]>]; every
      index the program uses is in range, and a read that would yield
      [undefined] is [None].
    - The mutable [UnionFind] object is threaded explicitly (and kept on a
      heap where invocations are compared).  [find] is
      recursive on the parent chain, so it carries fuel; [None] stands for a
      read outside the arrays or for unbounded recursion, and the theorems
      show that neither happens on a forest built by the constructor and
      mutated by [find] and [union].
    - [Array.prototype.sort] is the stable sort of the language standard,
      here a stable insertion sort over the comparator's sign.

    The later sections embed the day 8 visualization, the solutions of
    day 5 (range merging), day 9 (rectangles over a compressed grid), day 7
    (beams and splitters) and day 11 (memoized path counting), and the
    greedy picks of the day 3 visualization.  There [Map] and [Set] objects
    whose iteration order matters are lists in insertion order, the others
    finite maps and sets; string parsing is a parameter of the functions;
    recursion that the source does not bound carries fuel. *)

From Stdlib Require Import ZArith QArith Qminmax Lia.
From stdpp Require Import base tactics option numbers strings pretty list sorting gmap.

Close Scope Q_scope.
Open Scope nat_scope.

(** ** Data model *)

(** [type Box = [number, number, number]] *)
Definition Box : Type := Z * Z * Z.

Definition box0 : Box := (0, 0, 0)%Z.

(** [b[0]], [b[1]], [b[2]] *)
Definition at0 (b : Box) : Z := b.1.1.
Definition at1 (b : Box) : Z := b.1.2.
Definition at2 (b : Box) : Z := b.2.

(** [boxes[i]] for an index below [boxes.length]. *)
Definition box_at (boxes : list Box) (i : nat) : Box := nth i boxes box0.

(** The objects [{ i, j, d }] pushed by [createSortedPairs]. *)
Module Pair.
Record t : Type := mk { i : nat; j : nat; d : Z }.
End Pair.

(** The result of an arithmetic expression: a number or [NaN]. *)
Inductive jsnumber : Type :=
| Num (z : Z)
| NaN.

(** [ToNumber] of an array read: [undefined] becomes [NaN]. *)
Definition to_number (v : option nat) : jsnumber :=
  match v with
  | Some n => Num (Z.of_nat n)
  | None => NaN
  end.

Definition js_mul (a b : jsnumber) : jsnumber :=
  match a, b with
  | Num x, Num y => Num (x * y)
  | _, _ => NaN
  end.

(** ** [Array.prototype.sort]: stable, ordered by the sign of [cmp] *)

Fixpoint sort_insert {A : Type} (cmp : A → A → Z) (x : A) (l : list A) : list A :=
  match l with
  | [] => [x]
  | y :: l' =>
      if decide (cmp x y ≤ 0)%Z then x :: y :: l' else y :: sort_insert cmp x l'
  end.

Definition js_sort {A : Type} (cmp : A → A → Z) (l : list A) : list A :=
  foldr (sort_insert cmp) [] l.

(** ** [class UnionFind] *)

Record UnionFind : Type := mkUF { parent : list nat; size : list nat }.

(** [constructor(n)] *)
Definition UnionFind_new (n : nat) : UnionFind :=
  {| parent := seq 0 n; size := replicate n 1 |}.

Definition set_parent (uf : UnionFind) (x p : nat) : UnionFind :=
  {| parent := <[x := p]> (parent uf); size := size uf |}.

Definition set_size (uf : UnionFind) (x s : nat) : UnionFind :=
  {| parent := parent uf; size := <[x := s]> (size uf) |}.

(** [find(x)], with the depth of the recursion bounded by [fuel]. *)
Fixpoint find_fuel (fuel : nat) (uf : UnionFind) (x : nat) : option (nat * UnionFind) :=
  match fuel with
  | 0 => None
  | S fuel' =>
      p ← parent uf !! x;
      if decide (p ≠ x) then
        '(r, uf') ← find_fuel fuel' uf p;
        let uf'' := set_parent uf' x r in
        r' ← parent uf'' !! x;
        Some (r', uf'')
      else Some (p, uf)
  end.

(** A chain of parent links without a cycle has fewer links than the array
    has entries. *)
Definition find (uf : UnionFind) (x : nat) : option (nat * UnionFind) :=
  find_fuel (length (parent uf)) uf x.

(** [union(a, b)] *)
Definition union (uf : UnionFind) (a b : nat) : option (bool * UnionFind) :=
  '(ra, uf1) ← find uf a;
  '(rb, uf2) ← find uf1 b;
  if decide (ra = rb) then Some (false, uf2)
  else
    sa ← size uf2 !! ra;
    sb ← size uf2 !! rb;
    let '(ra, rb) := if decide (sa < sb) then (rb, ra) else (ra, rb) in
    let uf3 := set_parent uf2 rb ra in
    sa' ← size uf3 !! ra;
    sb' ← size uf3 !! rb;
    Some (true, set_size uf3 ra (sa' + sb')).

(** ** [distanceSqrt] and [createSortedPairs]

    In integer arithmetic without rounding; see the section on double
    precision for the rounded operations of the program. *)

Definition distanceSqrt (a b : Box) : Z :=
  let dx := (at0 a - at0 b)%Z in
  let dy := (at1 a - at1 b)%Z in
  let dz := (at2 a - at2 b)%Z in
  (dx * dx + dy * dy + dz * dz)%Z.

(** The object [{ i, j, d: distanceSqrt(boxes[i], boxes[j]) }]. *)
Definition pair_of (boxes : list Box) (i j : nat) : Pair.t :=
  Pair.mk i j (distanceSqrt (box_at boxes i) (box_at boxes j)).

(** The inner loop [for (j = i + 1; j < boxes.length; j++)]. *)
Definition pairs_from (boxes : list Box) (i : nat) : list Pair.t :=
  pair_of boxes i <$> seq (S i) (length boxes - S i).

(** The array [pairs] before it is sorted. *)
Definition enum_pairs (boxes : list Box) : list Pair.t :=
  concat (pairs_from boxes <$> seq 0 (length boxes)).

Definition by_distance (a b : Pair.t) : Z := (Pair.d a - Pair.d b)%Z.

Definition createSortedPairs (boxes : list Box) : list Pair.t :=
  js_sort by_distance (enum_pairs boxes).

(** ** [part1] *)

(** [Math.min(1000, length / 2)]; the division is not rounded. *)
Definition maxConnections (length : nat) : Q :=
  Qmin (inject_Z 1000) (inject_Z (Z.of_nat length) / inject_Z 2)%Q.

(** [connections < maxConnections] *)
Definition below (connections : nat) (bound : Q) : bool :=
  negb (Qle_bool bound (inject_Z (Z.of_nat connections))).

(** The first loop of [part1], over the pairs from index [k] on. *)
Fixpoint connect_loop (pairs : list Pair.t) (bound : Q)
    (uf : UnionFind) (connections : nat) : option (UnionFind * nat) :=
  match pairs with
  | [] => Some (uf, connections)
  | p :: rest =>
      if below connections bound then
        '(_, uf') ← union uf (Pair.i p) (Pair.j p);
        connect_loop rest bound uf' (S connections)
      else Some (uf, connections)
  end.

(** [Map<number, number>]: keys in insertion order. *)
Definition NumMap : Type := list (nat * nat).

Fixpoint map_get (m : NumMap) (k : nat) : option nat :=
  match m with
  | [] => None
  | (k', v) :: m' => if decide (k' = k) then Some v else map_get m' k
  end.

Fixpoint map_set (m : NumMap) (k v : nat) : NumMap :=
  match m with
  | [] => [(k, v)]
  | (k', v') :: m' =>
      if decide (k' = k) then (k', v) :: m' else (k', v') :: map_set m' k v
  end.

Definition map_values (m : NumMap) : list nat := m.*2.

(** [circuitSizes.set(r, (circuitSizes.get(r) ?? 0) + 1)] *)
Definition tally_step (circuitSizes : NumMap) (r : nat) : NumMap :=
  map_set circuitSizes r (default 0 (map_get circuitSizes r) + 1).

(** The second loop of [part1], over the indices still to visit. *)
Fixpoint size_loop (indices : list nat) (uf : UnionFind)
    (circuitSizes : NumMap) : option (UnionFind * NumMap) :=
  match indices with
  | [] => Some (uf, circuitSizes)
  | i :: rest =>
      '(r, uf') ← find uf i;
      size_loop rest uf' (tally_step circuitSizes r)
  end.

Definition descending (a b : nat) : Z := (Z.of_nat b - Z.of_nat a)%Z.

(** The forest after the first loop of [part1]. *)
Definition part1_forest (boxes : list Box) : option (UnionFind * nat) :=
  connect_loop (createSortedPairs boxes) (maxConnections (length boxes))
    (UnionFind_new (length boxes)) 0.

(** [part1] from the end of the first loop on: the array [sizes] and the
    forest as the second loop leaves it. *)
Definition part1_run (boxes : list Box) : option (list nat * UnionFind) :=
  '(uf, _) ← part1_forest boxes;
  '(uf', circuitSizes) ← size_loop (seq 0 (length boxes)) uf [];
  Some (js_sort descending (map_values circuitSizes), uf').

Definition part1_sizes (boxes : list Box) : option (list nat) :=
  fst <$> part1_run boxes.

(** [sizes[0] * sizes[1] * sizes[2]] *)
Definition product3 (sizes : list nat) : jsnumber :=
  js_mul (js_mul (to_number (sizes !! 0)) (to_number (sizes !! 1)))
         (to_number (sizes !! 2)).

Definition part1 (boxes : list Box) : option jsnumber :=
  product3 <$> part1_sizes boxes.

(** ** [part2] *)

Record Scan : Type :=
  mkScan { scan_k : nat; scan_uf : UnionFind; components : nat; result : Z }.

(** [boxes[i][0] * boxes[j][0]] for the pair [p]. *)
Definition bridge_value (boxes : list Box) (p : Pair.t) : Z :=
  (at0 (box_at boxes (Pair.i p)) * at0 (box_at boxes (Pair.j p)))%Z.

(** The loop of [part2], over the pairs from index [scan_k] on. *)
Fixpoint bridge_loop (boxes : list Box) (pairs : list Pair.t) (s : Scan) : option Scan :=
  match pairs with
  | [] => Some s
  | p :: rest =>
      if decide (1 < components s) then
        '(merged, uf') ← union (scan_uf s) (Pair.i p) (Pair.j p);
        if merged : bool then
          let components' := components s - 1 in
          let result' :=
            if decide (components' = 1) then bridge_value boxes p else result s in
          bridge_loop boxes rest (mkScan (S (scan_k s)) uf' components' result')
        else
          bridge_loop boxes rest (mkScan (S (scan_k s)) uf' (components s) (result s))
      else Some s
  end.

Definition part2_scan (boxes : list Box) : option Scan :=
  bridge_loop boxes (createSortedPairs boxes)
    (mkScan 0 (UnionFind_new (length boxes)) (length boxes) 0).

Definition part2 (boxes : list Box) : option Z :=
  result <$> part2_scan boxes.

(** ** Double precision

    The program computes with doubles.  On doubles that hold integers, a
    subtraction, a product or a sum yields the integer nearest to the exact
    result among those whose significand has 53 bits, a tie going to the
    even significand: that is [round53] (for magnitudes below 2^1024, where
    doubles end).  The [f64_] functions are [distanceSqrt],
    [createSortedPairs] and [part2] with every operation rounded in this
    way, which is what the program computes on coordinates that are
    integers a double holds, as long as no value reaches 2^1024.  The
    functions above leave the rounding out; both agree on [exact_boxes],
    the integer coordinates of magnitude at most 2^24: there the
    differences stay within 2^25, their squares within 2^50, the sums of
    three squares and the products of two coordinates below 2^53. *)

Definition round53 (z : Z) : Z :=
  let a := Z.abs z in
  if decide (a < 2 ^ 53)%Z then z
  else
    let e := (Z.log2 a - 52)%Z in
    let q := (a / 2 ^ e)%Z in
    let r := (a mod 2 ^ e)%Z in
    let half := (2 ^ (e - 1))%Z in
    let q' := if decide (r < half)%Z then q
              else if decide (half < r)%Z then (q + 1)%Z
              else if Z.even q then q else (q + 1)%Z in
    (Z.sgn z * (q' * 2 ^ e))%Z.

(** [a - b], [a * b] and [a + b] on doubles that hold integers. *)
Definition f64_sub (a b : Z) : Z := round53 (a - b).
Definition f64_mul (a b : Z) : Z := round53 (a * b).
Definition f64_add (a b : Z) : Z := round53 (a + b).

Definition f64_distanceSqrt (a b : Box) : Z :=
  let dx := f64_sub (at0 a) (at0 b) in
  let dy := f64_sub (at1 a) (at1 b) in
  let dz := f64_sub (at2 a) (at2 b) in
  f64_add (f64_add (f64_mul dx dx) (f64_mul dy dy)) (f64_mul dz dz).

Definition f64_pair_of (boxes : list Box) (i j : nat) : Pair.t :=
  Pair.mk i j (f64_distanceSqrt (box_at boxes i) (box_at boxes j)).

Definition f64_pairs_from (boxes : list Box) (i : nat) : list Pair.t :=
  f64_pair_of boxes i <$> seq (S i) (length boxes - S i).

Definition f64_enum_pairs (boxes : list Box) : list Pair.t :=
  concat (f64_pairs_from boxes <$> seq 0 (length boxes)).

(** [a.d - b.d] *)
Definition f64_by_distance (a b : Pair.t) : Z := f64_sub (Pair.d a) (Pair.d b).

Definition f64_createSortedPairs (boxes : list Box) : list Pair.t :=
  js_sort f64_by_distance (f64_enum_pairs boxes).

(** [boxes[i][0] * boxes[j][0]] *)
Definition f64_bridge_value (boxes : list Box) (p : Pair.t) : Z :=
  f64_mul (at0 (box_at boxes (Pair.i p))) (at0 (box_at boxes (Pair.j p))).

Fixpoint f64_bridge_loop (boxes : list Box) (pairs : list Pair.t) (s : Scan)
    : option Scan :=
  match pairs with
  | [] => Some s
  | p :: rest =>
      if decide (1 < components s) then
        '(merged, uf') ← union (scan_uf s) (Pair.i p) (Pair.j p);
        if merged : bool then
          let components' := components s - 1 in
          let result' :=
            if decide (components' = 1) then f64_bridge_value boxes p else result s in
          f64_bridge_loop boxes rest (mkScan (S (scan_k s)) uf' components' result')
        else
          f64_bridge_loop boxes rest (mkScan (S (scan_k s)) uf' (components s) (result s))
      else Some s
  end.

Definition f64_part2_scan (boxes : list Box) : option Scan :=
  f64_bridge_loop boxes (f64_createSortedPairs boxes)
    (mkScan 0 (UnionFind_new (length boxes)) (length boxes) 0).

Definition f64_part2 (boxes : list Box) : option Z :=
  result <$> f64_part2_scan boxes.

(** Integer coordinates of magnitude at most 2^24.  Every difference of
    two of them is at most 2^25, its square at most 2^50, a sum of three
    squares and a difference of two such sums below 2^52, and a product of
    two coordinates at most 2^48: no operation of [distanceSqrt], of the
    comparator or of [part2] leaves the integers below 2^53, which doubles
    hold exactly. *)
Definition exact_box (b : Box) : bool :=
  bool_decide (Z.abs (at0 b) ≤ 2 ^ 24)%Z
  && bool_decide (Z.abs (at1 b) ≤ 2 ^ 24)%Z
  && bool_decide (Z.abs (at2 b) ≤ 2 ^ 24)%Z.

Definition exact_boxes (boxes : list Box) : bool := forallb exact_box boxes.

(** ** The forest invariant

    [rep] names the root of every index and [d] bounds the number of parent
    links between an index and its root. *)

(** The number of indices below [n] that [rep] sends to [r]. *)
Definition members (n : nat) (rep : nat → nat) (r : nat) : nat :=
  length (filter (λ x, rep x = r) (seq 0 n)).

Record Inv (n : nat) (uf : UnionFind) (rep d : nat → nat) : Prop := {
  inv_len_parent : length (parent uf) = n;
  inv_len_size : length (size uf) = n;
  inv_link : ∀ x, x < n →
    ∃ p, parent uf !! x = Some p ∧ p < n ∧ rep p = rep x ∧
         (p = x → rep x = x) ∧ (p ≠ x → d p < d x);
  inv_size : ∀ r, r < n → rep r = r → size uf !! r = Some (members n rep r);
  inv_depth : ∀ x, x < n → d x < members n rep (rep x)
}.

(** Merging the class of root [l] into the class of root [w]. *)
Definition merge (rep : nat → nat) (l w : nat) : nat → nat :=
  λ x, if decide (rep x = l) then w else rep x.

(** The depth bound after that merge: the class of [l] hangs below [w]. *)
Definition lift (d rep : nat → nat) (l w : nat) : nat → nat :=
  λ x, if decide (rep x = l) then d x + d w + 1 else d x.

(** [parent[l] = w] and [size[w] = s], the two writes of a merging [union]. *)
Definition link (uf : UnionFind) (l w s : nat) : UnionFind :=
  {| parent := <[l := w]> (parent uf); size := <[w := s]> (size uf) |}.

(** The root that survives [union] of the classes of roots [ra] and [rb],
    and the one that is re-parented. *)
Definition winner (n : nat) (rep : nat → nat) (ra rb : nat) : nat :=
  if decide (members n rep ra < members n rep rb) then rb else ra.

Definition loser (n : nat) (rep : nat → nat) (ra rb : nat) : nat :=
  if decide (members n rep ra < members n rep rb) then ra else rb.

(** ** Observations on a forest *)

(** Following parent links without rewriting them. *)
Fixpoint root_fuel (fuel : nat) (links : list nat) (x : nat) : option nat :=
  match fuel with
  | 0 => None
  | S fuel' =>
      p ← links !! x;
      if decide (p ≠ x) then root_fuel fuel' links p else Some p
  end.

Definition root (uf : UnionFind) (x : nat) : option nat :=
  root_fuel (length (parent uf)) (parent uf) x.

Inductive reaches (links : list nat) : nat → nat → Prop :=
| reaches_here x : reaches links x x
| reaches_step x p r : links !! x = Some p → reaches links p r → reaches links x r.

Definition is_root (uf : UnionFind) (r : nat) : Prop := parent uf !! r = Some r.

(** The self-parented indices, in ascending order. *)
Definition roots (uf : UnionFind) : list nat :=
  filter (λ r, parent uf !! r = Some r) (seq 0 (length (parent uf))).

(** The number of indices whose root is [r]. *)
Definition card (uf : UnionFind) (r : nat) : nat :=
  length (filter (λ x, root uf x = Some r) (seq 0 (length (parent uf)))).

(** The number of indices for which [find] returns [r]. *)
Definition found (uf : UnionFind) (r : nat) : nat :=
  length (filter (λ x, fst <$> find uf x = Some r) (seq 0 (length (parent uf)))).

(** ** Sequences of method calls on one forest *)

Inductive call : Type :=
| Find (x : nat)
| Union (a b : nat).

Definition call_ok (n : nat) (c : call) : bool :=
  match c with
  | Find x => bool_decide (x < n)
  | Union a b => bool_decide (a < n) && bool_decide (b < n)
  end.

Definition do_call (uf : UnionFind) (c : call) : option UnionFind :=
  match c with
  | Find x => snd <$> find uf x
  | Union a b => snd <$> union uf a b
  end.

Fixpoint run_calls (cs : list call) (uf : UnionFind) : option UnionFind :=
  match cs with
  | [] => Some uf
  | c :: cs' => uf' ← do_call uf c; run_calls cs' uf'
  end.

(** The forest a caller holds after [new UnionFind(n)] and the calls [cs]. *)
Definition forest_after (n : nat) (cs : list call) : option UnionFind :=
  run_calls cs (UnionFind_new n).

(** ** Invocations

    Objects live on a heap of forests.  [new UnionFind(n)] adds a forest to
    the heap and yields its address; [uf.find(x)] and [uf.union(a, b)] read
    the forest at the address [uf] and write it back in place.  A call of
    [part1] or [part2] starts from the heap that earlier calls have left.
    The arrays [boxes], [pairs] and [sizes] and the map [circuitSizes] are
    built by the call and only read by it.  [parse] stands for
    [line.split(",").map(Number)] followed by the selection of the first
    three numbers. *)

Abbreviation Heap := (list UnionFind).

(** [new UnionFind(n)] *)
Definition heap_new (n : nat) (h : Heap) : nat * Heap :=
  (length h, h ++ [UnionFind_new n]).

(** A method call on the object at the address [ref]. *)
Definition heap_call {A : Type} (method : UnionFind → option (A * UnionFind))
    (ref : nat) (h : Heap) : option (A * Heap) :=
  uf ← h !! ref;
  '(a, uf') ← method uf;
  Some (a, <[ref := uf']> h).




(** The loop of [part2], on the forest at [ref]. *)
Fixpoint heap_bridge_loop (boxes : list Box) (pairs : list Pair.t) (ref : nat)
    (count : nat) (res : Z) (h : Heap) : option (Z * Heap) :=
  match pairs with
  | [] => Some (res, h)
  | p :: rest =>
      if decide (1 < count) then
        '(merged, h') ← heap_call (λ uf, union uf (Pair.i p) (Pair.j p)) ref h;
        if merged : bool then
          let count' := count - 1 in
          let res' := if decide (count' = 1) then bridge_value boxes p else res in
          heap_bridge_loop boxes rest ref count' res' h'
        else heap_bridge_loop boxes rest ref count res h'
      else Some (res, h)
  end.

Definition part2_call (parse : string → Box) (lines : list string) (h : Heap)
    : option (Z * Heap) :=
  let boxes := parse <$> lines in
  let pairs := createSortedPairs boxes in
  let '(uf, h0) := heap_new (length boxes) h in
  heap_bridge_loop boxes pairs uf (length boxes) 0 h0.

(** ** Unions over a list of pairs *)

(** [union(i, j)] for every pair of the list, in order, with the number of
    calls that returned [true]. *)
Fixpoint union_count (pairs : list Pair.t) (uf : UnionFind) : option (UnionFind * nat) :=
  match pairs with
  | [] => Some (uf, 0)
  | p :: rest =>
      '(merged, uf') ← union uf (Pair.i p) (Pair.j p);
      '(uf'', m) ← union_count rest uf';
      Some (uf'', if merged : bool then S m else m)
  end.

(** Both indices of [p] are below [n]. *)
Definition in_range (n : nat) (p : Pair.t) : Prop := Pair.i p < n ∧ Pair.j p < n.

(** The number of unions the first loop of [part1] attempts on [n] points
    with [m] candidate pairs: the least integer not below
    [Math.min(1000, n / 2)], or [m] if that is smaller. *)
Definition attempts (n m : nat) : nat := min (min 1000 ((n + 1) / 2)) m.

(** The number of occurrences of [k] in [l]. *)
Definition occurrences (k : nat) (l : list nat) : nat :=
  length (filter (λ x, x = k) l).

(** The map [m] counts the elements of [seen]. *)
Definition tallied (seen : list nat) (m : NumMap) : Prop :=
  NoDup m.*1 ∧
  ∀ k, map_get m k = if decide (k ∈ seen) then Some (occurrences k seen) else None.

(** The number of roots under [rep]. *)
Definition classes (n : nat) (rep : nat → nat) : nat :=
  length (filter (λ r, rep r = r) (seq 0 n)).


(** ** Orders on candidate pairs *)

(** The order in which the two loops of [createSortedPairs] push the pairs. *)
Definition enum_order (p q : Pair.t) : Prop :=
  Pair.i p < Pair.i q ∨ (Pair.i p = Pair.i q ∧ Pair.j p < Pair.j q).

(** [x] is placed before [y] by a stable sort on [key] of a list in which
    [before] orders the elements. *)
Definition stable_order {A : Type} (key : A → Z) (before : relation A) : relation A :=
  λ x y, (key x < key y)%Z ∨ (key x = key y ∧ before x y).

(** ** Connectivity by union calls *)

(** [x] and [y] are linked by a chain of pairs of [E], each taken in either
    direction. *)
Inductive connected (E : list (nat * nat)) : nat → nat → Prop :=
| connected_refl x : connected E x x
| connected_edge a b : (a, b) ∈ E → connected E a b
| connected_sym x y : connected E x y → connected E y x
| connected_trans x y z : connected E x y → connected E y z → connected E x z.

(** The arguments of the [union] calls of [cs], in order. *)
Definition call_edges (cs : list call) : list (nat * nat) :=
  omap (λ c, match c with Union a b => Some (a, b) | Find _ => None end) cs.

(** The index pairs of a list of candidate pairs. *)
Definition pair_edges (pairs : list Pair.t) : list (nat * nat) :=
  (λ p, (Pair.i p, Pair.j p)) <$> pairs.

(** The [union] calls the loops make on a list of candidate pairs. *)
Definition pair_calls (pairs : list Pair.t) : list call :=
  (λ p, Union (Pair.i p) (Pair.j p)) <$> pairs.

(** [rep] identifies exactly the indices that [E] connects. *)
Definition tracks (E : list (nat * nat)) (rep : nat → nat) : Prop :=
  ∀ x y, rep x = rep y ↔ connected E x y.

(** The sum of the sizes recorded at the roots. *)
Definition size_total (uf : UnionFind) : nat :=
  sum_list_with (λ r, default 0 (size uf !! r)) (roots uf).

(** ** The visualization of day 8

    [colorForComponent], [getComponent] and [buildVisualization] of the
    visualization script, which declares the same [distanceSqrt],
    [createSortedPairs] and [UnionFind] as the solution.  The layout
    functions and the distance shown on an edge work on floating-point
    numbers; they are the fields of [Rendering], and the frames are built
    from whatever they return. *)

Module Color.
Record t : Type := mk { bg : string; fg : string }.
End Color.

(** [colorForComponent(component)] *)
Definition colorForComponent (component : nat) : Color.t :=
  let hue := (component * 137) `mod` 360 in
  Color.mk ("hsl(" +:+ pretty hue +:+ " 70% 45%)")
           ("hsl(" +:+ pretty hue +:+ " 80% 95%)").

(** [getComponent(x)] *)
Definition getComponent (uf : UnionFind) (x : nat) : option (nat * UnionFind) :=
  find uf x.

Class Rendering : Type := {
  Real : Type;
  projectTo2D : list Box → list (Real * Real);
  normalize3DCoords : list Box → list (Real * Real * Real);
  Math_sqrt : Z → Real;
  toFixed1 : Real → string
}.

Module GraphNode.
Record t `{Rendering} : Type := mk {
  id : nat; x : Real; y : Real; z : Real; label : string; component : nat;
  x3d : Real; y3d : Real; z3d : Real
}.
Arguments mk {_}.
End GraphNode.

Module GraphEdge.
Record t `{Rendering} : Type := mk { source : nat; target : nat; distance : Real }.
Arguments mk {_}.
End GraphEdge.

Module GraphFrame.
Record t `{Rendering} : Type := mk {
  nodes : list GraphNode.t;
  edges : list GraphEdge.t;
  action : string;
  highlightEdge : option (nat * nat);
  highlightNodes : option (list nat)
}.
Arguments mk {_}.
End GraphFrame.

Module GraphVisualizationData.
Record t `{Rendering} : Type := mk {
  format : string;
  frames : list GraphFrame.t;
  palette : gmap nat Color.t
}.
Arguments mk {_}.
End GraphVisualizationData.

Section Visualization.
Context `{Rendering}.

(** The node built for index [idx] at position [pos]. *)
Definition node_at (positions3D : list (Real * Real * Real)) (idx : nat)
    (pos : Real * Real) (component : nat) : option GraphNode.t :=
  p3 ← positions3D !! idx;
  Some (GraphNode.mk idx pos.1 pos.2 p3.2 (pretty idx) component p3.1.1 p3.1.2 p3.2).

(** [positions2D.map((pos, i) => ({ ..., component: i, ... }))], from index
    [idx] on. *)
Fixpoint initial_nodes (positions3D : list (Real * Real * Real)) (idx : nat)
    (positions2D : list (Real * Real)) : option (list GraphNode.t) :=
  match positions2D with
  | [] => Some []
  | pos :: rest =>
      nd ← node_at positions3D idx pos idx;
      nds ← initial_nodes positions3D (S idx) rest;
      Some (nd :: nds)
  end.

(** [positions2D.map((pos, idx) => ({ ..., component: uf.getComponent(idx),
    ... }))], from index [idx] on. *)
Fixpoint component_nodes (positions3D : list (Real * Real * Real)) (idx : nat)
    (positions2D : list (Real * Real)) (uf : UnionFind)
    : option (list GraphNode.t * UnionFind) :=
  match positions2D with
  | [] => Some ([], uf)
  | pos :: rest =>
      _ ← positions3D !! idx;
      '(c, uf') ← getComponent uf idx;
      nd ← node_at positions3D idx pos c;
      '(nds, uf'') ← component_nodes positions3D (S idx) rest uf';
      Some (nd :: nds, uf'')
  end.

Record Build : Type := mkBuild {
  build_uf : UnionFind;
  build_components : nat;
  activeEdges : list GraphEdge.t;
  build_frames : list GraphFrame.t;
  build_palette : gmap nat Color.t
}.

(** The frame pushed after a successful [union] of the pair [p]. *)
Definition merge_frame (currentNodes : list GraphNode.t)
    (edges : list GraphEdge.t) (p : Pair.t) (components : nat) : GraphFrame.t :=
  GraphFrame.mk currentNodes edges
    ("Connected node " +:+ pretty (Pair.i p) +:+ " â†” " +:+ pretty (Pair.j p)
       +:+ " (distance: " +:+ toFixed1 (Math_sqrt (Pair.d p))
       +:+ "). Components remaining: " +:+ pretty components)
    (Some (Pair.i p, Pair.j p)) (Some [Pair.i p; Pair.j p]).

(** The loop of [buildVisualization], over the pairs still to visit. *)
Fixpoint build_loop (positions2D : list (Real * Real))
    (positions3D : list (Real * Real * Real)) (pairs : list Pair.t) (b : Build)
    : option Build :=
  match pairs with
  | [] => Some b
  | p :: rest =>
      if decide (1 < build_components b) then
        '(merged, uf1) ← union (build_uf b) (Pair.i p) (Pair.j p);
        if merged : bool then
          let components := build_components b - 1 in
          let edges :=
            activeEdges b ++ [GraphEdge.mk (Pair.i p) (Pair.j p) (Math_sqrt (Pair.d p))] in
          '(currentNodes, uf2) ← component_nodes positions3D 0 positions2D uf1;
          '(newComponent, uf3) ← getComponent uf2 (Pair.i p);
          let palette :=
            if build_palette b !! newComponent is Some _ then build_palette b
            else <[newComponent := colorForComponent newComponent]> (build_palette b) in
          build_loop positions2D positions3D rest
            (mkBuild uf3 components edges
               (build_frames b ++ [merge_frame currentNodes edges p components])
               palette)
        else
          build_loop positions2D positions3D rest
            (mkBuild uf1 (build_components b) (activeEdges b) (build_frames b)
               (build_palette b))
      else Some b
  end.

(** [for (let i = 0; i < length; i++) palette[i] = colorForComponent(i)] *)
Definition initial_palette (length : nat) : gmap nat Color.t :=
  foldl (λ palette i, <[i := colorForComponent i]> palette) ∅ (seq 0 length).

(** [buildVisualization], from the parsed boxes on. *)
Definition buildVisualization (boxes : list Box) : option GraphVisualizationData.t :=
  let positions2D := projectTo2D boxes in
  let positions3D := normalize3DCoords boxes in
  let pairs := createSortedPairs boxes in
  let length := length boxes in
  initialNodes ← initial_nodes positions3D 0 positions2D;
  let first :=
    GraphFrame.mk initialNodes []
      ("Initial state: " +:+ pretty length +:+ " nodes, each in its own component")
      None None in
  b ← build_loop positions2D positions3D pairs
         (mkBuild (UnionFind_new length) length [] [first] (initial_palette length));
  '(finalNodes, _) ← component_nodes positions3D 0 positions2D (build_uf b);
  let final :=
    GraphFrame.mk finalNodes (activeEdges b)
      ("Complete: All nodes connected into " +:+ pretty (build_components b)
         +:+ " component(s)")
      None None in
  Some (GraphVisualizationData.mk "graph-frames" (build_frames b ++ [final])
          (build_palette b)).

End Visualization.

(** A rendering to evaluate [buildVisualization] with: every point is drawn
    at the origin and distances are shown as their squares. *)
Definition origin_rendering : Rendering := {|
  Real := Z;
  projectTo2D := λ boxes, (λ _, (0, 0)%Z) <$> boxes;
  normalize3DCoords := λ boxes, (λ _, (0, 0, 0)%Z) <$> boxes;
  Math_sqrt := λ d, d;
  toFixed1 := λ r, pretty r
|}.

(** ** Day 5: fresh ranges

    [part1] and [part2] of the day 5 solution.  The three string
    conversions ([line.trim() === ""], the parse of a range line and
    [Number]) are the fields of [Parsing]; the numbers are those of lines
    that hold integers, a line of another shape (which the program turns
    into [NaN] or [undefined]) has no counterpart in [Z]. *)

(** [Array.prototype.findIndex], from index [i] on. *)
Fixpoint js_findIndex_from {A : Type} (f : A → bool) (l : list A) (i : Z) : Z :=
  match l with
  | [] => (-1)%Z
  | x :: l' => if f x then i else js_findIndex_from f l' (i + 1)%Z
  end.

Definition js_findIndex {A : Type} (f : A → bool) (l : list A) : Z :=
  js_findIndex_from f l 0%Z.

(** The index an argument of [slice] stands for: a negative one counts from
    the end, and both directions stop at the ends of the array. *)
Definition slice_index (len i : Z) : Z :=
  if decide (i < 0)%Z then Z.max (len + i) 0 else Z.min i len.

(** [Array.prototype.slice(start, end)]; [None] for an omitted [end]. *)
Definition js_slice {A : Type} (l : list A) (start : Z) (end_ : option Z) : list A :=
  let len := Z.of_nat (length l) in
  let k := slice_index len start in
  let final := slice_index len (default len end_) in
  take (Z.to_nat (final - k)) (drop (Z.to_nat k) l).

Module Day05.

(** The objects [{ start, end }]. *)
Record Range : Type := mkRange { start : Z; end_ : Z }.

Class Parsing : Type := {
  blank : string → bool;
  parseRange : string → Range;
  toNumber : string → Z
}.

(** [range.start <= num && num <= range.end] *)
Definition within (num : Z) (range : Range) : bool :=
  bool_decide (start range ≤ num)%Z && bool_decide (num ≤ end_ range)%Z.

(** [values.filter((num) => ranges.some(...)).length] *)
Definition count_fresh (ranges : list Range) (values : list Z) : nat :=
  length (filter (λ num, existsb (within num) ranges = true) values).

Definition part1 `{Parsing} (lines : list string) : nat :=
  let emptyLineIndex := js_findIndex blank lines in
  let ranges := parseRange <$> js_slice lines 0 (Some emptyLineIndex) in
  let values := toNumber <$> js_slice lines (emptyLineIndex + 1) None in
  count_fresh ranges values.

Definition by_start (a b : Range) : Z := (start a - start b)%Z.

(** The body of the loop of [part2]. *)
Definition merge_step (merged : list Range) (range : Range) : list Range :=
  if decide (length merged = 0) then merged ++ [range]
  else
    match merged !! (length merged - 1) with
    | None => merged ++ [range]
    | Some prev =>
        if decide (end_ prev < start range - 1)%Z then merged ++ [range]
        else <[length merged - 1 :=
                 mkRange (start prev) (Z.max (end_ prev) (end_ range))]> merged
    end.

(** [merged.reduce((sum, r) => sum + (r.end - r.start + 1), 0)] *)
Definition total (merged : list Range) : Z :=
  foldl (λ sum r, sum + (end_ r - start r + 1))%Z 0%Z merged.

(** [part2] from the parsed ranges on. *)
Definition merged_total (ranges : list Range) : Z :=
  total (foldl merge_step [] (js_sort by_start ranges)).

Definition part2 `{Parsing} (lines : list string) : Z :=
  let emptyLineIndex := js_findIndex blank lines in
  let rangeLines := js_slice lines 0 (Some emptyLineIndex) in
  merged_total (parseRange <$> rangeLines).

(** The lines the two functions select, before any of them is parsed:
    [lines.findIndex((line) => line.trim() === "")],
    [lines.slice(0, emptyLineIndex)] and [lines.slice(emptyLineIndex + 1)]. *)
Definition emptyLineIndex `{Parsing} (lines : list string) : Z :=
  js_findIndex blank lines.

Definition rangeLines `{Parsing} (lines : list string) : list string :=
  js_slice lines 0 (Some (emptyLineIndex lines)).

Definition valueLines `{Parsing} (lines : list string) : list string :=
  js_slice lines (emptyLineIndex lines + 1) None.





End Day05.

(** A parsing to evaluate [Day05.part1] and [Day05.part2] with: a line is
    blank when it is empty, and every other line stands for its length. *)
Definition length_parsing : Day05.Parsing := {|
  Day05.blank := λ line, bool_decide (line = "");
  Day05.parseRange := λ line,
    Day05.mkRange (Z.of_nat (String.length line)) (Z.of_nat (String.length line));
  Day05.toNumber := λ line, Z.of_nat (String.length line)
|}.

(** ** Day 9: largest rectangles

    [part1] and [part2] of the day 9 solution.  The parse of a line
    ([line.split(",").map(Number)]) is the field of [Parsing]. *)

(** [Map<number, V>] with integer keys, in insertion order. *)
Definition ZMap (V : Type) : Type := list (Z * V).

Fixpoint zmap_get {V : Type} (m : ZMap V) (k : Z) : option V :=
  match m with
  | [] => None
  | (k', v) :: m' => if decide (k' = k) then Some v else zmap_get m' k
  end.

Fixpoint zmap_set {V : Type} (m : ZMap V) (k : Z) (v : V) : ZMap V :=
  match m with
  | [] => [(k, v)]
  | (k', v') :: m' =>
      if decide (k' = k) then (k', v) :: m' else (k', v') :: zmap_set m' k v
  end.

(** [[...new Set(values)]]: the distinct values, in the order of their
    first occurrence. *)
Definition js_set_of (values : list Z) : list Z :=
  foldl (λ seen v, if decide (v ∈ seen) then seen else seen ++ [v]) [] values.

(** The index pairs [i < j < n], in the order of the two nested loops. *)
Definition index_pairs (n : nat) : list (nat * nat) :=
  i ← seq 0 n; (λ j, (i, j)) <$> seq (S i) (n - S i).

Module Day09.

Record Coord : Type := mkCoord { x : Z; y : Z }.

#[global] Instance Coord_inhabited : Inhabited Coord := populate (mkCoord 0 0).

Class Parsing : Type := { parseCoord : string → Coord }.

(** [distX * distY] of [part1] *)
Definition area (a b : Coord) : Z :=
  ((Z.abs (x a - x b) + 1) * (Z.abs (y a - y b) + 1))%Z.

(** [if (area > maxArea) maxArea = area] *)
Definition keep_larger (maxArea area : Z) : Z :=
  if decide (maxArea < area)%Z then area else maxArea.

Definition largest (coords : list Coord) : Z :=
  foldl (λ maxArea ij, keep_larger maxArea (area (coords !!! ij.1) (coords !!! ij.2)))
        0%Z (index_pairs (length coords)).

Definition part1 `{Parsing} (lines : list string) : Z :=
  largest (parseCoord <$> lines).

(** The objects [{ x, y, origX, origY }] of [compressedCoords]. *)
Record Compressed : Type :=
  mkCompressed { cx : nat; cy : nat; origX : Z; origY : Z }.

#[global] Instance Compressed_inhabited : Inhabited Compressed :=
  populate (mkCompressed 0 0 0 0).

Definition by_value (a b : Z) : Z := (a - b)%Z.

(** [[...new Set(values)].sort((a, b) => a - b)] *)
Definition unique_sorted (values : list Z) : list Z :=
  js_sort by_value (js_set_of values).

(** [unique.forEach((v, i) => toIdx.set(v, i))] *)
Definition index_map (unique : list Z) : ZMap nat :=
  foldl (λ toIdx iv, zmap_set toIdx iv.2 iv.1) [] (zip (seq 0 (length unique)) unique).

(** The non-null assertions [xToIdx.get(c.x)!]: the keys are present, see
    [compress_spec]. *)
Definition compress (xToIdx yToIdx : ZMap nat) (c : Coord) : Compressed :=
  mkCompressed (default 0 (zmap_get xToIdx (x c))) (default 0 (zmap_get yToIdx (y c)))
               (x c) (y c).

(** A [Uint8Array]: a write outside of it is ignored, a read outside of it
    gives [undefined]. *)
Abbreviation Grid := (list nat).

(** [a[pos] === 1] and [a[pos] === 0] *)
Definition is_one (a : Grid) (pos : nat) : bool := bool_decide (a !! pos = Some 1).
Definition is_zero (a : Grid) (pos : nat) : bool := bool_decide (a !! pos = Some 0).

(** [g'] has the length of [g] and a 1 wherever [g] has one. *)
Definition grows (g g' : Grid) : Prop :=
  length g = length g' ∧ ∀ pos, is_one g pos = true → is_one g' pos = true.

(** The two loops [for (y = y1; y <= y2; y++) for (x = x1; x <= x2; x++)]
    writing 1. *)
Definition mark_rect (width x1 x2 y1 y2 : nat) (grid : Grid) : Grid :=
  foldl (λ g yy, foldl (λ g xx, <[yy * width + xx := 1]> g) g (seq x1 (S x2 - x1)))
        grid (seq y1 (S y2 - y1)).

(** The loop over [compressedCoords] marking the rectangle between each
    entry and the next one, the last one wrapping to the first. *)
Definition outline (width : nat) (cc : list Compressed) (grid : Grid) : Grid :=
  foldl (λ g i,
           let current := cc !!! i in
           let next := cc !!! ((i + 1) `mod` length cc) in
           mark_rect width (cx current `min` cx next) (cx current `max` cx next)
                     (cy current `min` cy next) (cy current `max` cy next) g)
        grid (seq 0 (length cc)).

(** The inner loop of [buildHasX] over the positions of one row or column. *)
Definition scan_line (grid : Grid) (positions : list nat) (result : Grid) : Grid :=
  (foldl (λ st pos,
            let foundX := st.1 || is_one grid pos in
            (foundX, <[pos := if foundX then 1 else 0]> st.2))
         (false, result) positions).2.

Definition buildHasX (grid : Grid) (width height : nat)
    (scanByRow reverse : bool) : Grid :=
  let outer := if scanByRow then height else width in
  let inner := if scanByRow then width else height in
  foldl (λ result o,
           scan_line grid
             ((λ i, let idx := if reverse then inner - 1 - i else i in
                    if scanByRow then o * width + idx else idx * width + o)
                <$> seq 0 inner)
             result)
        (replicate (width * height) 0) (seq 0 outer).

(** The body of the loop that fills the interior. *)
Definition fill_cell (width : nat) (hasXLeft hasXRight hasXAbove hasXBelow : Grid)
    (grid : Grid) (yy xx : nat) : Grid :=
  let rowOffset := yy * width in
  let idx := rowOffset + xx in
  if is_zero grid idx && is_one hasXLeft (rowOffset + xx - 1)
     && is_one hasXRight (rowOffset + xx + 1)
     && is_one hasXAbove ((yy - 1) * width + xx)
     && is_one hasXBelow ((yy + 1) * width + xx)
  then <[idx := 1]> grid else grid.

Definition fill (width height : nat) (grid : Grid) : Grid :=
  let hasXLeft := buildHasX grid width height true false in
  let hasXRight := buildHasX grid width height true true in
  let hasXAbove := buildHasX grid width height false false in
  let hasXBelow := buildHasX grid width height false true in
  foldl (λ g yy,
           foldl (λ g xx, fill_cell width hasXLeft hasXRight hasXAbove hasXBelow g yy xx)
                 g (seq 1 (width - 2)))
        grid (seq 1 (height - 2)).

(** The check [allX] of the last loop. *)
Definition rect_marked (width : nat) (grid : Grid) (x1 x2 y1 y2 : nat) : bool :=
  forallb (λ yy, forallb (λ xx, is_one grid (yy * width + xx)) (seq x1 (S x2 - x1)))
          (seq y1 (S y2 - y1)).

(** [distX * distY] of [part2], from the original coordinates. *)
Definition orig_area (ci cj : Compressed) : Z :=
  ((Z.max (origX ci) (origX cj) - Z.min (origX ci) (origX cj) + 1)
   * (Z.max (origY ci) (origY cj) - Z.min (origY ci) (origY cj) + 1))%Z.

Definition pair_marked (width : nat) (grid : Grid) (ci cj : Compressed) : bool :=
  rect_marked width grid (cx ci `min` cx cj) (cx ci `max` cx cj)
              (cy ci `min` cy cj) (cy ci `max` cy cj).

(** The body of the last loop of [part2]. *)
Definition check_pair (width : nat) (grid : Grid) (cc : list Compressed)
    (maxArea : Z) (ij : nat * nat) : Z :=
  let ci := cc !!! ij.1 in
  let cj := cc !!! ij.2 in
  let area := orig_area ci cj in
  if decide (area ≤ maxArea)%Z then maxArea
  else if pair_marked width grid ci cj then area else maxArea.

Definition uniqueXs (coords : list Coord) : list Z := unique_sorted (x <$> coords).
Definition uniqueYs (coords : list Coord) : list Z := unique_sorted (y <$> coords).

Definition compressedCoords (coords : list Coord) : list Compressed :=
  compress (index_map (uniqueXs coords)) (index_map (uniqueYs coords)) <$> coords.

(** The grid the last loop of [part2] reads. *)
Definition filled_grid (coords : list Coord) : Grid :=
  let width := length (uniqueXs coords) in
  let height := length (uniqueYs coords) in
  fill width height
       (outline width (compressedCoords coords) (replicate (width * height) 0)).

Definition largest_marked (coords : list Coord) : Z :=
  let cc := compressedCoords coords in
  foldl (check_pair (length (uniqueXs coords)) (filled_grid coords) cc)
        0%Z (index_pairs (length cc)).

Definition part2 `{Parsing} (lines : list string) : Z :=
  largest_marked (parseCoord <$> lines).

End Day09.

(** A parsing to evaluate [Day09.part1] and [Day09.part2] with: a line
    stands for the point on the diagonal at its length. *)
Definition diagonal_parsing : Day09.Parsing := {|
  Day09.parseCoord := λ line,
    Day09.mkCoord (Z.of_nat (String.length line)) (Z.of_nat (String.length line))
|}.

(** ** Day 7: beams and splitters

    [part1] and [part2] of the day 7 solution.  The grid is the
    [string[][]] the functions are called with; [part1] writes into it. *)

(** [Set<number>.add]: the values are kept in the order of their
    insertion. *)
Definition js_set_add (s : list Z) (v : Z) : list Z :=
  if decide (v ∈ s) then s else s ++ [v].

(** [a[i] = v]: a write past the end extends the array, the elements in
    between are missing ([None], read as [undefined]). *)
Definition js_array_set {A : Type} (a : list (option A)) (i : nat) (v : A)
    : list (option A) :=
  if decide (i < length a) then <[i := Some v]> a
  else a ++ replicate (i - length a) None ++ [Some v].

Module Day07.

Abbreviation Row := (list (option string)).
Abbreviation Grid := (list (list (option string))).

(** [r[col]] for [0 <= col] *)
Definition row_cell (r : Row) (col : Z) : option string :=
  c ← r !! Z.to_nat col; c.

(** [grid[row][col]] *)
Definition cell_at (grid : Grid) (row : nat) (col : Z) : option string :=
  r ← grid !! row; row_cell r col.

(** [grid[row][col] = v] *)
Definition write (grid : Grid) (row col : nat) (v : string) : Grid :=
  alter (λ r, js_array_set r col v) row grid.

(** [grid[0].length] *)
Definition width (grid : Grid) : Z := Z.of_nat (length (default [] (grid !! 0))).

(** [grid[0].findIndex((char) => char === "S")]; [None] when there is no
    [grid[0]] and the call throws. *)
Definition startCol (grid : Grid) : option Z :=
  js_findIndex (λ char, bool_decide (char = Some "S"%string)) <$> grid !! 0.

(** [splitCount], the set of beams being filled and the grid. *)
Record Beams : Type :=
  mkBeams { splitCount : nat; beams : list Z; marked : list (list (option string)) }.

(** The body of the inner loop of [part1]. *)
Definition beam_step (row : nat) (st : Beams) (beamCol : Z) : Beams :=
  if decide (beamCol < 0 ∨ width (marked st) ≤ beamCol)%Z then st
  else if decide (cell_at (marked st) row beamCol = Some "^"%string) then
    mkBeams (S (splitCount st))
            (js_set_add (js_set_add (beams st) (beamCol - 1)) (beamCol + 1))
            (marked st)
  else
    mkBeams (splitCount st) (js_set_add (beams st) beamCol)
            (write (marked st) row (Z.to_nat beamCol) "|").

(** The body of the outer loop of [part1]: [st] holds [activeBeams]. *)
Definition row_step (st : Beams) (row : nat) : Beams :=
  foldl (beam_step row) (mkBeams (splitCount st) [] (marked st)) (beams st).

(** The state of [part1] after the rows below [k]. *)
Definition beams_after (grid : Grid) (k : nat) : option Beams :=
  start ← startCol grid;
  Some (foldl row_step (mkBeams 0 [start] grid) (seq 0 k)).

(** [part1], with the grid it leaves behind. *)
Definition part1 (grid : Grid) : option (nat * Grid) :=
  st ← beams_after grid (length grid); Some (splitCount st, marked st).

(** [m.set(col, (m.get(col) || 0) + count)] *)
Definition count_add (m : ZMap nat) (col : Z) (count : nat) : ZMap nat :=
  zmap_set m col (default 0 (zmap_get m col) + count).

(** The body of the inner loop of [part2]. *)
Definition count_step (grid : Grid) (row : nat) (newBeamCounts : ZMap nat)
    (entry : Z * nat) : ZMap nat :=
  if decide (entry.1 < 0 ∨ width grid ≤ entry.1)%Z then newBeamCounts
  else if decide (cell_at grid row entry.1 = Some "^"%string) then
    count_add (count_add newBeamCounts (entry.1 - 1) entry.2) (entry.1 + 1) entry.2
  else count_add newBeamCounts entry.1 entry.2.

(** [beamCounts] of [part2] after the rows below [k]. *)
Definition counts_after (grid : Grid) (k : nat) : option (ZMap nat) :=
  start ← startCol grid;
  Some (foldl (λ beamCounts row, foldl (count_step grid row) [] beamCounts)
              [(start, 1)] (seq 0 k)).

Definition part2 (grid : Grid) : option nat :=
  beamCounts ← counts_after grid (length grid); Some (sum_list beamCounts.*2).



(** The number of splitters of a grid. *)
Definition splitters (grid : Grid) : nat :=
  sum_list_with (λ r, length (filter (λ c, c = Some "^"%string) r)) grid.

(** A beam in column [col] meets a splitter in [row]. *)
Definition hits (grid : Grid) (row : nat) (col : Z) : Prop :=
  ¬ (col < 0 ∨ width grid ≤ col)%Z ∧ cell_at grid row col = Some "^"%string.

#[global] Instance hits_dec grid row col : Decision (hits grid row col).
Proof. unfold hits. apply _. Defined.

(** What [part1] keeps of the grid it was called with: the number of rows,
    the length of the first row, the splitters; and its beams are distinct
    columns. *)
Definition keeps (grid : Grid) (st : Beams) : Prop :=
  length (marked st) = length grid ∧
  width (marked st) = width grid ∧
  (∀ row col, cell_at (marked st) row col = Some "^"%string
              ↔ cell_at grid row col = Some "^"%string) ∧
  NoDup (beams st).

End Day07.

(** ** Day 11: counting paths

    [part1] and [part2] of the day 11 solution.  The recursion of
    [countPaths] is bounded by [fuel]; the graph and the memo tables are
    finite maps, the set [visiting] a finite set. *)

Module Day11.

(** [line.split(":")], [parts[0]] and [parts[1].trim().split(" ")]: the
    name and the outputs of a line, [None] for a line without a colon, where
    [parts[1].trim()] throws. *)
Class Parsing : Type := { parseLine : string → option (string * list string) }.

Abbreviation Graph := (gmap string (list string)).

(** The body of [lines.forEach]: [graph] and [start]. *)
Definition add_line `{Parsing} (target : string)
    (st : option (gmap string (list string) * option (list string)))
    (line : string) : option (gmap string (list string) * option (list string)) :=
  '(graph, start) ← st;
  '(name, outputs) ← parseLine line;
  Some (<[name := outputs]> graph,
        if decide (name = target) then Some outputs else start).

Definition read_graph `{Parsing} (target : string) (lines : list string)
    : option (gmap string (list string) * option (list string)) :=
  foldl (add_line target) (Some (∅, None)) lines.

(** The two mutable objects [countPaths] of [part1] works on. *)
Record Search : Type :=
  mkSearch { visiting : gset string; memo : gmap string nat }.

(** [countPaths(node, visiting)] of [part1]. *)
Fixpoint countPaths (fuel : nat) (graph : gmap string (list string))
    (node : string) (st : Search) : option (nat * Search) :=
  match fuel with
  | 0 => None
  | S fuel' =>
      if decide (node = "out"%string) then Some (1, st)
      else if decide (node ∈ visiting st) then Some (0, st)
      else
        match memo st !! node with
        | Some paths => Some (paths, st)
        | None =>
            let neighbors := default [] (graph !! node) in
            '(paths, st') ←
              foldl (λ acc neighbor,
                       '(paths, s) ← acc;
                       '(more, s') ← countPaths fuel' graph neighbor s;
                       Some (paths + more, s'))
                    (Some (0, mkSearch ({[node]} ∪ visiting st) (memo st)))
                    neighbors;
            Some (paths,
                  mkSearch (visiting st' ∖ {[node]}) (<[node := paths]> (memo st')))
        end
  end.

(** The last loop of [part1]: every call gets a [new Set()], the memo
    table is shared. *)
Definition count_from (fuel : nat) (graph : gmap string (list string))
    (outputs : list string) : option (nat * gmap string nat) :=
  foldl (λ acc output,
           '(totalPaths, m) ← acc;
           '(paths, s) ← countPaths fuel graph output (mkSearch ∅ m);
           Some (totalPaths + paths, memo s))
        (Some (0, ∅)) outputs.

Definition part1 `{Parsing} (fuel : nat) (lines : list string) : option nat :=
  '(graph, start) ← read_graph "you" lines;
  match start with
  | None => Some 0
  | Some outputs => fst <$> count_from fuel graph outputs
  end.

(** [(seenFft ? 2 : 0) + (seenDac ? 1 : 0)] *)
Definition state_of (seenFft seenDac : bool) : nat :=
  (if seenFft then 2 else 0) + (if seenDac then 1 else 0).

(** The mutable objects of [countPaths] of [part2]: [memo] maps a node to
    its own table from states to counts. *)
Record Search2 : Type :=
  mkSearch2 { visiting2 : gset string; memo2 : gmap string (gmap nat nat) }.

(** [countPaths(node, visiting, seenFft, seenDac)] of [part2].  [nodeCache]
    is read before the recursive calls; when it is defined it is the table
    stored in [memo] for [node], so [nodeCache.set] changes that entry. *)
Fixpoint countPaths2 (fuel : nat) (graph : gmap string (list string))
    (node : string) (seenFft seenDac : bool) (st : Search2)
    : option (nat * Search2) :=
  match fuel with
  | 0 => None
  | S fuel' =>
      if decide (node = "out"%string)
      then Some (if seenFft && seenDac then 1 else 0, st)
      else if decide (node ∈ visiting2 st) then Some (0, st)
      else
        let state := state_of seenFft seenDac in
        let nodeCache := memo2 st !! node in
        match nodeCache ≫= (.!! state) with
        | Some paths => Some (paths, st)
        | None =>
            let newSeenFft := seenFft || bool_decide (node = "fft"%string) in
            let newSeenDac := seenDac || bool_decide (node = "dac"%string) in
            let neighbors := default [] (graph !! node) in
            '(paths, st') ←
              foldl (λ acc neighbor,
                       '(paths, s) ← acc;
                       '(more, s') ←
                         countPaths2 fuel' graph neighbor newSeenFft newSeenDac s;
                       Some (paths + more, s'))
                    (Some (0, mkSearch2 ({[node]} ∪ visiting2 st) (memo2 st)))
                    neighbors;
            Some (paths,
                  mkSearch2 (visiting2 st' ∖ {[node]})
                    (match nodeCache with
                     | None => <[node := {[state := paths]}]> (memo2 st')
                     | Some _ =>
                         <[node := <[state := paths]> (default ∅ (memo2 st' !! node))]>
                           (memo2 st')
                     end))
        end
  end.

Definition count_from2 (fuel : nat) (graph : gmap string (list string))
    (outputs : list string) : option (nat * gmap string (gmap nat nat)) :=
  foldl (λ acc output,
           '(totalPaths, m) ← acc;
           '(paths, s) ← countPaths2 fuel graph output false false (mkSearch2 ∅ m);
           Some (totalPaths + paths, memo2 s))
        (Some (0, ∅)) outputs.

Definition part2 `{Parsing} (fuel : nat) (lines : list string) : option nat :=
  '(graph, start) ← read_graph "svr" lines;
  match start with
  | None => Some 0
  | Some outputs => fst <$> count_from2 fuel graph outputs
  end.

(** The number of walks of at most [depth] further steps from [node] that
    end at the first ["out"] they reach. *)
Fixpoint walks (graph : gmap string (list string)) (depth : nat) (node : string) : nat :=
  if decide (node = "out"%string) then 1
  else
    match depth with
    | 0 => 0
    | S depth' => sum_list (walks graph depth' <$> default [] (graph !! node))
    end.



(** The count of a node: its walks within its rank. *)
Definition count (graph : gmap string (list string)) (rank : string → nat)
    (node : string) : nat :=
  walks graph (S (rank node)) node.




End Day11.

(** [s.split(sep)] for a separator of one character. *)
Fixpoint split_on (sep : string) (s : string) : list string :=
  match s with
  | EmptyString => [EmptyString]
  | String c s' =>
      if decide (String c EmptyString = sep) then EmptyString :: split_on sep s'
      else
        match split_on sep s' with
        | [] => [String c EmptyString]
        | w :: ws => String c w :: ws
        end
  end.

(** A parsing to evaluate [Day11.part1] and [Day11.part2] with, for lines
    of the form [name:out1 out2] without further blanks. *)
Definition colon_parsing : Day11.Parsing := {|
  Day11.parseLine := λ line,
    match split_on ":" line with
    | name :: outputs :: _ => Some (name, split_on " " outputs)
    | _ => None
    end
|}.

(** ** Day 3 visualization: the greedy picks

    [getHighestInRange] and the loop over [pick] of [buildVisualization]
    as far as it computes [resultRows[lineIdx]]; the rendering of the
    frames is left out. *)

(** [a > b] on strings.  JavaScript compares code units; on the ASCII
    strings compared here that is the order of [String.compare]. *)
Definition js_string_gt (a b : string) : bool :=
  match String.compare a b with
  | Gt => true
  | _ => false
  end.

Module Day03.

Definition keepCount : nat := 12.

(** The object [{ value, index }]. *)
Record Highest : Type := mkHighest { value : string; index : Z }.

(** [digits[i]] *)
Definition digit_at (digits : list string) (i : Z) : option string :=
  if decide (0 ≤ i)%Z then digits !! Z.to_nat i else None.

(** The body of the loop of [getHighestInRange]; [undefined > highest] is
    false. *)
Definition highest_step (digits : list string) (st : Highest) (i : Z) : Highest :=
  match digit_at digits i with
  | Some v => if js_string_gt v (value st) then mkHighest v i else st
  | None => st
  end.

Definition getHighestInRange (digits : list string) (startIndex endIndex : Z)
    : Highest :=
  foldl (highest_step digits) (mkHighest "-1" (-1))
        (seqZ startIndex (endIndex - startIndex + 1)).

(** [searchStart] and [resultRows[lineIdx]]. *)
Record Picks : Type := mkPicks { searchStart : Z; resultRow : list string }.

(** The body of the loop over [pick]. *)
Definition pick_step (digits : list string) (st : Picks) (pick : nat) : Picks :=
  let maxSearchIndex :=
    (Z.of_nat (length digits) - (Z.of_nat keepCount - Z.of_nat pick))%Z in
  let found := getHighestInRange digits (searchStart st) maxSearchIndex in
  mkPicks (index found + 1) (<[pick := value found]> (resultRow st)).

(** [resultRows[lineIdx]] after the loop over [pick]. *)
Definition picks (digits : list string) : list string :=
  resultRow (foldl (pick_step digits) (mkPicks 0 (replicate keepCount "."%string))
                   (seq 0 keepCount)).

(** The string of the decimal digit [d]. *)
Definition digit (d : nat) : string :=
  String (Ascii.ascii_of_nat (48 + d)) EmptyString.

(** The lexicographic order, on lists of the same length. *)
Fixpoint lex_le (a b : list nat) : Prop :=
  match a, b with
  | x :: a', y :: b' => x < y ∨ (x = y ∧ lex_le a' b')
  | _, _ => True
  end.

End Day03.

(** * Properties *)

Section Invariant.
Context {n : nat} {uf : UnionFind} {rep d : nat → nat}.
Hypothesis HI : Inv n uf rep d.

Lemma rep_root x :
  x < n →
  rep x < n ∧ parent uf !! rep x = Some (rep x) ∧ rep (rep x) = rep x ∧
  (rep x = x ∨ d (rep x) < d x).
Proof.
  remember (d x) as k eqn:Hk. revert x Hk.
  induction k as [k IH] using lt_wf_ind. intros x -> Hx.
  destruct (inv_link _ _ _ _ HI x Hx) as (p & Hp & Hpn & Hrep & Hself & Hdown).
  destruct (decide (p = x)) as [->|Hne].
  - rewrite (Hself eq_refl). rewrite Hp. auto.
  - specialize (Hdown Hne).
    destruct (IH (d p) Hdown p eq_refl Hpn) as (H1 & H2 & H3 & H4).
    rewrite <- Hrep. repeat split; try done.
    right. destruct H4 as [H4|H4]; [rewrite H4|]; lia.
Qed.

Lemma root_link r : r < n → rep r = r → parent uf !! r = Some r.
Proof.
  intros Hr Hrep. destruct (rep_root r Hr) as (_ & H & _). by rewrite Hrep in H.
Qed.

Lemma link_root r : r < n → parent uf !! r = Some r → rep r = r.
Proof.
  intros Hr Hp.
  destruct (inv_link _ _ _ _ HI r Hr) as (p & Hp' & _ & _ & Hself & _).
  apply Hself. congruence.
Qed.

Lemma depth_lt x : x < n → d x < n.
Proof.
  intros Hx. pose proof (inv_depth _ _ _ _ HI x Hx) as H.
  unfold members in H.
  pose proof (length_filter (λ y, rep y = rep x) (seq 0 n)) as H'.
  rewrite length_seq in H'. lia.
Qed.
End Invariant.

Lemma find_fuel_spec n rep d fuel : ∀ uf x,
  Inv n uf rep d → x < n → d x < fuel →
  ∃ uf', find_fuel fuel uf x = Some (rep x, uf') ∧ Inv n uf' rep d ∧
         size uf' = size uf.
Proof.
  induction fuel as [|fuel IH]; intros uf x HI Hx Hd; [lia|].
  destruct (inv_link _ _ _ _ HI x Hx) as (p & Hp & Hpn & Hrep & Hself & Hdown).
  simpl. rewrite Hp. simpl. destruct (decide (p ≠ x)) as [Hne|Heq].
  - destruct (IH uf p HI Hpn) as (uf' & Hf & HI' & Hsz); [specialize (Hdown Hne); lia|].
    rewrite Hf. simpl.
    rewrite list_lookup_insert_eq by (rewrite (inv_len_parent _ _ _ _ HI'); done).
    simpl. rewrite Hrep. eexists; split; [done|]. split; [|done].
    destruct (rep_root HI' x Hx) as (R1 & R2 & R3 & R4).
    constructor; simpl.
    + rewrite length_insert. apply HI'.
    + apply HI'.
    + intros y Hy. destruct (decide (y = x)) as [->|Hyx].
      * exists (rep x). rewrite list_lookup_insert_eq
          by (rewrite (inv_len_parent _ _ _ _ HI'); done).
        repeat split; try done. intros Hn. destruct R4; [congruence|done].
      * rewrite list_lookup_insert_ne by done. by apply HI'.
    + apply HI'.
    + apply HI'.
  - assert (p = x) as -> by (destruct (decide (p = x)); [done|contradiction]).
    rewrite (Hself eq_refl). eauto.
Qed.

Lemma find_spec n rep d uf x :
  Inv n uf rep d → x < n →
  ∃ uf', find uf x = Some (rep x, uf') ∧ Inv n uf' rep d ∧ size uf' = size uf.
Proof.
  intros HI Hx. unfold find. apply find_fuel_spec; [done..|].
  rewrite (inv_len_parent _ _ _ _ HI). by eapply depth_lt.
Qed.

Lemma filter_merge_length (rep : nat → nat) l w r (xs : list nat) :
  l ≠ w →
  length (filter (λ x, merge rep l w x = r) xs) =
    if decide (r = w)
    then length (filter (λ x, rep x = w) xs) + length (filter (λ x, rep x = l) xs)
    else if decide (r = l) then 0 else length (filter (λ x, rep x = r) xs).
Proof.
  intros Hlw. induction xs as [|x xs IH]; [by repeat case_decide|].
  rewrite !filter_cons. unfold merge in *.
  repeat case_decide; simpl in *; try lia; congruence.
Qed.

Lemma members_merge n rep l w r :
  l ≠ w →
  members n (merge rep l w) r =
    if decide (r = w) then members n rep w + members n rep l
    else if decide (r = l) then 0 else members n rep r.
Proof. apply filter_merge_length. Qed.

Lemma Inv_merge n uf rep d l w :
  Inv n uf rep d → l < n → w < n → rep l = l → rep w = w → l ≠ w →
  Inv n (link uf l w (members n rep w + members n rep l))
    (merge rep l w) (lift d rep l w).
Proof.
  intros HI Hl Hw Hrl Hrw Hlw.
  pose proof (inv_len_parent _ _ _ _ HI) as Hlen.
  pose proof (inv_len_size _ _ _ _ HI) as Hlens.
  constructor; simpl.
  - by rewrite length_insert.
  - by rewrite length_insert.
  - intros x Hx. destruct (decide (x = l)) as [->|Hxl].
    + exists w. rewrite list_lookup_insert_eq by lia.
      unfold merge, lift. rewrite Hrl, Hrw.
      repeat case_decide; try congruence. repeat split; try done; lia.
    + rewrite list_lookup_insert_ne by done.
      destruct (inv_link _ _ _ _ HI x Hx) as (p & Hp & Hpn & Hrep & Hself & Hdown).
      exists p. unfold merge, lift. rewrite Hrep.
      repeat split; try done.
      * intros ->. rewrite (Hself eq_refl). case_decide; congruence.
      * intros Hne. specialize (Hdown Hne). case_decide; lia.
  - intros r Hr Hm. rewrite members_merge by done.
    assert (rep r = r ∧ r ≠ l) as [Hrr Hne].
    { unfold merge in Hm. case_decide; [subst; congruence|].
      split; [done|]. intros ->. congruence. }
    destruct (decide (r = w)) as [->|Hrw'].
    + by rewrite list_lookup_insert_eq by lia.
    + rewrite list_lookup_insert_ne by done. case_decide; [done|].
      by apply HI.
  - intros x Hx. rewrite members_merge by done.
    pose proof (inv_depth _ _ _ _ HI x Hx) as Hdx.
    pose proof (inv_depth _ _ _ _ HI w Hw) as Hdw. rewrite Hrw in Hdw.
    unfold merge, lift. destruct (decide (rep x = l)) as [Hxl|Hxl].
    + rewrite decide_True by done. rewrite Hxl in Hdx. lia.
    + repeat case_decide; try done; subst; lia.
Qed.

Lemma union_spec n rep d uf a b :
  Inv n uf rep d → a < n → b < n →
  ∃ uf1 uf2,
    find uf a = Some (rep a, uf1) ∧ find uf1 b = Some (rep b, uf2) ∧
    Inv n uf2 rep d ∧ size uf2 = size uf ∧
    if decide (rep a = rep b) then union uf a b = Some (false, uf2)
    else
      let w := winner n rep (rep a) (rep b) in
      let l := loser n rep (rep a) (rep b) in
      let uf3 := link uf2 l w (members n rep w + members n rep l) in
      union uf a b = Some (true, uf3) ∧
      Inv n uf3 (merge rep l w) (lift d rep l w).
Proof.
  intros HI Ha Hb.
  destruct (find_spec _ _ _ _ a HI Ha) as (uf1 & Hf1 & HI1 & Hs1).
  destruct (find_spec _ _ _ _ b HI1 Hb) as (uf2 & Hf2 & HI2 & Hs2).
  exists uf1, uf2. do 3 (split; [done|]). split; [congruence|].
  destruct (rep_root HI2 a Ha) as (Ran & _ & Raa & _).
  destruct (rep_root HI2 b Hb) as (Rbn & _ & Rbb & _).
  unfold union. rewrite Hf1. simpl. rewrite Hf2. simpl.
  destruct (decide (rep a = rep b)) as [Heq|Hne]; [done|].
  rewrite (inv_size _ _ _ _ HI2 (rep a)) by done.
  rewrite (inv_size _ _ _ _ HI2 (rep b)) by done. simpl.
  unfold winner, loser.
  destruct (decide (members n rep (rep a) < members n rep (rep b))); simpl.
  - rewrite (inv_size _ _ _ _ HI2 (rep a)) by done.
    rewrite (inv_size _ _ _ _ HI2 (rep b)) by done. simpl.
    split; [done|]. by apply Inv_merge.
  - rewrite (inv_size _ _ _ _ HI2 (rep a)) by done.
    rewrite (inv_size _ _ _ _ HI2 (rep b)) by done. simpl.
    split; [done|]. apply Inv_merge; done || congruence.
Qed.

Lemma filter_ext_elem {A} (P Q : A → Prop) `{∀ x, Decision (P x)}
    `{∀ x, Decision (Q x)} (l : list A) :
  (∀ x, x ∈ l → (P x ↔ Q x)) → filter P l = filter Q l.
Proof.
  induction l as [|x l IH]; intros HPQ; [done|].
  rewrite !filter_cons. rewrite IH by (intros; apply HPQ; by right).
  pose proof (HPQ x (list_elem_of_here _ _)). repeat case_decide; tauto || done.
Qed.

Lemma filter_eq_length (r : nat) (l : list nat) :
  NoDup l →
  length (filter (λ x, x = r) l) = if decide (r ∈ l) then 1 else 0.
Proof.
  induction 1 as [|x l Hx Hnd IH]; [done|].
  rewrite filter_cons. destruct (decide (x = r)) as [->|Hne]; simpl.
  - rewrite IH, decide_False, decide_True by (done || left); done.
  - rewrite IH. destruct (decide (r ∈ l)) as [Hin|Hin].
    + rewrite decide_True; [done|]. by right.
    + rewrite decide_False; [done|]. rewrite elem_of_cons. intros [?|?]; congruence.
Qed.

Lemma members_id n r : r < n → members n id r = 1.
Proof.
  intros Hr. unfold members, id.
  rewrite filter_eq_length by apply NoDup_seq.
  rewrite decide_True; [done|]. apply elem_of_seq. lia.
Qed.

Lemma Inv_new n : Inv n (UnionFind_new n) id (λ _, 0).
Proof.
  constructor; simpl.
  - by rewrite length_seq.
  - by rewrite length_replicate.
  - intros x Hx. exists x. rewrite lookup_seq_lt by done. repeat split; done.
  - intros r Hr _. rewrite lookup_replicate_2 by done. by rewrite members_id.
  - intros x Hx. rewrite members_id by done. lia.
Qed.

Lemma root_fuel_spec n rep d uf fuel : ∀ x,
  Inv n uf rep d → x < n → d x < fuel →
  root_fuel fuel (parent uf) x = Some (rep x).
Proof.
  induction fuel as [|fuel IH]; intros x HI Hx Hd; [lia|].
  destruct (inv_link _ _ _ _ HI x Hx) as (p & Hp & Hpn & Hrep & Hself & Hdown).
  simpl. rewrite Hp. simpl. case_decide as Hne.
  - rewrite <- Hrep. apply IH; [done..|]. specialize (Hdown Hne). lia.
  - assert (p = x) as -> by (destruct (decide (p = x)); [done|contradiction]).
    by rewrite (Hself eq_refl).
Qed.

Lemma root_spec n rep d uf x :
  Inv n uf rep d → x < n → root uf x = Some (rep x).
Proof.
  intros HI Hx. unfold root. eapply root_fuel_spec; [done..|].
  rewrite (inv_len_parent _ _ _ _ HI). by eapply depth_lt.
Qed.

Lemma card_spec n rep d uf r :
  Inv n uf rep d → card uf r = members n rep r.
Proof.
  intros HI. unfold card, members. rewrite (inv_len_parent _ _ _ _ HI).
  f_equal. apply filter_ext_elem. intros x Hx%elem_of_seq.
  rewrite (root_spec _ _ _ _ _ HI) by lia. split; congruence.
Qed.

Lemma found_spec n rep d uf r :
  Inv n uf rep d → found uf r = members n rep r.
Proof.
  intros HI. unfold found, members. rewrite (inv_len_parent _ _ _ _ HI).
  f_equal. apply filter_ext_elem. intros x Hx%elem_of_seq.
  destruct (find_spec _ _ _ _ x HI) as (uf' & -> & _); [lia|]. simpl.
  split; congruence.
Qed.

Lemma do_call_inv n rep d uf c :
  Inv n uf rep d → call_ok n c = true →
  ∃ uf' rep' d', do_call uf c = Some uf' ∧ Inv n uf' rep' d' ∧
                 (∀ x y, rep x = rep y → rep' x = rep' y).
Proof.
  intros HI Hok. destruct c as [x|a b]; simpl in *.
  - apply bool_decide_eq_true in Hok.
    destruct (find_spec _ _ _ _ x HI Hok) as (uf' & -> & HI' & _).
    exists uf', rep, d. done.
  - apply andb_true_iff in Hok as [Ha%bool_decide_eq_true Hb%bool_decide_eq_true].
    destruct (union_spec _ _ _ _ a b HI Ha Hb) as (uf1 & uf2 & _ & _ & HI2 & _ & Hu).
    case_decide.
    + rewrite Hu. exists uf2, rep, d. done.
    + destruct Hu as [-> HI3]. simpl. do 3 eexists. split; [done|]. split; [done|].
      intros x y Hxy. unfold merge. by rewrite Hxy.
Qed.

Lemma run_calls_inv n cs : ∀ uf rep d,
  Inv n uf rep d → forallb (call_ok n) cs = true →
  ∃ uf' rep' d', run_calls cs uf = Some uf' ∧ Inv n uf' rep' d' ∧
                 (∀ x y, rep x = rep y → rep' x = rep' y).
Proof.
  induction cs as [|c cs IH]; intros uf rep d HI Hok; simpl in *.
  - exists uf, rep, d. done.
  - apply andb_true_iff in Hok as [Hc Hcs].
    destruct (do_call_inv _ _ _ _ c HI Hc) as (uf1 & rep1 & d1 & -> & HI1 & Hmono).
    simpl. destruct (IH uf1 rep1 d1 HI1 Hcs) as (uf2 & rep2 & d2 & -> & HI2 & Hmono2).
    exists uf2, rep2, d2. split; [done|]. split; [done|]. auto.
Qed.

Lemma forest_after_inv n cs :
  forallb (call_ok n) cs = true →
  ∃ uf rep d, forest_after n cs = Some uf ∧ Inv n uf rep d.
Proof.
  intros Hok.
  destruct (run_calls_inv n cs _ _ _ (Inv_new n) Hok) as (uf & rep & d & ? & ? & _).
  eauto.
Qed.

(** ** The sort *)

Section Sort.
Context {A : Type} (cmp : A → A → Z) (key : A → Z).
Hypothesis cmp_key : ∀ x y, (cmp x y ≤ 0 ↔ key x ≤ key y)%Z.

Lemma sort_insert_perm x l : sort_insert cmp x l ≡ₚ x :: l.
Proof.
  induction l as [|y l IH]; simpl; [done|].
  case_decide; [done|]. rewrite IH. apply Permutation_swap.
Qed.

Lemma js_sort_perm l : js_sort cmp l ≡ₚ l.
Proof.
  induction l as [|x l IH]; simpl; [done|].
  rewrite sort_insert_perm. by rewrite IH.
Qed.

Lemma sort_insert_stable (before : relation A) x l :
  StronglySorted (stable_order key before) l →
  Forall (before x) l →
  StronglySorted (stable_order key before) (sort_insert cmp x l).
Proof.
  induction 1 as [|y l Hl IH Hy]; intros Hx; simpl.
  - repeat constructor.
  - apply Forall_cons in Hx as [Hxy Hxl].
    destruct (decide (cmp x y ≤ 0)%Z) as [Hle|Hgt].
    + apply cmp_key in Hle. constructor; [by constructor|].
      constructor.
      * unfold stable_order. destruct (decide (key x = key y)); [auto|left; lia].
      * rewrite Forall_forall in Hy, Hxl |- *. intros z Hz.
        specialize (Hy z Hz). specialize (Hxl z Hz).
        unfold stable_order in *.
        destruct (decide (key x = key z)); [auto|left; lia].
    + rewrite cmp_key in Hgt. constructor; [by apply IH|].
      rewrite sort_insert_perm. constructor; [|done].
      left. lia.
Qed.

Lemma js_sort_stable (before : relation A) l :
  StronglySorted before l →
  StronglySorted (stable_order key before) (js_sort cmp l).
Proof.
  induction 1 as [|x l Hl IH Hx]; simpl; [constructor|].
  apply sort_insert_stable; [done|]. by rewrite js_sort_perm.
Qed.

Lemma js_sort_sorted l :
  StronglySorted (λ x y, key x ≤ key y)%Z (js_sort cmp l).
Proof.
  assert (StronglySorted (λ _ _, True) l) as H.
  { induction l; constructor; [done|]. by apply Forall_true. }
  apply (js_sort_stable _) in H.
  induction H as [|x k Hk IH Hx]; constructor; [done|].
  eapply Forall_impl; [done|]. intros y [?|[? _]]; lia.
Qed.
End Sort.

Lemma StronglySorted_lookup {A} (R : relation A) (l : list A) k1 k2 x y :
  StronglySorted R l → l !! k1 = Some x → l !! k2 = Some y → k1 < k2 → R x y.
Proof.
  intros Hl. revert k1 k2. induction Hl as [|z l Hl IH Hz]; intros k1 k2 H1 H2 Hlt.
  - done.
  - destruct k1 as [|k1], k2 as [|k2]; try lia; simpl in *.
    + simplify_eq. rewrite Forall_lookup in Hz. eauto.
    + eapply IH; [done..|lia].
Qed.

(** ** The candidate list *)

Section Pairs.
Variable boxes : list Box.

Lemma elem_of_pairs_from i p :
  p ∈ pairs_from boxes i ↔ ∃ j, i < j < length boxes ∧ p = pair_of boxes i j.
Proof.
  unfold pairs_from. rewrite list_elem_of_fmap. split.
  - intros (j & -> & Hj%elem_of_seq). exists j. split; [lia|done].
  - intros (j & Hj & ->). exists j. split; [done|]. apply elem_of_seq. lia.
Qed.

Lemma elem_of_concat_pairs (ixs : list nat) p :
  p ∈ concat (pairs_from boxes <$> ixs) ↔ ∃ i, i ∈ ixs ∧ p ∈ pairs_from boxes i.
Proof.
  induction ixs as [|i ixs IH]; simpl.
  - split; [by intros ?%elem_of_nil|by intros (? & ?%elem_of_nil & _)].
  - rewrite elem_of_app, IH. split.
    + intros [?|(i' & ? & ?)]; [exists i|exists i']; split; try done; by constructor.
    + intros (i' & [->|?]%elem_of_cons & ?); [by left|right; eauto].
Qed.

Lemma elem_of_enum_pairs p :
  p ∈ enum_pairs boxes ↔ ∃ i j, i < j < length boxes ∧ p = pair_of boxes i j.
Proof.
  unfold enum_pairs. rewrite elem_of_concat_pairs. split.
  - intros (i & _ & (j & ? & ?)%elem_of_pairs_from). eauto.
  - intros (i & j & Hij & ->). exists i. split.
    + apply elem_of_seq. lia.
    + apply elem_of_pairs_from. eauto.
Qed.

Lemma length_pairs_from i : length (pairs_from boxes i) = length boxes - S i.
Proof. unfold pairs_from. by rewrite length_fmap, length_seq. Qed.

Lemma length_concat_pairs m : ∀ a,
  a + m = length boxes →
  2 * length (concat (pairs_from boxes <$> seq a m)) = m * (m - 1).
Proof.
  induction m as [|m IH]; intros a Ha; [done|].
  cbn [seq]. rewrite fmap_cons. cbn [concat].
  rewrite length_app, length_pairs_from, Nat.mul_add_distr_l, IH by lia.
  replace (length boxes - S a) with m by lia. destruct m; simpl; lia.
Qed.

Lemma length_enum_pairs : 2 * length (enum_pairs boxes) = length boxes * (length boxes - 1).
Proof. by apply length_concat_pairs. Qed.

Lemma pairs_from_sorted i : StronglySorted enum_order (pairs_from boxes i).
Proof.
  unfold pairs_from. generalize (S i) as a, (length boxes - S i) as m.
  intros a m. revert a. induction m as [|m IH]; intros a; simpl; constructor.
  - apply IH.
  - apply Forall_forall. intros q (j & -> & Hj%elem_of_seq)%list_elem_of_fmap.
    right. simpl. lia.
Qed.

Lemma concat_pairs_sorted m : ∀ a,
  StronglySorted enum_order (concat (pairs_from boxes <$> seq a m)).
Proof.
  induction m as [|m IH]; intros a; simpl; [constructor|].
  apply StronglySorted_app_2; [|apply pairs_from_sorted|apply IH].
  intros p q (j & _ & ->)%elem_of_pairs_from
    (i' & Hi'%elem_of_seq & (j' & _ & ->)%elem_of_pairs_from)%elem_of_concat_pairs.
  left. simpl. lia.
Qed.

Lemma enum_pairs_sorted : StronglySorted enum_order (enum_pairs boxes).
Proof. apply concat_pairs_sorted. Qed.

Lemma by_distance_key p q : (by_distance p q ≤ 0 ↔ Pair.d p ≤ Pair.d q)%Z.
Proof. unfold by_distance. lia. Qed.

Lemma elem_of_createSortedPairs p :
  p ∈ createSortedPairs boxes ↔ ∃ i j, i < j < length boxes ∧ p = pair_of boxes i j.
Proof.
  unfold createSortedPairs.
  rewrite (js_sort_perm by_distance). apply elem_of_enum_pairs.
Qed.

Lemma createSortedPairs_stable :
  StronglySorted (stable_order Pair.d enum_order) (createSortedPairs boxes).
Proof.
  apply (js_sort_stable _ _ by_distance_key), enum_pairs_sorted.
Qed.

Lemma createSortedPairs_in_range :
  Forall (λ p, Pair.i p < length boxes ∧ Pair.j p < length boxes) (createSortedPairs boxes).
Proof.
  apply Forall_forall. intros p (i & j & Hij & ->)%elem_of_createSortedPairs.
  simpl. lia.
Qed.
End Pairs.

(** ** Double precision on exact coordinates *)

Lemma round53_exact (z : Z) : (Z.abs z < 2 ^ 53)%Z → round53 z = z.
Proof. intros Hz. unfold round53. cbv zeta. by rewrite decide_True. Qed.

Lemma exact_box_spec (b : Box) :
  exact_box b = true →
  (Z.abs (at0 b) ≤ 16777216 ∧ Z.abs (at1 b) ≤ 16777216 ∧ Z.abs (at2 b) ≤ 16777216)%Z.
Proof.
  unfold exact_box. intros H.
  apply andb_true_iff in H as [H H2]. apply andb_true_iff in H as [H0 H1].
  apply bool_decide_eq_true in H0, H1, H2.
  change (2 ^ 24)%Z with 16777216%Z in *. done.
Qed.

Lemma exact_box_at (boxes : list Box) (i : nat) :
  exact_boxes boxes = true → exact_box (box_at boxes i) = true.
Proof.
  intros H. unfold box_at. destruct (nth_in_or_default i boxes box0) as [Hin| ->].
  - unfold exact_boxes in H. rewrite forallb_forall in H. by apply H.
  - reflexivity.
Qed.

Lemma distanceSqrt_bound (a b : Box) :
  exact_box a = true → exact_box b = true →
  (0 ≤ distanceSqrt a b ≤ 3 * 2 ^ 50)%Z.
Proof.
  intros (Ha0 & Ha1 & Ha2)%exact_box_spec (Hb0 & Hb1 & Hb2)%exact_box_spec.
  unfold distanceSqrt. cbv zeta. change (2 ^ 50)%Z with 1125899906842624%Z.
  assert (∀ x y, Z.abs x ≤ 16777216 → Z.abs y ≤ 16777216 →
            0 ≤ (x - y) * (x - y) ≤ 1125899906842624)%Z as Hsq.
  { intros x y Hx Hy. split; [apply Z.square_nonneg|]. nia. }
  pose proof (Hsq _ _ Ha0 Hb0). pose proof (Hsq _ _ Ha1 Hb1).
  pose proof (Hsq _ _ Ha2 Hb2). lia.
Qed.

Lemma f64_distanceSqrt_exact (a b : Box) :
  exact_box a = true → exact_box b = true →
  f64_distanceSqrt a b = distanceSqrt a b.
Proof.
  intros (Ha0 & Ha1 & Ha2)%exact_box_spec (Hb0 & Hb1 & Hb2)%exact_box_spec.
  unfold f64_distanceSqrt, distanceSqrt, f64_add, f64_mul, f64_sub. cbv zeta.
  assert (∀ x y, Z.abs x ≤ 16777216 → Z.abs y ≤ 16777216 →
            Z.abs (x - y) < 2 ^ 53 ∧
            0 ≤ (x - y) * (x - y) ≤ 1125899906842624)%Z as Hsq.
  { intros x y Hx Hy. change (2 ^ 53)%Z with 9007199254740992%Z.
    split; [lia|]. split; [apply Z.square_nonneg|]. nia. }
  destruct (Hsq _ _ Ha0 Hb0) as [Hx Hxx]. destruct (Hsq _ _ Ha1 Hb1) as [Hy Hyy].
  destruct (Hsq _ _ Ha2 Hb2) as [Hz Hzz].
  set (dx := (at0 a - at0 b)%Z) in *. set (dy := (at1 a - at1 b)%Z) in *.
  set (dz := (at2 a - at2 b)%Z) in *.
  rewrite (round53_exact dx), (round53_exact dy), (round53_exact dz) by done.
  change (2 ^ 53)%Z with 9007199254740992%Z in *.
  rewrite (round53_exact (dx * dx)), (round53_exact (dy * dy)),
    (round53_exact (dz * dz)) by (change (2 ^ 53)%Z with 9007199254740992%Z; lia).
  rewrite (round53_exact (dx * dx + dy * dy))
    by (change (2 ^ 53)%Z with 9007199254740992%Z; lia).
  apply round53_exact. change (2 ^ 53)%Z with 9007199254740992%Z. lia.
Qed.

Lemma f64_enum_pairs_exact (boxes : list Box) :
  exact_boxes boxes = true → f64_enum_pairs boxes = enum_pairs boxes.
Proof.
  intros H. unfold f64_enum_pairs, enum_pairs. f_equal.
  apply Forall_fmap_ext_1, Forall_forall. intros i _.
  unfold f64_pairs_from, pairs_from.
  apply Forall_fmap_ext_1, Forall_forall. intros j _.
  unfold f64_pair_of, pair_of. f_equal.
  apply f64_distanceSqrt_exact; by apply exact_box_at.
Qed.

Lemma sort_insert_ext {A} (cmp1 cmp2 : A → A → Z) (x : A) (l : list A) :
  (∀ y, y ∈ l → cmp1 x y = cmp2 x y) →
  sort_insert cmp1 x l = sort_insert cmp2 x l.
Proof.
  induction l as [|y l IH]; intros Hc; [done|]. cbn [sort_insert].
  rewrite (Hc y) by left. case_decide; [done|]. f_equal. apply IH.
  intros z Hz. apply Hc. by right.
Qed.

Lemma js_sort_ext {A} (cmp1 cmp2 : A → A → Z) (l : list A) :
  (∀ x y, x ∈ l → y ∈ l → cmp1 x y = cmp2 x y) →
  js_sort cmp1 l = js_sort cmp2 l.
Proof.
  induction l as [|x l IH]; intros Hc; [done|]. cbn [js_sort foldr].
  fold (js_sort cmp1 l). fold (js_sort cmp2 l).
  rewrite IH by (intros y z Hy Hz; apply Hc; by right).
  apply sort_insert_ext. intros y Hy. apply Hc; [by left|].
  right. by rewrite (js_sort_perm cmp2) in Hy.
Qed.

Lemma f64_createSortedPairs_exact (boxes : list Box) :
  exact_boxes boxes = true → f64_createSortedPairs boxes = createSortedPairs boxes.
Proof.
  intros H. unfold f64_createSortedPairs, createSortedPairs.
  rewrite (f64_enum_pairs_exact boxes H). apply js_sort_ext.
  intros p q (i & j & _ & ->)%elem_of_enum_pairs (i' & j' & _ & ->)%elem_of_enum_pairs.
  unfold f64_by_distance, by_distance, f64_sub, pair_of. cbn [Pair.d].
  apply round53_exact.
  pose proof (distanceSqrt_bound (box_at boxes i) (box_at boxes j)
                (exact_box_at boxes i H) (exact_box_at boxes j H)).
  pose proof (distanceSqrt_bound (box_at boxes i') (box_at boxes j')
                (exact_box_at boxes i' H) (exact_box_at boxes j' H)).
  change (2 ^ 50)%Z with 1125899906842624%Z in *.
  change (2 ^ 53)%Z with 9007199254740992%Z. lia.
Qed.

Lemma f64_bridge_value_exact (boxes : list Box) (p : Pair.t) :
  exact_boxes boxes = true → f64_bridge_value boxes p = bridge_value boxes p.
Proof.
  intros H. unfold f64_bridge_value, bridge_value, f64_mul. apply round53_exact.
  destruct (exact_box_spec _ (exact_box_at boxes (Pair.i p) H)) as (Hi & _).
  destruct (exact_box_spec _ (exact_box_at boxes (Pair.j p) H)) as (Hj & _).
  change (2 ^ 53)%Z with 9007199254740992%Z. nia.
Qed.

Lemma f64_bridge_loop_exact (boxes : list Box) :
  exact_boxes boxes = true →
  ∀ pairs s, f64_bridge_loop boxes pairs s = bridge_loop boxes pairs s.
Proof.
  intros H. induction pairs as [|p rest IH]; intros s; [done|].
  cbn [f64_bridge_loop bridge_loop]. case_decide; [|done].
  destruct (union (scan_uf s) (Pair.i p) (Pair.j p)) as [[[] uf']|]; [| |done].
  - cbn [mbind option_bind]. rewrite (f64_bridge_value_exact boxes p H). apply IH.
  - cbn [mbind option_bind]. apply IH.
Qed.

Lemma f64_part2_scan_exact (boxes : list Box) :
  exact_boxes boxes = true → f64_part2_scan boxes = part2_scan boxes.
Proof.
  intros H. unfold f64_part2_scan, part2_scan.
  by rewrite (f64_createSortedPairs_exact boxes H), (f64_bridge_loop_exact boxes H).
Qed.

Lemma f64_part2_exact (boxes : list Box) :
  exact_boxes boxes = true → f64_part2 boxes = part2 boxes.
Proof.
  intros H. unfold f64_part2, part2. by rewrite (f64_part2_scan_exact boxes H).
Qed.



Lemma StronglySorted_NoDup {A} (R : relation A) (l : list A) :
  (∀ x, ¬ R x x) → StronglySorted R l → NoDup l.
Proof.
  intros Hirr. induction 1 as [|x l Hl IH Hx]; constructor; [|done].
  intros Hin. rewrite Forall_forall in Hx. by apply (Hirr x), Hx.
Qed.

Lemma enum_order_irrefl p : ¬ enum_order p p.
Proof. unfold enum_order. lia. Qed.

Lemma enum_order_asym p q : enum_order p q → ¬ enum_order q p.
Proof. unfold enum_order. lia. Qed.

(** C2, for integer coordinates of magnitude at most 2^24.  The list the
    program sorts in doubles is then the list of the exact arithmetic.  It
    holds exactly the pairs [(i, j)] with [i < j < N], each once (so
    [N (N - 1) / 2] of them), each weighted by the sum of the squared
    coordinate differences of its two points; it is ascending in that
    weight, and two pairs of equal weight stand in the order in which the
    loops produced them ([i] ascending, then [j]). *)
Theorem createSortedPairs_spec (boxes : list Box) :
  exact_boxes boxes = true →
  let ps := f64_createSortedPairs boxes in
  ps = createSortedPairs boxes ∧
  (∀ i j, i < j < length boxes →
     ∃ p, p ∈ ps ∧ Pair.i p = i ∧ Pair.j p = j) ∧
  (∀ p, p ∈ ps →
     Pair.i p < Pair.j p < length boxes ∧
     ∃ x1 y1 z1 x2 y2 z2,
       boxes !! Pair.i p = Some (x1, y1, z1) ∧
       boxes !! Pair.j p = Some (x2, y2, z2) ∧
       Pair.d p =
         ((x1 - x2) * (x1 - x2) + (y1 - y2) * (y1 - y2) + (z1 - z2) * (z1 - z2))%Z) ∧
  2 * length ps = length boxes * (length boxes - 1) ∧
  NoDup ps ∧
  StronglySorted (λ p q, Pair.d p ≤ Pair.d q)%Z ps ∧
  (∀ k1 k2 p q,
     ps !! k1 = Some p → ps !! k2 = Some q → Pair.d p = Pair.d q →
     (k1 < k2 ↔ enum_order p q)).
Proof.
  intros Hexact ps. assert (ps = createSortedPairs boxes) as Hps
    by apply (f64_createSortedPairs_exact boxes Hexact).
  split; [done|]. clearbody ps. subst ps. set (ps := createSortedPairs boxes).
  pose proof (createSortedPairs_stable boxes) as Hst. fold ps in Hst.
  assert (NoDup ps) as Hnd.
  { eapply StronglySorted_NoDup; [|exact Hst].
    intros p [?|[_ ?%enum_order_irrefl]]; [lia|done]. }
  split; [|split; [|split; [|split; [|split]]]].
  - intros i j Hij. exists (pair_of boxes i j). split; [|done].
    apply elem_of_createSortedPairs. eauto.
  - intros p (i & j & Hij & ->)%elem_of_createSortedPairs. simpl. split; [done|].
    destruct (lookup_lt_is_Some_2 boxes i) as [[[x1 y1] z1] H1]; [lia|].
    destruct (lookup_lt_is_Some_2 boxes j) as [[[x2 y2] z2] H2]; [lia|].
    exists x1, y1, z1, x2, y2, z2. split; [done|]. split; [done|].
    unfold box_at. by rewrite (nth_lookup_Some _ _ _ _ H1), (nth_lookup_Some _ _ _ _ H2).
  - unfold ps, createSortedPairs.
    rewrite (Permutation_length (js_sort_perm by_distance _)).
    apply length_enum_pairs.
  - done.
  - apply (js_sort_sorted _ _ by_distance_key).
  - intros k1 k2 p q Hp Hq Hd. split.
    + intros Hlt.
      destruct (StronglySorted_lookup _ _ _ _ _ _ Hst Hp Hq Hlt) as [?|[_ ?]]; [lia|done].
    + intros Hpq. destruct (decide (k1 < k2)) as [|Hge]; [done|]. exfalso.
      destruct (decide (k1 = k2)) as [->|Hne].
      * assert (p = q) as -> by congruence. by apply (enum_order_irrefl q).
      * assert (k2 < k1) as Hlt by lia.
        destruct (StronglySorted_lookup _ _ _ _ _ _ Hst Hq Hp Hlt) as [?|[_ ?]]; [lia|].
        by apply (enum_order_asym p q).
Qed.

Lemma createSortedPairs_spec_witness :
  let boxes := [(0, 0, 0); (1, 0, 0); (2, 0, 0)]%Z in
  let ps := f64_createSortedPairs boxes in
  ps = createSortedPairs boxes ∧
  (∀ i j, i < j < length boxes →
     ∃ p, p ∈ ps ∧ Pair.i p = i ∧ Pair.j p = j) ∧
  (∀ p, p ∈ ps →
     Pair.i p < Pair.j p < length boxes ∧
     ∃ x1 y1 z1 x2 y2 z2,
       boxes !! Pair.i p = Some (x1, y1, z1) ∧
       boxes !! Pair.j p = Some (x2, y2, z2) ∧
       Pair.d p =
         ((x1 - x2) * (x1 - x2) + (y1 - y2) * (y1 - y2) + (z1 - z2) * (z1 - z2))%Z) ∧
  2 * length ps = length boxes * (length boxes - 1) ∧
  NoDup ps ∧
  StronglySorted (λ p q, Pair.d p ≤ Pair.d q)%Z ps ∧
  (∀ k1 k2 p q,
     ps !! k1 = Some p → ps !! k2 = Some q → Pair.d p = Pair.d q →
     (k1 < k2 ↔ enum_order p q)).
Proof.
  apply (createSortedPairs_spec [(0, 0, 0); (1, 0, 0); (2, 0, 0)]%Z). reflexivity.
Defined.

(** C2, as stated for every list of points, fails beyond that bound.  The
    squared distance of points 0 and 1 below is 9007199515875290 and that
    of points 1 and 2 is 9007199515875289; in doubles both sums round to
    9007199515875288, the sort takes the two pairs for equal and leaves
    them in the order of the loops, so the farther pair comes first, and
    no weight of the list is the squared distance of its pair. *)
Lemma createSortedPairs_rounding_counterexample :
  let boxes := [(1, 0, 0); (0, 94906267, 0); (0, 189812534, 0)]%Z in
  let ps := f64_createSortedPairs boxes in
  let squared p := distanceSqrt (box_at boxes (Pair.i p)) (box_at boxes (Pair.j p)) in
  ps = [Pair.mk 0 1 9007199515875288; Pair.mk 1 2 9007199515875288;
        Pair.mk 0 2 36028798063501152] ∧
  squared <$> ps = [9007199515875290; 9007199515875289; 36028798063501157]%Z ∧
  ¬ StronglySorted (λ p q, squared p ≤ squared q)%Z ps ∧
  Forall (λ p, Pair.d p ≠ squared p) ps.
Proof.
  intros boxes ps squared.
  assert (ps = [Pair.mk 0 1 9007199515875288; Pair.mk 1 2 9007199515875288;
                Pair.mk 0 2 36028798063501152]) as Hps by (by vm_compute).
  split; [done|]. clearbody ps. subst ps.
  split; [by vm_compute|]. split.
  - intros Hs. inversion Hs as [|? ? _ Hall]; subst.
    inversion Hall as [|? ? Hle _]; subst. vm_compute in Hle. by apply Hle.
  - repeat constructor; by vm_compute.
Qed.

(** ** The forest *)

Lemma root_reaches_self links r y :
  links !! r = Some r → reaches links r y → y = r.
Proof.
  intros Hr. induction 1 as [|x p y Hp _ IH]; [done|].
  assert (p = x) as -> by congruence. auto.
Qed.

Lemma reaches_root_unique links x r1 r2 :
  reaches links x r1 → links !! r1 = Some r1 →
  reaches links x r2 → links !! r2 = Some r2 → r2 = r1.
Proof.
  induction 1 as [x|x p r1 Hp Hr IH]; intros H1 Hx2 H2.
  - by eapply root_reaches_self.
  - inversion Hx2 as [|? p' ? Hp' Hr']; subst.
    + assert (p = r2) as -> by congruence.
      symmetry. by eapply root_reaches_self.
    + assert (p' = p) as -> by congruence. auto.
Qed.

Lemma reaches_rep n rep d uf x :
  Inv n uf rep d → x < n → reaches (parent uf) x (rep x).
Proof.
  intros HI. remember (d x) as k eqn:Hk. revert x Hk.
  induction k as [k IH] using lt_wf_ind. intros x -> Hx.
  destruct (inv_link _ _ _ _ HI x Hx) as (p & Hp & Hpn & Hrep & Hself & Hdown).
  destruct (decide (p = x)) as [->|Hne].
  - rewrite (Hself eq_refl). constructor.
  - rewrite <- Hrep. econstructor; [done|]. eapply IH; eauto.
Qed.

(** C6. Starting from [N] singleton sets, every sequence of [find] and
    [union] calls on valid indices runs to completion and leaves a forest in
    which: the parent links from any index lead to a self-parented root in
    fewer than [N] steps; that root is the only root the index reaches, so
    every index is in exactly one set; two consecutive [find(x)] calls return
    the same root; and the size recorded at a root is the number of indices
    whose [find] result is that root. *)
Theorem forest_invariant (n : nat) (cs : list call) :
  forallb (call_ok n) cs = true →
  ∃ uf,
    forest_after n cs = Some uf ∧
    length (parent uf) = n ∧ length (size uf) = n ∧
    (∀ x, x < n →
       ∃ r, r < n ∧ root uf x = Some r ∧ is_root uf r ∧
            reaches (parent uf) x r ∧
            (∀ r', is_root uf r' → reaches (parent uf) x r' → r' = r) ∧
            ∃ uf1 uf2, find uf x = Some (r, uf1) ∧ find uf1 x = Some (r, uf2)) ∧
    (∀ r, r < n → is_root uf r → size uf !! r = Some (found uf r)).
Proof.
  intros Hok. destruct (forest_after_inv n cs Hok) as (uf & rep & d & Hrun & HI).
  exists uf. split; [done|]. split; [apply HI|]. split; [apply HI|]. split.
  - intros x Hx. destruct (rep_root HI x Hx) as (Hrn & Hrr & _ & _).
    pose proof (reaches_rep _ _ _ _ x HI Hx) as Hreach.
    exists (rep x). split; [done|]. split; [by eapply root_spec|].
    split; [done|]. split; [done|]. split.
    + intros r' Hr' Hxr'. by eapply reaches_root_unique.
    + destruct (find_spec _ _ _ _ x HI Hx) as (uf1 & Hf1 & HI1 & _).
      destruct (find_spec _ _ _ _ x HI1 Hx) as (uf2 & Hf2 & _). eauto.
  - intros r Hr Hroot. rewrite (found_spec _ _ _ _ r HI).
    apply HI; [done|]. by eapply link_root.
Qed.

Lemma forest_invariant_witness :
  ∃ uf,
    forest_after 4 [Union 0 1; Find 1; Union 2 3; Union 1 3; Find 3] = Some uf ∧
    length (parent uf) = 4 ∧ length (size uf) = 4 ∧
    (∀ x, x < 4 →
       ∃ r, r < 4 ∧ root uf x = Some r ∧ is_root uf r ∧
            reaches (parent uf) x r ∧
            (∀ r', is_root uf r' → reaches (parent uf) x r' → r' = r) ∧
            ∃ uf1 uf2, find uf x = Some (r, uf1) ∧ find uf1 x = Some (r, uf2)) ∧
    (∀ r, r < 4 → is_root uf r → size uf !! r = Some (found uf r)).
Proof.
  apply (forest_invariant 4 [Union 0 1; Find 1; Union 2 3; Union 1 3; Find 3]).
  reflexivity.
Defined.

(** C5. On a forest built by the constructor and any calls, [union(a, b)]
    on valid indices returns [false] exactly when [a] and [b] have the same
    root, and then only the two [find] calls have acted and no index changes
    root.  Otherwise it returns [true]: the root of the set with strictly
    fewer members is re-parented under the other root (root(b) under root(a)
    when the sets are equally large), the surviving root's size becomes the
    sum of the two sizes, and exactly the indices of the two sets now have
    the surviving root. *)
Theorem union_by_size (n : nat) (cs : list call) (uf : UnionFind) (a b : nat) :
  forallb (call_ok n) cs = true →
  forest_after n cs = Some uf →
  a < n → b < n →
  ∃ ra rb uf1 uf2,
    root uf a = Some ra ∧ root uf b = Some rb ∧
    find uf a = Some (ra, uf1) ∧ find uf1 b = Some (rb, uf2) ∧
    size uf2 !! ra = Some (card uf ra) ∧ size uf2 !! rb = Some (card uf rb) ∧
    if decide (ra = rb) then
      union uf a b = Some (false, uf2) ∧
      (∀ x, x < n → root uf2 x = root uf x)
    else
      let w := if decide (card uf ra < card uf rb) then rb else ra in
      let l := if decide (card uf ra < card uf rb) then ra else rb in
      ∃ uf3,
        union uf a b = Some (true, uf3) ∧
        parent uf3 = <[l := w]> (parent uf2) ∧
        size uf3 = <[w := card uf w + card uf l]> (size uf2) ∧
        card uf3 w = card uf w + card uf l ∧
        (∀ x, x < n →
           root uf3 x = if decide (root uf x = Some l) then Some w else root uf x).
Proof.
  intros Hok Hrun Ha Hb.
  destruct (forest_after_inv n cs Hok) as (uf' & rep & d & Hrun' & HI).
  assert (uf' = uf) as -> by congruence.
  destruct (union_spec _ _ _ _ a b HI Ha Hb) as (uf1 & uf2 & Hf1 & Hf2 & HI2 & Hsz & Hu).
  destruct (rep_root HI a Ha) as (Ran & _ & Raa & _).
  destruct (rep_root HI b Hb) as (Rbn & _ & Rbb & _).
  exists (rep a), (rep b), uf1, uf2.
  rewrite !(card_spec _ _ _ _ _ HI).
  split; [by eapply root_spec|]. split; [by eapply root_spec|].
  split; [done|]. split; [done|].
  split; [by apply HI2|]. split; [by apply HI2|].
  destruct (decide (rep a = rep b)) as [Heq|Hne].
  - split; [done|]. intros x Hx.
    by rewrite (root_spec _ _ _ _ _ HI2), (root_spec _ _ _ _ _ HI).
  - destruct Hu as [Hu HI3]. unfold winner, loser in *.
    set (w := if decide (members n rep (rep a) < members n rep (rep b))
              then rep b else rep a) in *.
    set (l := if decide (members n rep (rep a) < members n rep (rep b))
              then rep a else rep b) in *.
    assert (l ≠ w ∧ rep w = w ∧ w < n) as (Hlw & Hww & Hwn).
    { subst l w. case_decide; repeat split; congruence || done. }
    eexists. split; [exact Hu|]. rewrite !(card_spec _ _ _ _ _ HI).
    split; [done|]. split; [done|]. split.
    + rewrite (card_spec _ _ _ _ _ HI3), members_merge by done.
      by rewrite decide_True.
    + intros x Hx.
      rewrite (root_spec _ _ _ _ _ HI3), (root_spec _ _ _ _ _ HI) by done.
      unfold merge. repeat case_decide; congruence.
Qed.

Lemma union_by_size_witness :
  ∃ ra rb uf1 uf2,
    let uf := {| parent := [0; 0; 2]; size := [2; 1; 1] |} in
    root uf 2 = Some ra ∧ root uf 1 = Some rb ∧
    find uf 2 = Some (ra, uf1) ∧ find uf1 1 = Some (rb, uf2) ∧
    size uf2 !! ra = Some (card uf ra) ∧ size uf2 !! rb = Some (card uf rb) ∧
    if decide (ra = rb) then
      union uf 2 1 = Some (false, uf2) ∧
      (∀ x, x < 3 → root uf2 x = root uf x)
    else
      let w := if decide (card uf ra < card uf rb) then rb else ra in
      let l := if decide (card uf ra < card uf rb) then ra else rb in
      ∃ uf3,
        union uf 2 1 = Some (true, uf3) ∧
        parent uf3 = <[l := w]> (parent uf2) ∧
        size uf3 = <[w := card uf w + card uf l]> (size uf2) ∧
        card uf3 w = card uf w + card uf l ∧
        (∀ x, x < 3 →
           root uf3 x = if decide (root uf x = Some l) then Some w else root uf x).
Proof.
  apply (union_by_size 3 [Union 0 1] {| parent := [0; 0; 2]; size := [2; 1; 1] |} 2 1);
    [reflexivity | reflexivity | lia | lia].
Defined.

(** C8. When [find(a)] and [find(b)] agree, [union(a, b)] returns [false]
    and the forest it leaves is the one left by its two [find] calls, which
    rewrite parent links only and leave every size entry as it was. *)
Theorem union_same_set (n : nat) (cs : list call) (uf : UnionFind) (a b : nat) :
  forallb (call_ok n) cs = true →
  forest_after n cs = Some uf →
  a < n → b < n →
  fst <$> find uf a = fst <$> find uf b →
  ∃ r uf1 uf2,
    find uf a = Some (r, uf1) ∧ find uf1 b = Some (r, uf2) ∧
    union uf a b = Some (false, uf2) ∧
    size uf2 = size uf ∧
    (∀ x, x < n → root uf2 x = root uf x).
Proof.
  intros Hok Hrun Ha Hb Hsame.
  destruct (forest_after_inv n cs Hok) as (uf' & rep & d & Hrun' & HI).
  assert (uf' = uf) as -> by congruence.
  destruct (union_spec _ _ _ _ a b HI Ha Hb) as (uf1 & uf2 & Hf1 & Hf2 & HI2 & Hsz & Hu).
  destruct (find_spec _ _ _ _ b HI Hb) as (uf1' & Hfb & _).
  rewrite Hf1, Hfb in Hsame. simpl in Hsame.
  assert (rep a = rep b) as Heq by congruence.
  rewrite decide_True in Hu by done.
  exists (rep a), uf1, uf2. rewrite Heq at 2.
  split; [done|]. split; [done|]. split; [done|]. split; [done|].
  intros x Hx. by rewrite (root_spec _ _ _ _ _ HI2), (root_spec _ _ _ _ _ HI).
Qed.

Lemma union_same_set_witness :
  ∃ r uf1 uf2,
    let uf := {| parent := [0; 0; 0; 2]; size := [4; 1; 2; 1] |} in
    find uf 3 = Some (r, uf1) ∧ find uf1 1 = Some (r, uf2) ∧
    union uf 3 1 = Some (false, uf2) ∧
    size uf2 = size uf ∧
    (∀ x, x < 4 → root uf2 x = root uf x).
Proof.
  apply (union_same_set 4 [Union 0 1; Union 2 3; Union 0 2]
           {| parent := [0; 0; 0; 2]; size := [4; 1; 2; 1] |} 3 1);
    [reflexivity | reflexivity | lia | lia | reflexivity].
Defined.

(** ** The first loop of [part1] *)

Lemma below_maxConnections c n :
  below c (maxConnections n) = true ↔ c < min 1000 ((n + 1) / 2).
Proof.
  assert (c < min 1000 ((n + 1) / 2) ↔ c < 1000 ∧ 2 * c < n) as ->.
  { pose proof (Nat.div_mod_eq (n + 1) 2) as Hd.
    pose proof (Nat.mod_upper_bound (n + 1) 2) as Hm. lia. }
  unfold below, maxConnections. rewrite negb_true_iff, <- not_true_iff_false.
  rewrite Qle_bool_iff.
  assert (∀ x y : Q, ¬ (x <= y)%Q ↔ (y < x)%Q) as ->
    by (split; [apply Qnot_le_lt|apply Qlt_not_le]).
  rewrite Q.min_glb_lt_iff.
  unfold Qlt, Qdiv, Qmult, Qinv, inject_Z. simpl. lia.
Qed.

Lemma take_attempts {A} (l : list A) n :
  take (min 1000 ((n + 1) / 2)) l = take (attempts n (length l)) l.
Proof.
  unfold attempts. destruct (decide (min 1000 ((n + 1) / 2) ≤ length l)).
  - by rewrite (Nat.min_l _ (length l)) by lia.
  - rewrite (Nat.min_r _ (length l)) by lia. by rewrite !take_ge by lia.
Qed.

Lemma connect_loop_take cap bound pairs :
  (∀ c, below c bound = true ↔ c < cap) →
  ∀ uf c,
    connect_loop pairs bound uf c =
      '(uf', _) ← union_count (take (cap - c) pairs) uf;
      Some (uf', c + min (cap - c) (length pairs)).
Proof.
  intros Hb. induction pairs as [|p rest IH]; intros uf c; simpl.
  - rewrite take_nil. simpl. do 2 f_equal. lia.
  - destruct (below c bound) eqn:Hc.
    + apply Hb in Hc. replace (cap - c) with (S (cap - S c)) by lia. simpl.
      destruct (union uf (Pair.i p) (Pair.j p)) as [[merged uf']|]; simpl; [|done].
      rewrite IH. destruct (union_count _ uf') as [[uf'' m]|]; simpl; [|done].
      do 2 f_equal. lia.
    + apply not_true_iff_false in Hc. rewrite Hb in Hc.
      replace (cap - c) with 0 by lia. simpl. do 2 f_equal. lia.
Qed.

Lemma filter_merge_roots (rep : nat → nat) l w (xs : list nat) :
  NoDup xs → rep l = l → rep w = w → l ≠ w →
  length (filter (λ r, rep r = r) xs) =
    length (filter (λ r, merge rep l w r = r) xs) + (if decide (l ∈ xs) then 1 else 0).
Proof.
  intros Hnd Hl Hw Hlw. induction Hnd as [|x xs Hx Hnd IH]; [done|].
  destruct (decide (x = l)) as [->|Hxl].
  - rewrite (filter_cons_True (λ r, rep r = r)) by done.
    rewrite (filter_cons_False (λ r, merge rep l w r = r))
      by (unfold merge; rewrite decide_True by done; congruence).
    rewrite (decide_True (P := l ∈ l :: xs)) by left.
    rewrite decide_False in IH by done. simpl. lia.
  - assert ((if decide (l ∈ x :: xs) then 1 else 0) = if decide (l ∈ xs) then 1 else 0) as ->.
    { destruct (decide (l ∈ xs)) as [Hin|Hin].
      - rewrite decide_True; [done|]. by right.
      - rewrite decide_False; [done|]. rewrite elem_of_cons. intros [?|?]; congruence. }
    destruct (decide (rep x = x)) as [Heq|Hne].
    + rewrite (filter_cons_True (λ r, rep r = r)) by done.
      rewrite (filter_cons_True (λ r, merge rep l w r = r))
        by (unfold merge; rewrite decide_False by congruence; done).
      simpl. lia.
    + rewrite (filter_cons_False (λ r, rep r = r)) by done.
      rewrite (filter_cons_False (λ r, merge rep l w r = r)); [done|].
      unfold merge. intros Hm. case_decide; congruence.
Qed.

Lemma classes_merge n rep l w :
  l < n → rep l = l → rep w = w → l ≠ w →
  classes n (merge rep l w) + 1 = classes n rep.
Proof.
  intros Hl Hrl Hrw Hlw. unfold classes.
  rewrite (filter_merge_roots rep l w) by (done || apply NoDup_seq).
  rewrite decide_True; [done|]. apply elem_of_seq. lia.
Qed.

Lemma roots_spec n rep d uf :
  Inv n uf rep d → length (roots uf) = classes n rep.
Proof.
  intros HI. unfold roots, classes. rewrite (inv_len_parent _ _ _ _ HI).
  f_equal. apply filter_ext_elem. intros r Hr%elem_of_seq. split.
  - apply (link_root HI). lia.
  - apply (root_link HI). lia.
Qed.

Lemma elem_of_roots n rep d uf r :
  Inv n uf rep d → r ∈ roots uf ↔ r < n ∧ rep r = r.
Proof.
  intros HI. unfold roots. rewrite list_elem_of_filter, elem_of_seq.
  rewrite (inv_len_parent _ _ _ _ HI). split.
  - intros [Hr ?]. split; [lia|]. apply (link_root HI); [lia|done].
  - intros [? Hr]. split; [|lia]. by apply (root_link HI).
Qed.

Lemma union_step n rep d uf a b :
  Inv n uf rep d → a < n → b < n →
  ∃ merged uf' rep' d',
    union uf a b = Some (merged, uf') ∧ Inv n uf' rep' d' ∧
    classes n rep' + (if merged : bool then 1 else 0) = classes n rep ∧
    (∀ x y, rep x = rep y → rep' x = rep' y) ∧
    rep' a = rep' b.
Proof.
  intros HI Ha Hb.
  destruct (union_spec _ _ _ _ a b HI Ha Hb) as (uf1 & uf2 & _ & _ & HI2 & _ & Hu).
  destruct (rep_root HI a Ha) as (Ran & _ & Raa & _).
  destruct (rep_root HI b Hb) as (Rbn & _ & Rbb & _).
  destruct (decide (rep a = rep b)) as [Heq|Hne].
  - exists false, uf2, rep, d. split; [done|]. split; [done|].
    split; [lia|]. done.
  - destruct Hu as [Hu HI3]. unfold winner, loser in *.
    set (w := if decide (members n rep (rep a) < members n rep (rep b))
              then rep b else rep a) in *.
    set (l := if decide (members n rep (rep a) < members n rep (rep b))
              then rep a else rep b) in *.
    assert (l ≠ w ∧ rep w = w ∧ rep l = l ∧ l < n ∧
            (rep a = l ∨ rep a = w) ∧ (rep b = l ∨ rep b = w))
      as (Hlw & Hww & Hll & Hln & Hal & Hbl).
    { subst l w. case_decide; repeat split; auto. }
    eexists true, _, _, _. split; [exact Hu|]. split; [exact HI3|].
    split; [by apply classes_merge|]. split.
    + intros x y Hxy. unfold merge. by rewrite Hxy.
    + unfold merge. destruct Hal, Hbl; repeat case_decide; congruence.
Qed.

Lemma union_count_inv n pairs : ∀ uf rep d,
  Inv n uf rep d → Forall (in_range n) pairs →
  ∃ uf' m rep' d',
    union_count pairs uf = Some (uf', m) ∧ Inv n uf' rep' d' ∧
    classes n rep' + m = classes n rep ∧
    (∀ x y, rep x = rep y → rep' x = rep' y) ∧
    Forall (λ p, rep' (Pair.i p) = rep' (Pair.j p)) pairs.
Proof.
  induction pairs as [|p rest IH]; intros uf rep d HI Hr; simpl.
  - exists uf, 0, rep, d. split; [done|]. split; [done|]. split; [lia|]. done.
  - apply Forall_cons in Hr as [[Hi Hj] Hr].
    destruct (union_step _ _ _ _ _ _ HI Hi Hj)
      as (merged & uf1 & rep1 & d1 & -> & HI1 & Hc1 & Hm1 & Hp1).
    simpl. destruct (IH _ _ _ HI1 Hr) as (uf2 & m & rep2 & d2 & -> & HI2 & Hc2 & Hm2 & Hp2).
    simpl. eexists _, _, rep2, d2. split; [done|]. split; [done|].
    split; [destruct merged; lia|]. split; [auto|].
    constructor; auto.
Qed.

Lemma part1_forest_spec (boxes : list Box) :
  let n := length boxes in
  let pairs := createSortedPairs boxes in
  let k := attempts n (length pairs) in
  ∃ uf m rep d,
    union_count (take k pairs) (UnionFind_new n) = Some (uf, m) ∧
    part1_forest boxes = Some (uf, k) ∧
    Inv n uf rep d.
Proof.
  intros n pairs k. unfold part1_forest. fold n pairs.
  rewrite (connect_loop_take _ _ _ (λ c, below_maxConnections c n)).
  rewrite Nat.sub_0_r, take_attempts. fold k.
  assert (Forall (in_range n) (take k pairs)) as Hr
    by apply Forall_take, createSortedPairs_in_range.
  destruct (union_count_inv n (take k pairs) _ _ _ (Inv_new n) Hr)
    as (uf & m & rep & d & Hu & HI & _).
  exists uf, m, rep, d. rewrite Hu. cbn [mbind option_bind].
  split; [done|]. split; [reflexivity|done].
Qed.



(** ** The loop of [part2] *)

Lemma bridge_loop_done boxes pairs s :
  components s ≤ 1 → bridge_loop boxes pairs s = Some s.
Proof.
  intros Hc. destruct pairs; simpl; [done|]. by rewrite decide_False by lia.
Qed.

Lemma bridge_loop_spec n boxes pairs : ∀ s rep d,
  Inv n (scan_uf s) rep d → components s = classes n rep →
  Forall (in_range n) pairs → 1 < components s →
  (∃ s' rep' d',
     bridge_loop boxes pairs s = Some s' ∧ Inv n (scan_uf s') rep' d' ∧
     components s' = classes n rep' ∧ 1 < components s' ∧
     result s' = result s ∧
     (∀ x y, rep x = rep y → rep' x = rep' y) ∧
     Forall (λ p, rep' (Pair.i p) = rep' (Pair.j p)) pairs)
  ∨ (∃ pre p post uf1 uf2 m,
       pairs = pre ++ p :: post ∧
       union_count pre (scan_uf s) = Some (uf1, m) ∧ m + 2 = components s ∧
       union uf1 (Pair.i p) (Pair.j p) = Some (true, uf2) ∧
       bridge_loop boxes pairs s =
         Some (mkScan (scan_k s + length pre + 1) uf2 1 (bridge_value boxes p))).
Proof.
  induction pairs as [|p rest IH]; intros [k uf c r] rep d HI Hc Hr Hlt; simpl in *.
  - left. exists (mkScan k uf c r), rep, d. simpl. done.
  - apply Forall_cons in Hr as [[Hi Hj] Hr].
    rewrite decide_True by done.
    destruct (union_step _ _ _ _ _ _ HI Hi Hj)
      as (merged & uf1 & rep1 & d1 & Hu & HI1 & Hc1 & Hm1 & Hp1).
    rewrite Hu. simpl. destruct merged.
    + destruct (decide (c - 1 = 1)) as [Hone|Hmore].
      * right. exists [], p, rest, uf, uf1, 0. simpl.
        split; [done|]. split; [done|]. split; [lia|]. split; [done|].
        rewrite bridge_loop_done by (simpl; lia).
        rewrite Hone. do 2 f_equal. lia.
      * destruct (IH (mkScan (S k) uf1 (c - 1) r) rep1 d1) as
          [(s' & rep' & d' & Hb & HI' & Hc' & Hlt' & Hres & Hm' & Hall)
          |(pre & q & post & ufa & ufb & m & -> & Hpre & Hm & Hq & Hb)];
          simpl in *; [done|lia|done|lia| |].
        -- left. exists s', rep', d'. split; [done|]. split; [done|].
           split; [done|]. split; [done|]. split; [done|]. split; [auto|].
           constructor; auto.
        -- right. exists (p :: pre), q, post, ufa, ufb, (S m). simpl.
           rewrite Hu. simpl. rewrite Hpre. simpl.
           split; [done|]. split; [done|]. split; [lia|]. split; [done|].
           rewrite Hb. do 2 f_equal. lia.
    + destruct (IH (mkScan (S k) uf1 c r) rep1 d1) as
        [(s' & rep' & d' & Hb & HI' & Hc' & Hlt' & Hres & Hm' & Hall)
        |(pre & q & post & ufa & ufb & m & -> & Hpre & Hm & Hq & Hb)];
        simpl in *; [done|lia|done|lia| |].
      * left. exists s', rep', d'. split; [done|]. split; [done|].
        split; [done|]. split; [done|]. split; [done|]. split; [auto|].
        constructor; auto.
      * right. exists (p :: pre), q, post, ufa, ufb, m. simpl.
        rewrite Hu. simpl. rewrite Hpre. simpl.
        split; [done|]. split; [done|]. split; [lia|]. split; [done|].
        rewrite Hb. do 2 f_equal. lia.
Qed.

Lemma filter_length_mono {A} (P Q : A → Prop) `{∀ x, Decision (P x)}
    `{∀ x, Decision (Q x)} (l : list A) :
  (∀ x, x ∈ l → P x → Q x) → length (filter P l) ≤ length (filter Q l).
Proof.
  induction l as [|x l IH]; intros HPQ; [done|].
  assert (length (filter P l) ≤ length (filter Q l)) as Hl
    by (apply IH; intros; apply HPQ; [by right|done]).
  rewrite !filter_cons. pose proof (HPQ x (list_elem_of_here _ _)).
  repeat case_decide; simpl; try lia. tauto.
Qed.

Lemma classes_id n : classes n id = n.
Proof.
  unfold classes. rewrite (filter_ext_elem _ (λ _, True)) by done.
  assert (∀ l : list nat, filter (λ _, True) l = l) as ->.
  { induction l as [|x l IH]; [done|]. by rewrite filter_cons_True, IH. }
  apply length_seq.
Qed.

Lemma classes_connected (boxes : list Box) (rep : nat → nat) :
  Forall (λ p, rep (Pair.i p) = rep (Pair.j p)) (createSortedPairs boxes) →
  classes (length boxes) rep ≤ 1.
Proof.
  intros Hall. rewrite Forall_forall in Hall.
  assert (∀ x, x < length boxes → rep x = rep 0) as Hzero.
  { intros x Hx. destruct x as [|x]; [done|]. symmetry.
    apply (Hall (pair_of boxes 0 (S x))), elem_of_createSortedPairs.
    exists 0, (S x). split; [lia|done]. }
  unfold classes.
  etrans; [apply (filter_length_mono _ (λ r, r = rep 0))|].
  - intros r Hr%elem_of_seq Hrr. rewrite <- Hrr. apply Hzero. lia.
  - rewrite filter_eq_length by apply NoDup_seq. case_decide; lia.
Qed.

Lemma part2_scan_connects (boxes : list Box) :
  2 ≤ length boxes →
  ∃ pre p post uf1 uf2,
    createSortedPairs boxes = pre ++ p :: post ∧
    union_count pre (UnionFind_new (length boxes)) = Some (uf1, length boxes - 2) ∧
    union uf1 (Pair.i p) (Pair.j p) = Some (true, uf2) ∧
    part2_scan boxes = Some (mkScan (length pre + 1) uf2 1 (bridge_value boxes p)).
Proof.
  intros Hn. unfold part2_scan.
  destruct (bridge_loop_spec (length boxes) boxes (createSortedPairs boxes)
              (mkScan 0 (UnionFind_new (length boxes)) (length boxes) 0) id (λ _, 0))
    as [(s' & rep' & d' & Hb & HI' & Hc' & Hlt' & _ & _ & Hall)
       |(pre & p & post & uf1 & uf2 & m & Hsplit & Hpre & Hm & Hp & Hb)]; simpl in *.
  - apply Inv_new.
  - by rewrite classes_id.
  - apply createSortedPairs_in_range.
  - lia.
  - apply classes_connected in Hall. lia.
  - exists pre, p, post, uf1, uf2. split; [done|].
    replace (length boxes - 2) with m by lia. done.
Qed.

(** C3, for integer coordinates of magnitude at most 2^24, where the
    doubles of the program hold the exact weights and the exact product.
    With at least two points (all pairs are candidates, so the points
    always become connected) [part2] walks the sorted list and calls [union]
    on each pair; after [N - 2] successful merges the next successful merge,
    of the pair [p], brings the counter to 1.  The scan stops right after
    [p] (its index is the final value of [k]), the forest is the one that
    merge left, and the result is the product of the x-coordinates of the
    two points of [p]. *)
Theorem part2_bridging_edge (boxes : list Box) :
  exact_boxes boxes = true →
  2 ≤ length boxes →
  ∃ pre p post uf1 uf2 xi yi zi xj yj zj,
    f64_createSortedPairs boxes = pre ++ p :: post ∧
    union_count pre (UnionFind_new (length boxes)) = Some (uf1, length boxes - 2) ∧
    union uf1 (Pair.i p) (Pair.j p) = Some (true, uf2) ∧
    boxes !! Pair.i p = Some (xi, yi, zi) ∧
    boxes !! Pair.j p = Some (xj, yj, zj) ∧
    f64_part2_scan boxes = Some (mkScan (length pre + 1) uf2 1 (xi * xj)%Z) ∧
    f64_part2 boxes = Some (xi * xj)%Z ∧
    f64_part2 boxes = part2 boxes.
Proof.
  intros Hexact Hn.
  rewrite (f64_part2_exact boxes Hexact), (f64_part2_scan_exact boxes Hexact),
    (f64_createSortedPairs_exact boxes Hexact).
  destruct (part2_scan_connects boxes Hn) as (pre & p & post & uf1 & uf2 & Hs & Hpre & Hp & Hb).
  assert (in_range (length boxes) p) as [Hi Hj].
  { pose proof (createSortedPairs_in_range boxes) as Hr. rewrite Hs in Hr.
    apply Forall_app in Hr as [_ Hr]. by apply Forall_cons in Hr as [? _]. }
  destruct (lookup_lt_is_Some_2 boxes (Pair.i p) Hi) as [[[xi yi] zi] H1].
  destruct (lookup_lt_is_Some_2 boxes (Pair.j p) Hj) as [[[xj yj] zj] H2].
  exists pre, p, post, uf1, uf2, xi, yi, zi, xj, yj, zj.
  assert (bridge_value boxes p = (xi * xj)%Z) as Hv.
  { unfold bridge_value, box_at.
    by rewrite (nth_lookup_Some _ _ _ _ H1), (nth_lookup_Some _ _ _ _ H2). }
  rewrite Hv in Hb. unfold part2. rewrite Hb. done.
Qed.

Lemma part2_bridging_edge_witness :
  ∃ pre p post uf1 uf2 xi yi zi xj yj zj,
    let boxes := [(0, 0, 0); (1, 0, 0); (2, 0, 0)]%Z in
    f64_createSortedPairs boxes = pre ++ p :: post ∧
    union_count pre (UnionFind_new (length boxes)) = Some (uf1, length boxes - 2) ∧
    union uf1 (Pair.i p) (Pair.j p) = Some (true, uf2) ∧
    boxes !! Pair.i p = Some (xi, yi, zi) ∧
    boxes !! Pair.j p = Some (xj, yj, zj) ∧
    f64_part2_scan boxes = Some (mkScan (length pre + 1) uf2 1 (xi * xj)%Z) ∧
    f64_part2 boxes = Some (xi * xj)%Z ∧
    f64_part2 boxes = part2 boxes.
Proof.
  apply (part2_bridging_edge [(0, 0, 0); (1, 0, 0); (2, 0, 0)]%Z);
    [reflexivity|simpl; lia].
Defined.

(** C3, as stated for every input, fails beyond that bound: the two points
    below are merged by the only pair of the list, and the product of their
    x-coordinates is 9007199515875289, which no double holds; [part2]
    returns the double next to it. *)
Lemma part2_rounding_counterexample :
  let boxes := [(94906267, 0, 0); (94906267, 1, 0)]%Z in
  f64_createSortedPairs boxes = [Pair.mk 0 1 1] ∧
  f64_part2_scan boxes =
    Some (mkScan 1 {| parent := [0; 0]; size := [2; 1] |} 1 9007199515875288) ∧
  f64_part2 boxes = Some 9007199515875288%Z ∧
  (at0 (box_at boxes 0) * at0 (box_at boxes 1))%Z = 9007199515875289%Z ∧
  f64_part2 boxes ≠ Some (at0 (box_at boxes 0) * at0 (box_at boxes 1))%Z.
Proof.
  split; [by vm_compute|]. split; [by vm_compute|]. split; [by vm_compute|].
  split; [by vm_compute|]. by vm_compute.
Qed.

(** C7. An input that never reaches a single component (fewer than two
    points, or a scan whose counter does not end at 1) makes [part2] return
    the initial value 0 of [result]. *)
Theorem part2_sentinel (boxes : list Box) :
  length boxes < 2 ∨ (∀ s, part2_scan boxes = Some s → components s ≠ 1) →
  part2 boxes = Some 0%Z.
Proof.
  intros Hnever. destruct (decide (length boxes < 2)) as [Hn|Hn].
  - unfold part2, part2_scan. by rewrite bridge_loop_done by (simpl; lia).
  - destruct Hnever as [?|Hnever]; [done|].
    destruct (part2_scan_connects boxes) as (pre & p & post & uf1 & uf2 & _ & _ & _ & Hb);
      [lia|].
    by destruct (Hnever _ Hb).
Qed.

Lemma part2_sentinel_witness : part2 [(5, 6, 7)%Z] = Some 0%Z.
Proof. apply (part2_sentinel [(5, 6, 7)%Z]). left. simpl. lia. Defined.

(** ** The second loop of [part1] *)

Lemma map_get_set m k v k' :
  map_get (map_set m k v) k' = if decide (k' = k) then Some v else map_get m k'.
Proof.
  induction m as [|[k0 v0] m IH]; simpl.
  - repeat case_decide; congruence.
  - repeat (case_decide; simpl); congruence.
Qed.

Lemma map_get_keys m k : k ∈ m.*1 ↔ is_Some (map_get m k).
Proof.
  induction m as [|[k0 v0] m IH]; simpl.
  - split; [by intros ?%elem_of_nil|by intros [? ?]].
  - rewrite elem_of_cons, IH. case_decide; [|split; [intros [?|?]; [congruence|done]|auto]].
    split; [eauto|auto].
Qed.

Lemma map_set_keys m k v :
  (map_set m k v).*1 = if decide (k ∈ m.*1) then m.*1 else m.*1 ++ [k].
Proof.
  induction m as [|[k0 v0] m IH].
  - rewrite decide_False; [done|]. by intros ?%elem_of_nil.
  - cbn [map_set]. rewrite !fmap_cons. cbn [fst].
    destruct (decide (k0 = k)) as [->|Hne].
    + rewrite fmap_cons. rewrite decide_True; [done|]. by left.
    + rewrite fmap_cons, IH. cbn [fst]. destruct (decide (k ∈ m.*1)) as [Hin|Hin].
      * rewrite decide_True; [done|]. by right.
      * rewrite decide_False; [done|]. rewrite elem_of_cons. intros [?|?]; congruence.
Qed.

Lemma occurrences_not_in k l : k ∉ l → occurrences k l = 0.
Proof.
  unfold occurrences. induction l as [|x l IH]; intros Hk; [done|].
  rewrite not_elem_of_cons in Hk. destruct Hk as [Hne Hk].
  rewrite filter_cons_False by congruence. auto.
Qed.

Lemma occurrences_snoc k l r :
  occurrences k (l ++ [r]) = occurrences k l + (if decide (r = k) then 1 else 0).
Proof.
  unfold occurrences. rewrite filter_app, length_app. f_equal.
  rewrite filter_cons. by case_decide.
Qed.

Lemma tallied_step seen m r :
  tallied seen m → tallied (seen ++ [r]) (tally_step m r).
Proof.
  intros [Hnd Hget]. unfold tally_step. split.
  - rewrite map_set_keys. case_decide as Hin; [done|].
    apply NoDup_app. split; [done|]. split; [|apply NoDup_singleton].
    intros x Hx ->%list_elem_of_singleton. done.
  - intros k. rewrite map_get_set, occurrences_snoc.
    destruct (decide (k = r)) as [->|Hne].
    + rewrite decide_True by (apply elem_of_app; right; by left).
      rewrite decide_True by done. rewrite Hget. f_equal.
      case_decide; simpl; [done|]. by rewrite occurrences_not_in.
    + rewrite Hget, (decide_False (P := r = k)), Nat.add_0_r by done.
      destruct (decide (k ∈ seen)) as [Hin|Hin].
      * rewrite decide_True; [done|]. apply elem_of_app. by left.
      * rewrite decide_False; [done|]. rewrite elem_of_app.
        intros [?|?%list_elem_of_singleton]; done.
Qed.

Lemma tallied_foldl rs : ∀ seen m,
  tallied seen m → tallied (seen ++ rs) (foldl tally_step m rs).
Proof.
  induction rs as [|r rs IH]; intros seen m Hm; simpl.
  - by rewrite app_nil_r.
  - rewrite (cons_middle r seen rs), app_assoc. apply IH. by apply tallied_step.
Qed.

Lemma tallied_values seen m :
  tallied seen m → map_values m = (λ k, occurrences k seen) <$> m.*1.
Proof.
  intros [Hnd Hget]. unfold map_values.
  assert (∀ k v, (k, v) ∈ m → v = occurrences k seen) as Hval.
  { intros k v Hkv.
    assert (map_get m k = Some v) as Hk.
    { clear Hget. induction m as [|[k0 v0] m IH]; [by apply elem_of_nil in Hkv|].
      simpl in *. apply NoDup_cons in Hnd as [Hk0 Hnd].
      apply elem_of_cons in Hkv as [Heq|Hin].
      - injection Heq as -> ->. by rewrite decide_True.
      - rewrite decide_False; [auto|]. intros ->. apply Hk0.
        apply list_elem_of_fmap. by exists (k, v). }
    rewrite Hget in Hk. case_decide; congruence. }
  clear Hnd Hget. induction m as [|[k v] m IH]; [done|]. simpl. f_equal.
  - apply Hval. by left.
  - apply IH. intros k' v' Hin. apply Hval. by right.
Qed.

Lemma tallied_nil : tallied [] [].
Proof.
  split; [constructor|]. intros k. cbn [map_get].
  rewrite decide_False; [done|]. by intros ?%elem_of_nil.
Qed.

Lemma occurrences_fmap (f : nat → nat) k (l : list nat) :
  occurrences k (f <$> l) = length (filter (λ x, f x = k) l).
Proof.
  unfold occurrences. induction l as [|x l IH]; [done|].
  rewrite fmap_cons, !filter_cons. case_decide; simpl; by rewrite IH.
Qed.

Lemma size_loop_spec n rep d indices : ∀ uf m,
  Inv n uf rep d → Forall (λ i, i < n) indices →
  ∃ uf', size_loop indices uf m = Some (uf', foldl tally_step m (rep <$> indices)) ∧
         Inv n uf' rep d.
Proof.
  induction indices as [|i rest IH]; intros uf m HI Hr; simpl.
  - eauto.
  - apply Forall_cons in Hr as [Hi Hr].
    destruct (find_spec _ _ _ _ i HI Hi) as (uf1 & -> & HI1 & _). simpl.
    by apply IH.
Qed.

Lemma StronglySorted_impl {A} (R1 R2 : relation A) (l : list A) :
  (∀ x y, R1 x y → R2 x y) → StronglySorted R1 l → StronglySorted R2 l.
Proof.
  intros HR. induction 1 as [|x l Hl IH Hx]; constructor; [done|].
  eapply Forall_impl; [done|]. auto.
Qed.

Lemma descending_key a b :
  (descending a b ≤ 0 ↔ - Z.of_nat a ≤ - Z.of_nat b)%Z.
Proof. unfold descending. lia. Qed.

Lemma part1_sizes_spec (boxes : list Box) :
  ∃ uf k sizes,
    part1_forest boxes = Some (uf, k) ∧
    part1_sizes boxes = Some sizes ∧
    sizes ≡ₚ found uf <$> roots uf ∧
    StronglySorted (λ a b, b ≤ a) sizes.
Proof.
  destruct (part1_forest_spec boxes) as (uf & m & rep & d & _ & Hf & HI).
  set (n := length boxes) in *.
  destruct (size_loop_spec n rep d (seq 0 n) uf [] HI) as (uf' & Hloop & _).
  { apply Forall_seq. lia. }
  set (rs := rep <$> seq 0 n) in *.
  pose proof (tallied_foldl rs [] [] tallied_nil) as Ht. simpl in Ht.
  set (M := foldl tally_step [] rs) in *.
  exists uf, (attempts n (length (createSortedPairs boxes))),
    (js_sort descending (map_values M)).
  split; [done|]. split.
  { unfold part1_sizes, part1_run. fold n. rewrite Hf. simpl. rewrite Hloop. done. }
  split.
  - rewrite (js_sort_perm descending), (tallied_values _ _ Ht).
    assert (M.*1 ≡ₚ roots uf) as ->.
    { destruct Ht as [Hnd Hget]. apply NoDup_Permutation; [done|apply NoDup_filter, NoDup_seq|].
      intros r. rewrite map_get_keys, Hget, (elem_of_roots _ _ _ _ _ HI).
      unfold rs. split.
      - case_decide as Hin; [|by intros [? ?]]. intros _.
        apply list_elem_of_fmap in Hin as (x & -> & Hx%elem_of_seq).
        destruct (rep_root HI x) as (? & _ & ? & _); [lia|done].
      - intros [Hr Hrr]. rewrite decide_True; [done|].
        apply list_elem_of_fmap. exists r. split; [done|]. apply elem_of_seq. lia. }
    rewrite (list_fmap_ext _ (found uf) (roots uf)); [done|]. intros _ r _.
    unfold rs. by rewrite occurrences_fmap, (found_spec _ _ _ _ _ HI).
  - eapply StronglySorted_impl; [|apply (js_sort_sorted _ _ descending_key)].
    simpl. intros x y. lia.
Qed.


Lemma union_count_le pairs : ∀ uf uf' m,
  union_count pairs uf = Some (uf', m) → m ≤ length pairs.
Proof.
  induction pairs as [|p rest IH]; intros uf uf' m; simpl.
  - intros [= _ <-]. lia.
  - destruct (union uf (Pair.i p) (Pair.j p)) as [[merged uf1]|]; simpl; [|done].
    destruct (union_count rest uf1) as [[uf2 m2]|] eqn:Hrest; simpl; [|done].
    intros [= _ <-]. apply IH in Hrest. destruct merged; lia.
Qed.





(** ** Invocations *)










(** An invocation that got the address of its forest wrong would read what
    an earlier invocation left: on the heap that [part2] leaves for three
    points, [union] at address 0 finds the points merged already. *)
Example heap_call_reads_heap :
  let parse := λ line, (Z.of_nat (String.length line), 0, 0)%Z in
  let h := [{| parent := [0; 0; 0]; size := [3; 1; 1] |}] in
  part2_call parse [""; "a"; "aa"]%string [] = Some (2%Z, h) ∧
  heap_call (λ uf, union uf 0 1) 0 h = Some (false, h) ∧
  heap_call (λ uf, union uf 0 1) 0 [UnionFind_new 3] =
    Some (true, [{| parent := [0; 0; 2]; size := [2; 1; 1] |}]).
Proof. vm_compute. done. Qed.

(** ** The scenarios of the specification, evaluated *)

Example scenario1_part1 :
  part1 [(0, 0, 0); (1, 0, 0); (10, 10, 10); (11, 10, 10)]%Z = Some NaN.
Proof. reflexivity. Qed.

Example scenario2_pairs :
  createSortedPairs [(0, 0, 0); (1, 0, 0); (2, 0, 0)]%Z =
    [Pair.mk 0 1 1; Pair.mk 1 2 1; Pair.mk 0 2 4].
Proof. reflexivity. Qed.

Example scenario2_part2 :
  part2_scan [(0, 0, 0); (1, 0, 0); (2, 0, 0)]%Z =
    Some (mkScan 2 {| parent := [0; 0; 0]; size := [3; 1; 1] |} 1 2).
Proof. reflexivity. Qed.

Example budget_counts_failed_unions :
  let boxes := [(0, 0, 0); (1, 0, 0); (2, 0, 0); (10, 0, 0); (11, 0, 0);
                (100, 0, 0); (200, 0, 0); (300, 0, 0)]%Z in
  Pair.i <$> take 4 (createSortedPairs boxes) = [0; 1; 3; 0] ∧
  Pair.j <$> take 4 (createSortedPairs boxes) = [1; 2; 4; 2] ∧
  part1_forest boxes =
    Some ({| parent := [0; 0; 0; 3; 3; 5; 6; 7]; size := [3; 1; 1; 2; 1; 1; 1; 1] |}, 4) ∧
  part1 boxes = Some (Num 6).
Proof. vm_compute. done. Qed.

(** * Further properties of the day 8 code *)

(** ** Distances *)

Lemma distanceSqrt_sym (a b : Box) : distanceSqrt a b = distanceSqrt b a.
Proof. unfold distanceSqrt. ring. Qed.

Lemma distanceSqrt_zero (a b : Box) : distanceSqrt a b = 0%Z ↔ a = b.
Proof.
  destruct a as [[x1 y1] z1], b as [[x2 y2] z2].
  unfold distanceSqrt, at0, at1, at2. simpl.
  pose proof (Z.square_nonneg (x1 - x2)) as Hx.
  pose proof (Z.square_nonneg (y1 - y2)) as Hy.
  pose proof (Z.square_nonneg (z1 - z2)) as Hz.
  split.
  - intros H.
    assert ((x1 - x2) * (x1 - x2) = 0 ∧ (y1 - y2) * (y1 - y2) = 0 ∧
            (z1 - z2) * (z1 - z2) = 0)%Z as (Hx0 & Hy0 & Hz0) by lia.
    apply Z.mul_eq_0 in Hx0, Hy0, Hz0. repeat f_equal; lia.
  - intros [= -> -> ->]. lia.
Qed.

(** X1. For two points with integer coordinates of magnitude at most 2^24
    the double [distanceSqrt] returns is the exact sum of the three squared
    differences; it is symmetric, never negative, and zero exactly for two
    points with the same coordinates. *)
Theorem distanceSqrt_metric (a b : Box) :
  exact_box a = true → exact_box b = true →
  f64_distanceSqrt a b = distanceSqrt a b ∧
  f64_distanceSqrt a b = f64_distanceSqrt b a ∧
  (0 ≤ f64_distanceSqrt a b)%Z ∧
  (f64_distanceSqrt a b = 0%Z ↔ a = b).
Proof.
  intros Ha Hb.
  rewrite (f64_distanceSqrt_exact b a Hb Ha), (f64_distanceSqrt_exact a b Ha Hb).
  split; [done|]. split; [apply distanceSqrt_sym|].
  split; [by apply distanceSqrt_bound|apply distanceSqrt_zero].
Qed.

Lemma distanceSqrt_metric_witness :
  let a := (3, 4, 0)%Z in
  let b := (0, 0, 12)%Z in
  f64_distanceSqrt a b = distanceSqrt a b ∧
  f64_distanceSqrt a b = f64_distanceSqrt b a ∧
  (0 ≤ f64_distanceSqrt a b)%Z ∧
  (f64_distanceSqrt a b = 0%Z ↔ a = b).
Proof.
  apply (distanceSqrt_metric (3, 4, 0)%Z (0, 0, 12)%Z); reflexivity.
Defined.

(** X2. For two or more points with integer coordinates of magnitude at
    most 2^24 the first pair of the candidate list is a closest pair: its
    weight is the squared distance of its two points, and no two points
    are nearer to each other. *)
Theorem createSortedPairs_closest_first (boxes : list Box) :
  exact_boxes boxes = true →
  2 ≤ length boxes →
  ∃ p rest,
    f64_createSortedPairs boxes = p :: rest ∧
    Pair.i p < Pair.j p < length boxes ∧
    Pair.d p = distanceSqrt (box_at boxes (Pair.i p)) (box_at boxes (Pair.j p)) ∧
    ∀ i j, i < length boxes → j < length boxes → i ≠ j →
      (Pair.d p ≤ distanceSqrt (box_at boxes i) (box_at boxes j))%Z.
Proof.
  intros Hexact Hn. rewrite (f64_createSortedPairs_exact boxes Hexact).
  pose proof (js_sort_sorted _ _ by_distance_key (enum_pairs boxes)) as Hs.
  fold (createSortedPairs boxes) in Hs.
  assert (∀ i j, i < j < length boxes →
            pair_of boxes i j ∈ createSortedPairs boxes) as Hin.
  { intros i j Hij. apply elem_of_createSortedPairs. eauto. }
  destruct (createSortedPairs boxes) as [|p rest] eqn:Hps.
  { specialize (Hin 0 1 ltac:(lia)). by apply elem_of_nil in Hin. }
  exists p, rest. split; [done|].
  assert (p ∈ createSortedPairs boxes) as Hp by (rewrite Hps; left).
  apply elem_of_createSortedPairs in Hp as (i0 & j0 & Hij0 & ->). simpl.
  split; [done|]. split; [done|].
  apply StronglySorted_cons in Hs as [Hall _]. rewrite Forall_forall in Hall.
  assert (∀ i j, i < j < length boxes →
            (distanceSqrt (box_at boxes i0) (box_at boxes j0)
               ≤ distanceSqrt (box_at boxes i) (box_at boxes j))%Z) as Hlt.
  { intros i j Hij. specialize (Hin i j Hij).
    apply elem_of_cons in Hin as [Heq|Hin].
    - injection Heq as -> ->. lia.
    - apply (Hall _ Hin). }
  intros i j Hi Hj Hne. destruct (decide (i < j)).
  - apply Hlt. lia.
  - rewrite (distanceSqrt_sym (box_at boxes i) (box_at boxes j)).
    apply Hlt. lia.
Qed.

Lemma createSortedPairs_closest_first_witness :
  ∃ p rest,
    let boxes := [(0, 0, 0); (5, 0, 0); (6, 0, 0)]%Z in
    f64_createSortedPairs boxes = p :: rest ∧
    Pair.i p < Pair.j p < length boxes ∧
    Pair.d p = distanceSqrt (box_at boxes (Pair.i p)) (box_at boxes (Pair.j p)) ∧
    ∀ i j, i < length boxes → j < length boxes → i ≠ j →
      (Pair.d p ≤ distanceSqrt (box_at boxes i) (box_at boxes j))%Z.
Proof.
  apply (createSortedPairs_closest_first [(0, 0, 0); (5, 0, 0); (6, 0, 0)]%Z);
    [reflexivity|simpl; lia].
Defined.

(** ** Path compression *)

Lemma reaches_inv_step links x p y :
  links !! x = Some p → reaches links x y → y = x ∨ reaches links p y.
Proof.
  intros Hp Hr. inversion Hr as [|? p' ? Hp' Hr']; subst; [by left|].
  right. by assert (p' = p) as -> by congruence.
Qed.

Lemma find_fuel_path n rep d fuel : ∀ uf x,
  Inv n uf rep d → x < n → d x < fuel →
  ∃ uf', find_fuel fuel uf x = Some (rep x, uf') ∧
         length (parent uf') = length (parent uf) ∧
         (∀ y, reaches (parent uf) x y → parent uf' !! y = Some (rep x)) ∧
         (∀ y, ¬ reaches (parent uf) x y → parent uf' !! y = parent uf !! y).
Proof.
  induction fuel as [|fuel IH]; intros uf x HI Hx Hd; [lia|].
  destruct (inv_link _ _ _ _ HI x Hx) as (p & Hp & Hpn & Hrep & Hself & Hdown).
  simpl. rewrite Hp. simpl. destruct (decide (p ≠ x)) as [Hne|Heq].
  - destruct (IH uf p HI Hpn) as (uf1 & Hf & Hlen & Hon & Hoff);
      [specialize (Hdown Hne); lia|].
    rewrite Hf. simpl.
    assert (x < length (parent uf1)) as Hx1
      by (rewrite Hlen, (inv_len_parent _ _ _ _ HI); done).
    rewrite list_lookup_insert_eq by done. simpl. rewrite Hrep.
    eexists. split; [done|]. simpl. split; [by rewrite length_insert|]. split.
    + intros y Hy. destruct (decide (y = x)) as [->|Hyx].
      * by rewrite list_lookup_insert_eq.
      * rewrite list_lookup_insert_ne by done.
        apply (reaches_inv_step _ _ _ _ Hp) in Hy as [?|Hy]; [done|].
        rewrite <- Hrep. by apply Hon.
    + intros y Hy. assert (y ≠ x) as Hyx by (intros ->; apply Hy; constructor).
      rewrite list_lookup_insert_ne by done. apply Hoff.
      intros Hpy. apply Hy. by econstructor.
  - assert (p = x) as -> by (destruct (decide (p = x)); [done|contradiction]).
    rewrite (Hself eq_refl). exists uf. split; [done|]. split; [done|]. split; [|done].
    intros y Hy. by rewrite (root_reaches_self _ _ _ Hp Hy).
Qed.

(** X3. On a forest built by the constructor and any calls, [find(x)]
    returns the root that the parent links lead to from [x]; afterwards
    every index on that path, [x] included, has the root as its parent,
    every other parent link and every size entry is as before, and no index
    has changed its root. *)
Theorem find_compresses (n : nat) (cs : list call) (uf : UnionFind) (x : nat) :
  forallb (call_ok n) cs = true →
  forest_after n cs = Some uf →
  x < n →
  ∃ r uf',
    find uf x = Some (r, uf') ∧
    is_root uf r ∧ reaches (parent uf) x r ∧
    (∀ y, reaches (parent uf) x y → parent uf' !! y = Some r) ∧
    (∀ y, ¬ reaches (parent uf) x y → parent uf' !! y = parent uf !! y) ∧
    size uf' = size uf ∧
    roots uf' = roots uf ∧
    (∀ y, y < n → root uf' y = root uf y).
Proof.
  intros Hok Hrun Hx.
  destruct (forest_after_inv n cs Hok) as (uf0 & rep & d & Hrun' & HI).
  assert (uf0 = uf) as -> by congruence.
  destruct (find_spec _ _ _ _ x HI Hx) as (uf' & Hf & HI' & Hsz).
  destruct (find_fuel_path n rep d (length (parent uf)) uf x HI Hx)
    as (uf1 & Hf1 & _ & Hon & Hoff).
  { rewrite (inv_len_parent _ _ _ _ HI). by eapply depth_lt. }
  assert (uf1 = uf') as -> by (unfold find in Hf; congruence).
  destruct (rep_root HI x Hx) as (Hrn & Hrr & _ & _).
  exists (rep x), uf'. split; [done|]. split; [done|].
  split; [by eapply reaches_rep|]. split; [done|]. split; [done|]. split; [done|].
  split.
  - unfold roots. rewrite (inv_len_parent _ _ _ _ HI), (inv_len_parent _ _ _ _ HI').
    apply filter_ext_elem. intros r Hr%elem_of_seq. split.
    + intros Hroot. apply (root_link HI); [lia|]. apply (link_root HI'); [lia|done].
    + intros Hroot. apply (root_link HI'); [lia|]. apply (link_root HI); [lia|done].
  - intros y Hy. by rewrite (root_spec _ _ _ _ _ HI'), (root_spec _ _ _ _ _ HI).
Qed.

Lemma find_compresses_witness :
  ∃ r uf',
    let uf := {| parent := [0; 0; 0; 2; 0; 4; 4; 6];
                 size := [8; 1; 2; 1; 4; 1; 2; 1] |} in
    find uf 7 = Some (r, uf') ∧
    is_root uf r ∧ reaches (parent uf) 7 r ∧
    (∀ y, reaches (parent uf) 7 y → parent uf' !! y = Some r) ∧
    (∀ y, ¬ reaches (parent uf) 7 y → parent uf' !! y = parent uf !! y) ∧
    size uf' = size uf ∧
    roots uf' = roots uf ∧
    (∀ y, y < 8 → root uf' y = root uf y).
Proof.
  apply (find_compresses 8
           [Union 0 1; Union 2 3; Union 0 2; Union 4 5; Union 6 7; Union 4 6; Union 0 4]
           {| parent := [0; 0; 0; 2; 0; 4; 4; 6]; size := [8; 1; 2; 1; 4; 1; 2; 1] |} 7);
    [reflexivity | reflexivity | lia].
Defined.

(** ** The partition a forest stands for *)

Lemma connected_mono E E' x y :
  (∀ e, e ∈ E → e ∈ E') → connected E x y → connected E' x y.
Proof.
  intros Hsub. induction 1.
  - apply connected_refl.
  - apply connected_edge. auto.
  - by apply connected_sym.
  - by eapply connected_trans.
Qed.

Lemma tracks_nil : tracks [] id.
Proof.
  intros x y. unfold id. split.
  - intros ->. apply connected_refl.
  - induction 1 as [|a b Hin| |]; try congruence. by apply elem_of_nil in Hin.
Qed.

Lemma tracks_add E rep rep' a b :
  tracks E rep →
  (∀ x y, rep' x = rep' y ↔
     rep x = rep y ∨ (rep x = rep a ∧ rep y = rep b) ∨ (rep x = rep b ∧ rep y = rep a)) →
  tracks (E ++ [(a, b)]) rep'.
Proof.
  intros Ht Hiff.
  assert (∀ x y, connected E x y → connected (E ++ [(a, b)]) x y) as Hmono.
  { intros x y. apply connected_mono. intros e He. apply elem_of_app. by left. }
  assert (connected (E ++ [(a, b)]) a b) as Hab.
  { apply connected_edge, elem_of_app. right. by left. }
  intros x y. split.
  - intros [Hxy|[[Hxa Hyb]|[Hxb Hya]]]%Hiff.
    + by apply Hmono, Ht.
    + apply connected_trans with a; [by apply Hmono, Ht|].
      apply connected_trans with b; [done|]. by apply Hmono, Ht.
    + apply connected_trans with b; [by apply Hmono, Ht|].
      apply connected_trans with a; [by apply connected_sym|]. by apply Hmono, Ht.
  - induction 1 as [x|u v Hin|x y _ IH|x y z _ IH1 _ IH2].
    + done.
    + apply elem_of_app in Hin as [Hin|Hin%list_elem_of_singleton].
      * apply Hiff. left. by apply Ht, connected_edge.
      * injection Hin as -> ->. apply Hiff. right. by left.
    + done.
    + congruence.
Qed.

Lemma merge_eq_iff rep l w a b :
  l ≠ w → rep w = w → rep l = l →
  (rep a = l ∧ rep b = w) ∨ (rep a = w ∧ rep b = l) →
  ∀ x y, merge rep l w x = merge rep l w y ↔
    rep x = rep y ∨ (rep x = rep a ∧ rep y = rep b) ∨ (rep x = rep b ∧ rep y = rep a).
Proof.
  intros Hlw Hw Hl Hab x y. unfold merge.
  destruct (decide (rep x = l)) as [Hx|Hx], (decide (rep y = l)) as [Hy|Hy].
  - split; [intros _; left; congruence|done].
  - split.
    + intros Hwy. right. destruct Hab as [[Ha Hb]|[Ha Hb]];
        [left|right]; split; congruence.
    + intros [?|[[? ?]|[? ?]]]; destruct Hab as [[Ha Hb]|[Ha Hb]]; congruence.
  - split.
    + intros Hwy. right. destruct Hab as [[Ha Hb]|[Ha Hb]];
        [right|left]; split; congruence.
    + intros [?|[[? ?]|[? ?]]]; destruct Hab as [[Ha Hb]|[Ha Hb]]; congruence.
  - split; [by left|].
    intros [?|[[? ?]|[? ?]]]; destruct Hab as [[Ha Hb]|[Ha Hb]]; congruence.
Qed.

Lemma union_step_iff n rep d uf a b :
  Inv n uf rep d → a < n → b < n →
  ∃ merged uf' rep' d',
    union uf a b = Some (merged, uf') ∧ Inv n uf' rep' d' ∧
    (merged = true ↔ rep a ≠ rep b) ∧
    classes n rep' + (if merged : bool then 1 else 0) = classes n rep ∧
    (∀ x y, rep' x = rep' y ↔
       rep x = rep y ∨ (rep x = rep a ∧ rep y = rep b) ∨ (rep x = rep b ∧ rep y = rep a)).
Proof.
  intros HI Ha Hb.
  destruct (union_spec _ _ _ _ a b HI Ha Hb) as (uf1 & uf2 & _ & _ & HI2 & _ & Hu).
  destruct (rep_root HI a Ha) as (Ran & _ & Raa & _).
  destruct (rep_root HI b Hb) as (Rbn & _ & Rbb & _).
  destruct (decide (rep a = rep b)) as [Heq|Hne].
  - exists false, uf2, rep, d. split; [done|]. split; [done|].
    split; [split; [done|by intros []]|]. split; [lia|].
    intros x y. split; [by left|]. intros [?|[[? ?]|[? ?]]]; congruence.
  - destruct Hu as [Hu HI3]. unfold winner, loser in *.
    set (w := if decide (members n rep (rep a) < members n rep (rep b))
              then rep b else rep a) in *.
    set (l := if decide (members n rep (rep a) < members n rep (rep b))
              then rep a else rep b) in *.
    assert (l ≠ w ∧ rep w = w ∧ rep l = l ∧ l < n ∧
            ((rep a = l ∧ rep b = w) ∨ (rep a = w ∧ rep b = l)))
      as (Hlw & Hww & Hll & Hln & Hab).
    { subst l w. case_decide; repeat split; auto. }
    eexists true, _, _, _. split; [exact Hu|]. split; [exact HI3|].
    split; [done|]. split; [by apply classes_merge|].
    by apply merge_eq_iff.
Qed.

Lemma do_call_tracks n rep d uf c E :
  Inv n uf rep d → tracks E rep → call_ok n c = true →
  ∃ uf' rep' d', do_call uf c = Some uf' ∧ Inv n uf' rep' d' ∧
                 tracks (E ++ call_edges [c]) rep'.
Proof.
  intros HI Ht Hok. destruct c as [x|a b]; simpl in *.
  - apply bool_decide_eq_true in Hok.
    destruct (find_spec _ _ _ _ x HI Hok) as (uf' & -> & HI' & _).
    exists uf', rep, d. by rewrite app_nil_r.
  - apply andb_true_iff in Hok as [Ha%bool_decide_eq_true Hb%bool_decide_eq_true].
    destruct (union_step_iff _ _ _ _ a b HI Ha Hb)
      as (merged & uf' & rep' & d' & -> & HI' & _ & _ & Hiff).
    exists uf', rep', d'. split; [done|]. split; [done|]. by eapply tracks_add.
Qed.

Lemma call_edges_cons c cs : call_edges (c :: cs) = call_edges [c] ++ call_edges cs.
Proof. unfold call_edges. by destruct c. Qed.

Lemma run_calls_tracks n cs : ∀ uf rep d E,
  Inv n uf rep d → tracks E rep → forallb (call_ok n) cs = true →
  ∃ uf' rep' d', run_calls cs uf = Some uf' ∧ Inv n uf' rep' d' ∧
                 tracks (E ++ call_edges cs) rep'.
Proof.
  induction cs as [|c cs IH]; intros uf rep d E HI Ht Hok.
  - exists uf, rep, d. by rewrite app_nil_r.
  - cbn [forallb] in Hok. apply andb_true_iff in Hok as [Hc Hcs].
    destruct (do_call_tracks _ _ _ _ c E HI Ht Hc) as (uf1 & rep1 & d1 & Hd & HI1 & Ht1).
    destruct (IH uf1 rep1 d1 _ HI1 Ht1 Hcs) as (uf2 & rep2 & d2 & Hr & HI2 & Ht2).
    exists uf2, rep2, d2. cbn [run_calls]. rewrite Hd. cbn [mbind option_bind].
    split; [done|]. split; [done|]. by rewrite call_edges_cons, app_assoc.
Qed.

(** X4. After [new UnionFind(n)] and any sequence of [find] and [union]
    calls on valid indices, [find] gives two indices the same result exactly
    when a chain of the [union] calls made links them: the forest stands for
    the partition those calls generate, no coarser and no finer. *)
Theorem forest_partition (n : nat) (cs : list call) :
  forallb (call_ok n) cs = true →
  ∃ uf,
    forest_after n cs = Some uf ∧
    ∀ x y, x < n → y < n →
      (fst <$> find uf x = fst <$> find uf y ↔ connected (call_edges cs) x y).
Proof.
  intros Hok.
  destruct (run_calls_tracks n cs _ _ _ [] (Inv_new n) tracks_nil Hok)
    as (uf & rep & d & Hrun & HI & Ht).
  exists uf. split; [done|]. intros x y Hx Hy.
  destruct (find_spec _ _ _ _ x HI Hx) as (? & -> & _).
  destruct (find_spec _ _ _ _ y HI Hy) as (? & -> & _). simpl.
  rewrite <- (Ht x y). split; congruence.
Qed.

Lemma forest_partition_witness :
  ∃ uf,
    forest_after 5 [Union 0 1; Find 1; Union 3 4; Union 1 0; Union 4 0] = Some uf ∧
    ∀ x y, x < 5 → y < 5 →
      (fst <$> find uf x = fst <$> find uf y
         ↔ connected (call_edges [Union 0 1; Find 1; Union 3 4; Union 1 0; Union 4 0]) x y).
Proof.
  apply (forest_partition 5 [Union 0 1; Find 1; Union 3 4; Union 1 0; Union 4 0]).
  reflexivity.
Defined.

(** ** Counting roots and sizes *)

Lemma sum_list_with_add {A} (f g : A → nat) (l : list A) :
  sum_list_with (λ x, f x + g x) l = sum_list_with f l + sum_list_with g l.
Proof. induction l as [|x l IH]; simpl; lia. Qed.

Lemma sum_list_with_ext_elem {A} (f g : A → nat) (l : list A) :
  (∀ x, x ∈ l → f x = g x) → sum_list_with f l = sum_list_with g l.
Proof.
  induction l as [|x l IH]; intros Hfg; simpl; [done|].
  rewrite (Hfg x) by left. rewrite IH; [done|]. intros y Hy. apply Hfg. by right.
Qed.

Lemma sum_list_with_zero {A} (l : list A) : sum_list_with (λ _, 0) l = 0.
Proof. induction l; simpl; lia. Qed.

Lemma sum_indicator (k : nat) (l : list nat) :
  NoDup l → k ∈ l → sum_list_with (λ r, if decide (k = r) then 1 else 0) l = 1.
Proof.
  induction 1 as [|x l Hx Hnd IH]; intros Hk; [by apply elem_of_nil in Hk|].
  simpl. apply elem_of_cons in Hk as [->|Hk].
  - rewrite decide_True by done.
    rewrite (sum_list_with_ext_elem _ (λ _, 0)).
    + by rewrite sum_list_with_zero.
    + intros y Hy. rewrite decide_False; [done|]. by intros ->.
  - rewrite decide_False by (by intros ->). by rewrite IH.
Qed.

Lemma sum_classes (rep : nat → nat) (rs xs : list nat) :
  NoDup rs → (∀ x, x ∈ xs → rep x ∈ rs) →
  sum_list_with (λ r, length (filter (λ x, rep x = r) xs)) rs = length xs.
Proof.
  intros Hnd. induction xs as [|x xs IH]; intros Hin.
  - rewrite (sum_list_with_ext_elem _ (λ _, 0)) by done. apply sum_list_with_zero.
  - rewrite (sum_list_with_ext_elem _
      (λ r, (if decide (rep x = r) then 1 else 0) + length (filter (λ y, rep y = r) xs))).
    + rewrite sum_list_with_add, sum_indicator, IH; [done| |done|].
      * intros y Hy. apply Hin. by right.
      * apply Hin. by left.
    + intros r _. rewrite filter_cons. by case_decide.
Qed.

Lemma size_total_spec n rep d uf : Inv n uf rep d → size_total uf = n.
Proof.
  intros HI. unfold size_total.
  rewrite (sum_list_with_ext_elem _ (members n rep)).
  - unfold members. rewrite sum_classes; [apply length_seq|apply NoDup_filter, NoDup_seq|].
    intros x Hx%elem_of_seq. apply (elem_of_roots _ _ _ _ _ HI).
    destruct (rep_root HI x) as (? & _ & ? & _); [lia|done].
  - intros r [Hr Hrr]%(elem_of_roots _ _ _ _ _ HI).
    by rewrite (inv_size _ _ _ _ HI r Hr Hrr).
Qed.

(** X5. Starting from [n] singleton sets, after [union] on every pair of a
    list of valid index pairs the number of roots is [n] minus the number
    of calls that returned [true], and the sizes recorded at the roots add
    up to [n]. *)
Theorem union_accounting (n : nat) (pairs : list Pair.t) :
  forallb (λ p, bool_decide (Pair.i p < n ∧ Pair.j p < n)) pairs = true →
  ∃ uf m,
    union_count pairs (UnionFind_new n) = Some (uf, m) ∧
    m ≤ length pairs ∧
    length (roots uf) + m = n ∧
    size_total uf = n.
Proof.
  intros Hok.
  assert (Forall (in_range n) pairs) as Hr.
  { apply Forall_forall. intros p Hp. rewrite forallb_forall in Hok.
    apply list_elem_of_In, Hok, bool_decide_eq_true in Hp. done. }
  destruct (union_count_inv n pairs _ _ _ (Inv_new n) Hr)
    as (uf & m & rep & d & Hu & HI & Hc & _).
  exists uf, m. split; [done|]. split; [by eapply union_count_le|].
  rewrite (roots_spec _ _ _ _ HI), (size_total_spec _ _ _ _ HI).
  rewrite classes_id in Hc. done.
Qed.

Lemma union_accounting_witness :
  ∃ uf m,
    let pairs := [Pair.mk 0 1 7; Pair.mk 2 3 7; Pair.mk 1 0 9; Pair.mk 3 1 9;
                  Pair.mk 4 4 0] in
    union_count pairs (UnionFind_new 6) = Some (uf, m) ∧
    m ≤ length pairs ∧
    length (roots uf) + m = 6 ∧
    size_total uf = 6.
Proof.
  apply (union_accounting 6
           [Pair.mk 0 1 7; Pair.mk 2 3 7; Pair.mk 1 0 9; Pair.mk 3 1 9; Pair.mk 4 4 0]).
  reflexivity.
Defined.

(** ** What [part1] computes *)

Lemma union_count_calls pairs : ∀ uf,
  fst <$> union_count pairs uf = run_calls (pair_calls pairs) uf.
Proof.
  induction pairs as [|p rest IH]; intros uf; simpl; [done|].
  destruct (union uf (Pair.i p) (Pair.j p)) as [[merged uf1]|]; simpl; [|done].
  rewrite <- IH. by destruct (union_count rest uf1) as [[uf2 m]|].
Qed.

Lemma call_edges_pair_calls pairs : call_edges (pair_calls pairs) = pair_edges pairs.
Proof.
  induction pairs as [|p rest IH]; [done|].
  change (pair_calls (p :: rest)) with (Union (Pair.i p) (Pair.j p) :: pair_calls rest).
  rewrite call_edges_cons, IH. done.
Qed.

Lemma pair_calls_ok n pairs :
  Forall (in_range n) pairs → forallb (call_ok n) (pair_calls pairs) = true.
Proof.
  induction 1 as [|p rest [Hi Hj] _ IH]; simpl; [done|].
  by rewrite !bool_decide_eq_true_2, IH.
Qed.

Lemma union_count_tracks n pairs uf m :
  Forall (in_range n) pairs →
  union_count pairs (UnionFind_new n) = Some (uf, m) →
  ∃ rep d, Inv n uf rep d ∧ tracks (pair_edges pairs) rep.
Proof.
  intros Hr Hu.
  destruct (run_calls_tracks n (pair_calls pairs) _ _ _ [] (Inv_new n) tracks_nil
              (pair_calls_ok _ _ Hr)) as (uf' & rep & d & Hrun & HI & Ht).
  rewrite <- union_count_calls, Hu in Hrun. simpl in Hrun.
  injection Hrun as <-. rewrite call_edges_pair_calls in Ht. eauto.
Qed.


Lemma sum_list_fmap_with {A} (f : A → nat) (l : list A) :
  sum_list (f <$> l) = sum_list_with f l.
Proof. induction l as [|x l IH]; simpl; [done|]. unfold id at 1. by f_equal. Qed.

Lemma found_pos n rep d uf r : Inv n uf rep d → r ∈ roots uf → 1 ≤ found uf r.
Proof.
  intros HI [Hr Hrr]%(elem_of_roots _ _ _ _ _ HI).
  rewrite (found_spec _ _ _ _ _ HI).
  pose proof (inv_depth _ _ _ _ HI r Hr) as Hd. rewrite Hrr in Hd. lia.
Qed.

Lemma part1_sizes_total (boxes : list Box) :
  ∃ uf k sizes,
    part1_forest boxes = Some (uf, k) ∧
    part1_sizes boxes = Some sizes ∧
    length sizes = length (roots uf) ∧
    length (roots uf) ≤ length boxes ∧
    sum_list sizes = length boxes ∧
    Forall (λ s, 1 ≤ s) sizes ∧
    StronglySorted (λ a b, b ≤ a) sizes.
Proof.
  destruct (part1_sizes_spec boxes) as (uf & k & sizes & Hf & Hs & Hperm & Hsorted).
  destruct (part1_forest_spec boxes) as (uf' & _ & rep & d & _ & Hf' & HI).
  assert (uf' = uf) as -> by congruence.
  exists uf, k, sizes. split; [done|]. split; [done|].
  split; [by rewrite Hperm, length_fmap|]. split.
  { unfold roots. etrans; [apply length_filter|].
    by rewrite length_seq, (inv_len_parent _ _ _ _ HI). }
  split.
  - rewrite Hperm, sum_list_fmap_with.
    rewrite (sum_list_with_ext_elem _ (λ r, default 0 (size uf !! r))).
    + apply (size_total_spec _ _ _ _ HI).
    + intros r Hr. pose proof Hr as [Hrn Hrr]%(elem_of_roots _ _ _ _ _ HI).
      by rewrite (inv_size _ _ _ _ HI r Hrn Hrr), (found_spec _ _ _ _ _ HI).
  - split; [|done]. rewrite Hperm. apply Forall_fmap, Forall_forall.
    intros r Hr. by eapply found_pos.
Qed.




(** X9. With at most two points [part1] cannot have three components and
    returns [NaN]. *)
Theorem part1_small_nan (boxes : list Box) :
  length boxes ≤ 2 → part1 boxes = Some NaN.
Proof.
  intros Hn.
  destruct (part1_sizes_total boxes) as (uf & k & sizes & _ & Hs & Hl & Hle & _).
  unfold part1. rewrite Hs. simpl.
  assert (sizes !! 2 = None) as Hnone by (apply lookup_ge_None; lia).
  unfold product3. rewrite Hnone.
  by destruct (to_number (sizes !! 0)), (to_number (sizes !! 1)).
Qed.

Lemma part1_small_nan_witness : part1 [(1, 2, 3); (4, 5, 6)]%Z = Some NaN.
Proof. apply (part1_small_nan [(1, 2, 3); (4, 5, 6)]%Z). simpl. lia. Defined.


(** ** What [part2] computes *)

Lemma filter_all {A} (P : A → Prop) `{∀ x, Decision (P x)} (l : list A) :
  (∀ x, x ∈ l → P x) → filter P l = l.
Proof.
  induction l as [|x l IH]; intros HP; [done|].
  rewrite filter_cons_True by (apply HP; left). f_equal. apply IH.
  intros y Hy. apply HP. by right.
Qed.

Lemma classes_one n rep d uf :
  Inv n uf rep d → classes n rep = 1 →
  ∀ x y, x < n → y < n → rep x = rep y.
Proof.
  intros HI Hc. unfold classes in Hc.
  destruct (filter (λ r, rep r = r) (seq 0 n)) as [|r0 [|? ?]] eqn:Hl; try done.
  assert (∀ x, x < n → rep x = r0) as Hall.
  { intros x Hx. destruct (rep_root HI x Hx) as (Hrn & _ & Hrr & _).
    assert (rep x ∈ filter (λ r, rep r = r) (seq 0 n)) as Hin.
    { apply list_elem_of_filter. split; [done|]. apply elem_of_seq. lia. }
    rewrite Hl in Hin. by apply list_elem_of_singleton in Hin. }
  intros x y Hx Hy. by rewrite !Hall.
Qed.

(** X11. For two or more points with integer coordinates of magnitude at
    most 2^24 the pair [p] whose coordinates [part2] multiplies is the first
    pair of the candidate list at which the pairs seen so far connect all
    points: the pairs before [p] are no farther apart than [p] and do not
    link its two points, while with [p] every two points are linked.  The
    forest [part2] is left with has a single root, whose recorded size is
    the number of points. *)
Theorem part2_first_connecting_pair (boxes : list Box) :
  exact_boxes boxes = true →
  2 ≤ length boxes →
  ∃ s pre p post r,
    f64_part2_scan boxes = Some s ∧
    f64_createSortedPairs boxes = pre ++ p :: post ∧
    scan_k s = length pre + 1 ∧
    components s = 1 ∧
    result s = bridge_value boxes p ∧
    Forall (λ q,
      (distanceSqrt (box_at boxes (Pair.i q)) (box_at boxes (Pair.j q))
         ≤ distanceSqrt (box_at boxes (Pair.i p)) (box_at boxes (Pair.j p)))%Z) pre ∧
    ¬ connected (pair_edges pre) (Pair.i p) (Pair.j p) ∧
    (∀ x y, x < length boxes → y < length boxes →
       connected (pair_edges (pre ++ [p])) x y) ∧
    (∀ x, x < length boxes → root (scan_uf s) x = Some r) ∧
    size (scan_uf s) !! r = Some (length boxes).
Proof.
  intros Hexact Hn.
  rewrite (f64_part2_scan_exact boxes Hexact), (f64_createSortedPairs_exact boxes Hexact).
  set (n := length boxes) in *.
  destruct (part2_scan_connects boxes Hn)
    as (pre & p & post & uf1 & uf2 & Hs & Hpre & Hp & Hb).
  fold n in Hpre.
  pose proof (createSortedPairs_in_range boxes) as Hr. rewrite Hs in Hr. fold n in Hr.
  apply Forall_app in Hr as [Hrpre Hr]. apply Forall_cons in Hr as [[Hi Hj] _].
  destruct (union_count_tracks n _ _ _ Hrpre Hpre) as (rep1 & d1 & HI1 & Ht1).
  destruct (union_count_inv n pre _ _ _ (Inv_new n) Hrpre)
    as (uf1' & m' & rep1' & d1' & Hpre' & HI1' & Hc1 & _).
  rewrite Hpre in Hpre'. injection Hpre' as <- <-.
  rewrite classes_id, <- (roots_spec _ _ _ _ HI1'), (roots_spec _ _ _ _ HI1) in Hc1.
  destruct (union_step_iff _ _ _ _ _ _ HI1 Hi Hj)
    as (merged & uf2' & rep2 & d2 & Hu & HI2 & Hm & Hc2 & Hiff).
  rewrite Hp in Hu. injection Hu as <- <-.
  assert (classes n rep2 = 1) as Hone by lia.
  pose proof (tracks_add _ _ _ _ _ Ht1 Hiff) as Ht2.
  pose proof (classes_one _ _ _ _ HI2 Hone) as Hall.
  destruct (rep_root HI2 0) as (Hr0 & _ & Hrr0 & _); [lia|].
  exists (mkScan (length pre + 1) uf2 1 (bridge_value boxes p)), pre, p, post, (rep2 0).
  simpl. split; [done|]. split; [done|]. split; [done|]. split; [done|]. split; [done|].
  split.
  { pose proof (js_sort_sorted _ _ by_distance_key (enum_pairs boxes)) as Hso.
    fold (createSortedPairs boxes) in Hso. rewrite Hs in Hso.
    apply StronglySorted_app in Hso as (Hle & _ & _).
    assert (∀ q, q ∈ createSortedPairs boxes →
              Pair.d q = distanceSqrt (box_at boxes (Pair.i q)) (box_at boxes (Pair.j q)))
      as Hd.
    { by intros q (i & j & _ & ->)%elem_of_createSortedPairs. }
    apply Forall_forall. intros q Hq.
    assert (q ∈ createSortedPairs boxes) as Hq'
      by (rewrite Hs; apply elem_of_app; by left).
    assert (p ∈ createSortedPairs boxes) as Hp'
      by (rewrite Hs; apply elem_of_app; right; left).
    rewrite <- (Hd q Hq'), <- (Hd p Hp').
    apply Hle; [done|left]. }
  split.
  { intros Hconn. apply Ht1 in Hconn. by apply Hm. }
  split.
  { intros x y Hx Hy. unfold pair_edges. rewrite fmap_app. apply Ht2. by apply Hall. }
  split.
  { intros x Hx. rewrite (root_spec _ _ _ _ _ HI2) by done. f_equal. apply Hall; lia. }
  rewrite (inv_size _ _ _ _ HI2) by done. f_equal. unfold members.
  rewrite filter_all; [apply length_seq|].
  intros x Hx%elem_of_seq. apply Hall; lia.
Qed.

Lemma part2_first_connecting_pair_witness :
  ∃ s pre p post r,
    let boxes := [(0, 0, 0); (1, 0, 0); (9, 0, 0); (10, 0, 0); (3, 0, 0)]%Z in
    f64_part2_scan boxes = Some s ∧
    f64_createSortedPairs boxes = pre ++ p :: post ∧
    scan_k s = length pre + 1 ∧
    components s = 1 ∧
    result s = bridge_value boxes p ∧
    Forall (λ q,
      (distanceSqrt (box_at boxes (Pair.i q)) (box_at boxes (Pair.j q))
         ≤ distanceSqrt (box_at boxes (Pair.i p)) (box_at boxes (Pair.j p)))%Z) pre ∧
    ¬ connected (pair_edges pre) (Pair.i p) (Pair.j p) ∧
    (∀ x y, x < length boxes → y < length boxes →
       connected (pair_edges (pre ++ [p])) x y) ∧
    (∀ x, x < length boxes → root (scan_uf s) x = Some r) ∧
    size (scan_uf s) !! r = Some (length boxes).
Proof.
  apply (part2_first_connecting_pair
           [(0, 0, 0); (1, 0, 0); (9, 0, 0); (10, 0, 0); (3, 0, 0)]%Z);
    [reflexivity|simpl; lia].
Defined.

(** ** The visualization *)

Lemma string_length_app (s1 s2 : string) :
  String.length (s1 +:+ s2) = String.length s1 + String.length s2.
Proof. induction s1 as [|a s1 IH]; simpl; [done|]. by rewrite IH. Qed.

Lemma string_app_inj_r (s1 s2 t : string) : s1 +:+ t = s2 +:+ t → s1 = s2.
Proof.
  revert s2. induction s1 as [|a s1 IH]; intros [|b s2] Heq; simpl in *.
  - done.
  - apply (f_equal String.length) in Heq.
    rewrite !string_length_app in Heq. simpl in Heq. lia.
  - apply (f_equal String.length) in Heq.
    rewrite !string_length_app in Heq. simpl in Heq. lia.
  - injection Heq as -> Heq. f_equal. by apply IH.
Qed.

Lemma hue_inj a b :
  (a * 137) `mod` 360 = (b * 137) `mod` 360 → a `mod` 360 = b `mod` 360.
Proof.
  intros Heq.
  assert (∀ c, ((c * 137) `mod` 360 * 113) `mod` 360 = c `mod` 360) as Hinv.
  { intros c. rewrite Nat.Div0.mul_mod_idemp_l.
    replace (c * 137 * 113) with (c + (43 * c) * 360) by lia.
    apply Nat.Div0.mod_add. }
  by rewrite <- (Hinv a), <- (Hinv b), Heq.
Qed.

(** X12. [colorForComponent] gives two components the same colour exactly
    when their numbers differ by a multiple of 360: the multiplier 137
    spreads any 360 consecutive component numbers over 360 different hues. *)
Theorem colorForComponent_distinct (a b : nat) :
  colorForComponent a = colorForComponent b ↔ a `mod` 360 = b `mod` 360.
Proof.
  unfold colorForComponent. cbv zeta. split.
  - set (ha := (a * 137) `mod` 360). set (hb := (b * 137) `mod` 360).
    intros Heq. apply (f_equal Color.bg) in Heq. cbn [Color.bg] in Heq.
    apply (inj (String.app "hsl(")) in Heq.
    apply string_app_inj_r in Heq. apply (inj pretty) in Heq. by apply hue_inj.
  - intros Heq.
    assert ((a * 137) `mod` 360 = (b * 137) `mod` 360) as ->; [|done].
    by rewrite <- (Nat.Div0.mul_mod_idemp_l a), Heq, Nat.Div0.mul_mod_idemp_l.
Qed.

Section VisualizationProofs.
Context `{Rendering}.





End VisualizationProofs.



Section VisualizationFrames.
Context `{Rendering}.
Variable boxes : list Box.
Hypothesis positions2D_length : length (projectTo2D boxes) = length boxes.
Hypothesis positions3D_length : length (normalize3DCoords boxes) = length boxes.





End VisualizationFrames.




Example buildVisualization_three_points :
  (λ data, (λ f, (GraphNode.component <$> GraphFrame.nodes f,
                  (λ e, (GraphEdge.source e, GraphEdge.target e)) <$> GraphFrame.edges f,
                  GraphFrame.highlightEdge f))
             <$> GraphVisualizationData.frames data)
    <$> @buildVisualization origin_rendering [(0, 0, 0); (1, 0, 0); (2, 0, 0)]%Z =
  Some [([0; 1; 2], [], None);
        ([0; 0; 2], [(0, 1)], Some (0, 1));
        ([0; 0; 0], [(0, 1); (1, 2)], Some (1, 2));
        ([0; 0; 0], [(0, 1); (1, 2)], None)].
Proof. vm_compute. reflexivity. Qed.

(** * Day 5 *)

Section Day05Merge.
Import Day05.












End Day05Merge.

Section Day05Results.
Import Day05.






End Day05Results.





Example day05_example :
  Day05.count_fresh
    [Day05.mkRange 3 5; Day05.mkRange 10 14; Day05.mkRange 16 20; Day05.mkRange 12 18]
    [1; 5; 8; 11; 17; 32]%Z = 3 ∧
  Day05.merged_total
    [Day05.mkRange 3 5; Day05.mkRange 10 14; Day05.mkRange 16 20; Day05.mkRange 12 18]
    = 14%Z.
Proof. vm_compute. done. Qed.

Lemma js_findIndex_from_found {A} (f : A → bool) before sep after : ∀ i,
  forallb (λ x, negb (f x)) before = true → f sep = true →
  js_findIndex_from f (before ++ sep :: after) i = (i + Z.of_nat (length before))%Z.
Proof.
  induction before as [|x before IH]; intros i Hb Hs; simpl in *.
  - rewrite Hs. lia.
  - apply andb_true_iff in Hb as [Hx Hb]. apply negb_true_iff in Hx.
    rewrite Hx, IH by done. lia.
Qed.

Lemma js_findIndex_from_none {A} (f : A → bool) l : ∀ i,
  forallb (λ x, negb (f x)) l = true → js_findIndex_from f l i = (-1)%Z.
Proof.
  induction l as [|x l IH]; intros i Hl; simpl in *; [done|].
  apply andb_true_iff in Hl as [Hx Hl]. apply negb_true_iff in Hx.
  by rewrite Hx, IH.
Qed.

Lemma js_slice_prefix {A} (l : list A) (k : nat) :
  k ≤ length l → js_slice l 0 (Some (Z.of_nat k)) = take k l.
Proof.
  intros Hk. unfold js_slice, slice_index. cbn [default]. unfold id.
  repeat case_decide; try lia.
  replace (Z.to_nat (Z.min 0 (Z.of_nat (length l)))) with 0 by lia.
  rewrite drop_0. f_equal. lia.
Qed.

Lemma js_slice_suffix {A} (l : list A) (k : nat) :
  k ≤ length l → js_slice l (Z.of_nat k) None = drop k l.
Proof.
  intros Hk. unfold js_slice, slice_index. cbn [default]. unfold id.
  repeat case_decide; try lia.
  replace (Z.to_nat (Z.min (Z.of_nat k) (Z.of_nat (length l)))) with k by lia.
  apply take_ge. rewrite length_drop. lia.
Qed.

Lemma js_slice_but_last {A} (l : list A) :
  js_slice l 0 (Some (-1)%Z) = take (length l - 1) l.
Proof.
  unfold js_slice, slice_index. cbn [default]. unfold id.
  repeat case_decide; try lia.
  replace (Z.to_nat (Z.min 0 (Z.of_nat (length l)))) with 0 by lia.
  rewrite drop_0. f_equal. lia.
Qed.

Section Day05Input.
Import Day05.
Context `{Parsing}.

(** X18. When the first blank line of the input of day 5 is at position
    [k], [part1] and [part2] read the [k] lines before it as ranges and
    [part1] reads every line after it as a value; the blank line itself
    and, for [part2], the values are not read. *)
Theorem day05_input_split (before : list string) (sep : string) (after : list string) :
  forallb (λ line, negb (blank line)) before = true →
  blank sep = true →
  part1 (before ++ sep :: after) =
    count_fresh (parseRange <$> before) (toNumber <$> after) ∧
  part2 (before ++ sep :: after) = merged_total (parseRange <$> before).
Proof.
  intros Hb Hs. unfold part1, part2, js_findIndex.
  rewrite js_findIndex_from_found by done. rewrite Z.add_0_l.
  rewrite js_slice_prefix by (rewrite length_app; lia).
  rewrite take_app_length.
  replace (Z.of_nat (length before) + 1)%Z with (Z.of_nat (S (length before))) by lia.
  rewrite js_slice_suffix by (rewrite length_app; simpl; lia).
  rewrite (cons_middle sep before after), app_assoc.
  replace (S (length before)) with (length (before ++ [sep]))
    by (rewrite length_app; simpl; lia).
  by rewrite drop_app_length.
Qed.

(** X19. When no line of the input of day 5 is blank, [findIndex] returns
    -1 and the two slices no longer separate ranges from values:
    [slice(0, -1)] selects all lines but the last as range lines, and
    [slice(0)] selects every line, range lines included, as a value line. *)
Theorem day05_no_blank_line (lines : list string) :
  forallb (λ line, negb (blank line)) lines = true →
  emptyLineIndex lines = (-1)%Z ∧
  rangeLines lines = take (length lines - 1) lines ∧
  valueLines lines = lines.
Proof.
  intros Hb.
  assert (emptyLineIndex lines = (-1)%Z) as Hi
    by (by apply js_findIndex_from_none).
  unfold rangeLines, valueLines. rewrite Hi. split; [done|]. split.
  - apply js_slice_but_last.
  - change (-1 + 1)%Z with (Z.of_nat 0). rewrite js_slice_suffix by lia.
    apply drop_0.
Qed.

End Day05Input.

Lemma day05_input_split_witness :
  @Day05.part1 length_parsing (["abc"%string; "de"%string] ++ ""%string :: ["de"%string; "f"%string; "ghij"%string]) =
    Day05.count_fresh (@Day05.parseRange length_parsing <$> ["abc"; "de"]%string)
      (@Day05.toNumber length_parsing <$> ["de"; "f"; "ghij"]%string) ∧
  @Day05.part2 length_parsing (["abc"%string; "de"%string] ++ ""%string :: ["de"%string; "f"%string; "ghij"%string]) =
    Day05.merged_total (@Day05.parseRange length_parsing <$> ["abc"; "de"]%string).
Proof.
  apply (@day05_input_split length_parsing ["abc"; "de"]%string ""%string
           ["de"; "f"; "ghij"]%string); reflexivity.
Defined.

Lemma day05_no_blank_line_witness :
  let lines := ["3-5"; "4"; "7"]%string in
  @Day05.emptyLineIndex length_parsing lines = (-1)%Z ∧
  @Day05.rangeLines length_parsing lines = take (length lines - 1) lines ∧
  @Day05.valueLines length_parsing lines = lines.
Proof.
  apply (@day05_no_blank_line length_parsing ["3-5"; "4"; "7"]%string). reflexivity.
Defined.

(** ** Day 9 *)


Section FoldLargest.
Context {P : Type} (step : Z → P → Z) (f : P → Z) (ok : P → Prop).
Hypothesis step_keep_or_take : ∀ m p, step m p = m ∨ (ok p ∧ step m p = f p).
Hypothesis step_ge : ∀ m p, (m ≤ step m p)%Z.
Hypothesis step_ok : ∀ m p, ok p → (f p ≤ step m p)%Z.

End FoldLargest.




(** *** Coordinate compression *)

Lemma js_set_of_fold (values : list Z) : ∀ seen,
  NoDup seen →
  let r := foldl (λ seen v, if decide (v ∈ seen) then seen else seen ++ [v]) seen values in
  NoDup r ∧ ∀ v, v ∈ r ↔ v ∈ seen ∨ v ∈ values.
Proof.
  induction values as [|w values IH]; intros seen Hnd; simpl.
  - split; [done|]. intros v. rewrite elem_of_nil. tauto.
  - case_decide as Hw.
    + destruct (IH seen Hnd) as [Hr Hin]. split; [done|]. intros v.
      rewrite Hin, elem_of_cons. split; [tauto|]. intros [?|[->|?]]; auto.
    + assert (NoDup (seen ++ [w])) as Hnd'.
      { apply NoDup_app. split; [done|]. split; [|apply NoDup_singleton].
        intros v Hv ->%list_elem_of_singleton. done. }
      destruct (IH _ Hnd') as [Hr Hin]. split; [done|]. intros v.
      rewrite Hin, elem_of_app, list_elem_of_singleton, elem_of_cons. tauto.
Qed.

Lemma js_set_of_spec (values : list Z) :
  NoDup (js_set_of values) ∧ ∀ v, v ∈ js_set_of values ↔ v ∈ values.
Proof.
  destruct (js_set_of_fold values [] (NoDup_nil_2)) as [Hnd Hin].
  split; [done|]. intros v. unfold js_set_of. rewrite Hin, elem_of_nil. tauto.
Qed.

Lemma StronglySorted_le_lt (l : list Z) :
  StronglySorted Z.le l → NoDup l → StronglySorted Z.lt l.
Proof.
  induction 1 as [|a l Hl IH Ha]; intros Hnd; [constructor|].
  apply NoDup_cons in Hnd as [Hnotin Hnd]. constructor; [by apply IH|].
  rewrite Forall_forall in Ha |- *. intros b Hb.
  assert (a ≠ b) by (intros ->; done). specialize (Ha b Hb). lia.
Qed.

Lemma unique_sorted_spec (values : list Z) :
  StronglySorted Z.lt (Day09.unique_sorted values) ∧
  ∀ v, v ∈ Day09.unique_sorted values ↔ v ∈ values.
Proof.
  destruct (js_set_of_spec values) as [Hnd Hin]. unfold Day09.unique_sorted. split.
  - apply StronglySorted_le_lt.
    + apply (js_sort_sorted Day09.by_value id).
      intros a b. unfold Day09.by_value, id. lia.
    + by rewrite js_sort_perm.
  - intros v. by rewrite js_sort_perm.
Qed.

Lemma zmap_get_set {V} (m : ZMap V) k v k' :
  zmap_get (zmap_set m k v) k' = if decide (k = k') then Some v else zmap_get m k'.
Proof.
  induction m as [|[k0 v0] m IH]; simpl.
  - done.
  - destruct (decide (k0 = k)) as [->|Hk0]; simpl.
    + by destruct (decide (k = k')).
    + rewrite IH. destruct (decide (k0 = k')) as [->|]; [|done].
      by rewrite decide_False.
Qed.

Lemma index_map_snoc u w :
  Day09.index_map (u ++ [w]) = zmap_set (Day09.index_map u) w (length u).
Proof.
  unfold Day09.index_map. rewrite length_app. simpl.
  rewrite Nat.add_1_r, seq_S. simpl.
  rewrite zip_with_app by by rewrite length_seq.
  by rewrite foldl_app.
Qed.

Lemma index_map_lookup u : NoDup u →
  ∀ v i, zmap_get (Day09.index_map u) v = Some i ↔ u !! i = Some v.
Proof.
  induction u as [|w u IH] using rev_ind; intros Hnd v i.
  - simpl. by rewrite lookup_nil.
  - apply NoDup_app in Hnd as (Hnd & Hw & _).
    rewrite index_map_snoc, zmap_get_set. case_decide as Hv.
    + subst v. split.
      * intros [= <-]. by apply list_lookup_middle.
      * intros Hi. destruct (decide (i < length u)) as [Hlt|Hge].
        -- rewrite lookup_app_l in Hi by done.
           apply list_elem_of_lookup_2 in Hi. destruct (Hw w Hi). by left.
        -- apply lookup_lt_Some in Hi. rewrite length_app in Hi. simpl in Hi.
           f_equal. lia.
    + rewrite (IH Hnd). split.
      * intros Hi. by apply lookup_app_l_Some.
      * intros Hi. destruct (decide (i < length u)) as [Hlt|Hge].
        -- by rewrite lookup_app_l in Hi.
        -- rewrite lookup_app_r in Hi by lia.
           apply list_lookup_singleton_Some in Hi as [_ ?]. done.
Qed.

Lemma index_of_unique (values : list Z) (v : Z) :
  v ∈ values →
  ∃ i, zmap_get (Day09.index_map (Day09.unique_sorted values)) v = Some i ∧
       Day09.unique_sorted values !! i = Some v.
Proof.
  intros Hv. destruct (unique_sorted_spec values) as [Hs Hin].
  apply Hin, list_elem_of_lookup in Hv as [i Hi]. exists i. split; [|done].
  apply index_map_lookup; [|done].
  apply (StronglySorted_NoDup Z.lt); [|done]. intros z. lia.
Qed.

Lemma sorted_index_order (u : list Z) a b va vb :
  StronglySorted Z.lt u → u !! a = Some va → u !! b = Some vb →
  a ≤ b ↔ (va ≤ vb)%Z.
Proof.
  intros Hs Ha Hb. split.
  - intros Hab. destruct (decide (a = b)) as [->|Hne].
    + rewrite Ha in Hb. injection Hb as ->. lia.
    + pose proof (StronglySorted_lookup Z.lt u a b va vb Hs Ha Hb ltac:(lia)). lia.
  - intros Hv. destruct (decide (a ≤ b)) as [|Hgt]; [done|].
    pose proof (StronglySorted_lookup Z.lt u b a vb va Hs Hb Ha ltac:(lia)). lia.
Qed.

Lemma compress_spec (coords : list Day09.Coord) (i : nat) :
  i < length coords →
  Day09.uniqueXs coords !! Day09.cx (Day09.compressedCoords coords !!! i)
    = Some (Day09.x (coords !!! i)) ∧
  Day09.uniqueYs coords !! Day09.cy (Day09.compressedCoords coords !!! i)
    = Some (Day09.y (coords !!! i)) ∧
  Day09.origX (Day09.compressedCoords coords !!! i) = Day09.x (coords !!! i) ∧
  Day09.origY (Day09.compressedCoords coords !!! i) = Day09.y (coords !!! i).
Proof.
  intros Hi. unfold Day09.compressedCoords.
  rewrite (list_lookup_total_fmap _ coords i Hi).
  set (c := coords !!! i).
  assert (c ∈ coords) as Hc.
  { apply list_elem_of_lookup. exists i. by apply list_lookup_lookup_total_lt. }
  destruct (index_of_unique (Day09.x <$> coords) (Day09.x c)) as (a & Ha & Hla).
  { apply list_elem_of_fmap. by exists c. }
  destruct (index_of_unique (Day09.y <$> coords) (Day09.y c)) as (b & Hb & Hlb).
  { apply list_elem_of_fmap. by exists c. }
  unfold Day09.compress, Day09.uniqueXs, Day09.uniqueYs.
  cbn [Day09.cx Day09.cy Day09.origX Day09.origY]. rewrite Ha, Hb. by cbn [default from_option id].
Qed.

Lemma compress_bounds (coords : list Day09.Coord) (i : nat) :
  i < length coords →
  Day09.cx (Day09.compressedCoords coords !!! i) < length (Day09.uniqueXs coords) ∧
  Day09.cy (Day09.compressedCoords coords !!! i) < length (Day09.uniqueYs coords).
Proof.
  intros Hi. destruct (compress_spec coords i Hi) as (Hx & Hy & _).
  split; by eapply lookup_lt_Some.
Qed.

(** X21. The coordinate compression of [part2] of day 9 assigns every
    point the ranks of its coordinates among the distinct values: the
    compressed coordinates lie inside the grid, index the sorted distinct
    values at the point's own coordinates, and compare as the original
    coordinates do. *)
Theorem day09_compress_order (coords : list Day09.Coord) (i j : nat) :
  i < length coords → j < length coords →
  Day09.cx (Day09.compressedCoords coords !!! i) < length (Day09.uniqueXs coords) ∧
  Day09.cy (Day09.compressedCoords coords !!! i) < length (Day09.uniqueYs coords) ∧
  Day09.uniqueXs coords !! Day09.cx (Day09.compressedCoords coords !!! i)
    = Some (Day09.x (coords !!! i)) ∧
  Day09.uniqueYs coords !! Day09.cy (Day09.compressedCoords coords !!! i)
    = Some (Day09.y (coords !!! i)) ∧
  (Day09.cx (Day09.compressedCoords coords !!! i)
     ≤ Day09.cx (Day09.compressedCoords coords !!! j)
   ↔ (Day09.x (coords !!! i) ≤ Day09.x (coords !!! j))%Z) ∧
  (Day09.cy (Day09.compressedCoords coords !!! i)
     ≤ Day09.cy (Day09.compressedCoords coords !!! j)
   ↔ (Day09.y (coords !!! i) ≤ Day09.y (coords !!! j))%Z).
Proof.
  intros Hi Hj.
  destruct (compress_bounds coords i Hi) as [Hbx Hby].
  destruct (compress_spec coords i Hi) as (Hxi & Hyi & _).
  destruct (compress_spec coords j Hj) as (Hxj & Hyj & _).
  do 4 (split; [done|]). split.
  - eapply sorted_index_order; [|done..]. apply unique_sorted_spec.
  - eapply sorted_index_order; [|done..]. apply unique_sorted_spec.
Qed.

Lemma day09_compress_order_witness :
  let coords := [Day09.mkCoord 7 1; Day09.mkCoord 11 1; Day09.mkCoord 11 7;
                 Day09.mkCoord 9 7; Day09.mkCoord 9 5; Day09.mkCoord 2 5;
                 Day09.mkCoord 2 3; Day09.mkCoord 7 3] in
  Day09.cx (Day09.compressedCoords coords !!! 0) < length (Day09.uniqueXs coords) ∧
  Day09.cy (Day09.compressedCoords coords !!! 0) < length (Day09.uniqueYs coords) ∧
  Day09.uniqueXs coords !! Day09.cx (Day09.compressedCoords coords !!! 0)
    = Some (Day09.x (coords !!! 0)) ∧
  Day09.uniqueYs coords !! Day09.cy (Day09.compressedCoords coords !!! 0)
    = Some (Day09.y (coords !!! 0)) ∧
  (Day09.cx (Day09.compressedCoords coords !!! 0)
     ≤ Day09.cx (Day09.compressedCoords coords !!! 5)
   ↔ (Day09.x (coords !!! 0%nat) ≤ Day09.x (coords !!! 5%nat))%Z) ∧
  (Day09.cy (Day09.compressedCoords coords !!! 0)
     ≤ Day09.cy (Day09.compressedCoords coords !!! 5)
   ↔ (Day09.y (coords !!! 0%nat) ≤ Day09.y (coords !!! 5%nat))%Z).
Proof.
  intros coords. apply (day09_compress_order coords 0 5); simpl; lia.
Defined.

(** *** The grid *)

Lemma is_one_true g pos : Day09.is_one g pos = true ↔ g !! pos = Some 1.
Proof. unfold Day09.is_one. apply bool_decide_eq_true. Qed.

Lemma grows_refl g : Day09.grows g g.
Proof. by split. Qed.

Lemma grows_trans g1 g2 g3 :
  Day09.grows g1 g2 → Day09.grows g2 g3 → Day09.grows g1 g3.
Proof. intros [Hl1 H1] [Hl2 H2]. split; [congruence|]. auto. Qed.

Lemma grows_insert g pos : Day09.grows g (<[pos:=1]> g).
Proof.
  split; [by rewrite length_insert|]. intros q. rewrite !is_one_true. intros Hq.
  destruct (decide (pos = q)) as [->|Hne].
  - apply list_lookup_insert_eq. by eapply lookup_lt_Some.
  - by rewrite list_lookup_insert_ne.
Qed.


Section FoldGrid.
Context {A : Type} (step : Day09.Grid → A → Day09.Grid).
Hypothesis step_grows : ∀ g a, Day09.grows g (step g a).

Lemma foldl_grows l : ∀ g, Day09.grows g (foldl step g l).
Proof.
  induction l as [|a l IH]; intros g; simpl; [apply grows_refl|].
  eapply grows_trans; [apply step_grows|apply IH].
Qed.

End FoldGrid.

Lemma mark_rect_grows width x1 x2 y1 y2 g :
  Day09.grows g (Day09.mark_rect width x1 x2 y1 y2 g).
Proof.
  unfold Day09.mark_rect. apply foldl_grows. intros g' yy.
  apply foldl_grows. intros g'' xx. apply grows_insert.
Qed.


Lemma outline_grows width cc g : Day09.grows g (Day09.outline width cc g).
Proof.
  unfold Day09.outline. apply foldl_grows. intros g' i. apply mark_rect_grows.
Qed.












Example day09_example :
  let coords := [Day09.mkCoord 7 1; Day09.mkCoord 11 1; Day09.mkCoord 11 7;
                 Day09.mkCoord 9 7; Day09.mkCoord 9 5; Day09.mkCoord 2 5;
                 Day09.mkCoord 2 3; Day09.mkCoord 7 3] in
  Day09.largest coords = 50%Z ∧ Day09.largest_marked coords = 24%Z.
Proof. vm_compute. done. Qed.

(** ** Day 7 *)







Lemma row_cell_set (r : Day07.Row) (c : nat) (v : string) (col : Z) :
  Day07.row_cell (js_array_set r c v) col
  = if decide (c = Z.to_nat col) then Some v else Day07.row_cell r col.
Proof.
  unfold Day07.row_cell, js_array_set. set (j := Z.to_nat col).
  destruct (decide (c < length r)) as [Hc|Hc].
  - destruct (decide (c = j)) as [->|Hne].
    + by rewrite list_lookup_insert_eq.
    + by rewrite list_lookup_insert_ne.
  - destruct (decide (c = j)) as [->|Hne].
    + rewrite lookup_app_r by lia.
      rewrite lookup_app_r by (rewrite length_replicate; lia).
      rewrite length_replicate.
      by replace (j - length r - (j - length r)) with 0 by lia.
    + destruct (decide (j < length r)) as [Hj|Hj].
      * by rewrite lookup_app_l.
      * rewrite lookup_app_r by lia. rewrite (lookup_ge_None_2 r j) by lia.
        destruct (decide (j - length r < c - length r)) as [Hlt|Hge].
        -- rewrite lookup_app_l by (rewrite length_replicate; lia).
           by rewrite lookup_replicate_2 by lia.
        -- rewrite lookup_app_r by (rewrite length_replicate; lia).
           rewrite length_replicate.
           destruct (j - length r - (c - length r)) as [|k] eqn:E; [lia|done].
Qed.

Lemma cell_at_write (g : Day07.Grid) r c v r' col :
  Day07.cell_at (Day07.write g r c v) r' col
  = if decide (r = r' ∧ r < length g ∧ c = Z.to_nat col) then Some v
    else Day07.cell_at g r' col.
Proof.
  unfold Day07.cell_at, Day07.write. destruct (decide (r = r')) as [<-|Hne].
  - rewrite list_lookup_alter_eq. destruct (g !! r) as [row|] eqn:Hrow.
    + cbn [fmap option_fmap option_map mbind option_bind]. rewrite row_cell_set.
      apply lookup_lt_Some in Hrow. destruct (decide (c = Z.to_nat col)).
      * by rewrite decide_True.
      * by rewrite decide_False by tauto.
    + apply lookup_ge_None in Hrow. by rewrite decide_False by lia.
  - rewrite list_lookup_alter_ne by done. by rewrite decide_False by tauto.
Qed.

Lemma width_write (g : Day07.Grid) r c v :
  (r = 0 → (Z.of_nat c < Day07.width g)%Z) →
  Day07.width (Day07.write g r c v) = Day07.width g.
Proof.
  unfold Day07.width, Day07.write. intros Hc. destruct (decide (r = 0)) as [->|Hne].
  - rewrite list_lookup_alter_eq. destruct (g !! 0) as [row|] eqn:Hrow; [|done].
    specialize (Hc eq_refl). cbn [fmap option_fmap option_map default from_option id] in *.
    unfold js_array_set. rewrite decide_True by lia. by rewrite length_insert.
  - by rewrite list_lookup_alter_ne.
Qed.

Lemma length_write (g : Day07.Grid) r c v :
  length (Day07.write g r c v) = length g.
Proof. unfold Day07.write. apply length_alter. Qed.

Lemma js_set_add_NoDup s v : NoDup s → NoDup (js_set_add s v).
Proof.
  intros Hs. unfold js_set_add. case_decide as Hv; [done|].
  apply NoDup_app. split; [done|]. split; [|apply NoDup_singleton].
  intros w Hw ->%list_elem_of_singleton. done.
Qed.

Lemma cell_at_to_nat (g : Day07.Grid) row col col' :
  Z.to_nat col = Z.to_nat col' → Day07.cell_at g row col = Day07.cell_at g row col'.
Proof. intros Heq. unfold Day07.cell_at, Day07.row_cell. by rewrite Heq. Qed.

Section Day07Part1.
Variable grid : Day07.Grid.

Lemma beam_step_keeps row st beamCol :
  Day07.keeps grid st →
  Day07.keeps grid (Day07.beam_step row st beamCol) ∧
  Day07.splitCount (Day07.beam_step row st beamCol)
  = Day07.splitCount st + (if decide (Day07.hits grid row beamCol) then 1 else 0).
Proof.
  intros (Hlen & Hw & Hcells & Hnd). unfold Day07.beam_step, Day07.hits.
  rewrite Hw. destruct (decide (beamCol < 0 ∨ Day07.width grid ≤ beamCol)%Z) as [Hout|Hin].
  - split; [done|]. rewrite decide_False by tauto. lia.
  - destruct (decide (Day07.cell_at (Day07.marked st) row beamCol = Some "^"%string))
      as [Hs|Hs].
    + split.
      * unfold Day07.keeps. cbn [Day07.marked Day07.beams].
        do 3 (split; [done|]). by do 2 apply js_set_add_NoDup.
      * cbn [Day07.splitCount]. rewrite decide_True; [lia|].
        split; [done|]. by apply Hcells.
    + split.
      * unfold Day07.keeps. cbn [Day07.marked Day07.beams].
        split; [by rewrite length_write|].
        split; [rewrite width_write; [done|]; intros _; lia|].
        split; [|by apply js_set_add_NoDup].
        intros r col. rewrite cell_at_write. case_decide as Hc; [|apply Hcells].
        destruct Hc as (<- & _ & Hcol). rewrite <- Hcells.
        rewrite (cell_at_to_nat _ row col beamCol) by done. split; [done|tauto].
      * cbn [Day07.splitCount]. rewrite decide_False; [lia|].
        intros [_ Hc]. by apply Hs, Hcells.
Qed.

Lemma beam_fold_keeps row bs : ∀ st,
  Day07.keeps grid st →
  Day07.keeps grid (foldl (Day07.beam_step row) st bs) ∧
  Day07.splitCount (foldl (Day07.beam_step row) st bs)
  = Day07.splitCount st + length (filter (Day07.hits grid row) bs).
Proof.
  induction bs as [|b bs IH]; intros st Hst.
  - cbn [foldl]. split; [done|]. rewrite filter_nil. simpl. lia.
  - cbn [foldl]. destruct (beam_step_keeps row st b Hst) as [Hk Hc].
    destruct (IH _ Hk) as [Hk' Hc']. split; [done|]. rewrite Hc', Hc.
    rewrite filter_cons. destruct (decide (Day07.hits grid row b)); simpl; lia.
Qed.

Lemma length_filter_ne (n : nat) (l : list nat) :
  NoDup l →
  length l ≤ length (filter (λ i, i ≠ n) l) + (if decide (n ∈ l) then 1 else 0).
Proof.
  induction 1 as [|a l Ha Hl IH].
  - simpl. lia.
  - rewrite filter_cons. destruct (decide (a = n)) as [->|Hne].
    + rewrite decide_False by tauto.
      rewrite (decide_True (P := n ∈ n :: l)) by left.
      rewrite (decide_False (P := n ∈ l)) in IH by done. simpl. lia.
    + rewrite decide_True by done. destruct (decide (n ∈ l)) as [Hn|Hn].
      * rewrite (decide_True (P := n ∈ a :: l)) by by right. simpl. lia.
      * rewrite (decide_False (P := n ∈ a :: l)).
        -- simpl. lia.
        -- intros [->|?]%elem_of_cons; done.
Qed.

Lemma indices_bound {A} (Q : A → Prop) `{∀ a, Decision (Q a)} (r : list A) :
  ∀ ixs : list nat,
    NoDup ixs → (∀ i, i ∈ ixs → ∃ a, r !! i = Some a ∧ Q a) →
    length ixs ≤ length (filter Q r).
Proof.
  induction r as [|a r IH] using rev_ind; intros ixs Hnd Hall.
  - destruct ixs as [|i ixs]; [done|].
    destruct (Hall i ltac:(left)) as (a & Ha & _). by rewrite lookup_nil in Ha.
  - pose proof (length_filter_ne (length r) ixs Hnd) as Hsplit.
    assert (length (filter (λ i, i ≠ length r) ixs) ≤ length (filter Q r)) as Hrest.
    { apply IH; [by apply NoDup_filter|].
      intros i [Hi Hin]%list_elem_of_filter. destruct (Hall i Hin) as (b & Hb & HQ).
      exists b. split; [|done]. pose proof (lookup_lt_Some _ _ _ Hb) as Hlt.
      rewrite length_app in Hlt. simpl in Hlt. rewrite lookup_app_l in Hb by lia. done. }
    rewrite filter_app, length_app. destruct (decide (length r ∈ ixs)) as [Hin|Hin].
    + destruct (Hall _ Hin) as (b & Hb & HQ).
      rewrite list_lookup_middle in Hb by done. injection Hb as <-.
      rewrite filter_cons, decide_True by done. simpl. lia.
    + lia.
Qed.

Lemma hits_bound row r bs :
  grid !! row = Some r → NoDup bs →
  length (filter (Day07.hits grid row) bs)
  ≤ length (filter (λ c, c = Some "^"%string) r).
Proof.
  intros Hr Hnd.
  rewrite <- (length_fmap Z.to_nat (filter (Day07.hits grid row) bs)).
  apply indices_bound.
  - apply NoDup_fmap_2_strong; [|by apply NoDup_filter].
    intros c c' [[Hc _] _]%list_elem_of_filter [[Hc' _] _]%list_elem_of_filter Heq. lia.
  - intros i (c & -> & [[_ Hc] _]%list_elem_of_filter)%list_elem_of_fmap.
    unfold Day07.cell_at, Day07.row_cell in Hc. rewrite Hr in Hc.
    cbn [mbind option_bind] in Hc.
    destruct (r !! Z.to_nat c) as [a|]; [|done]. exists a. split; [done|].
    by cbn [mbind option_bind] in Hc.
Qed.

Lemma row_step_keeps row r st :
  grid !! row = Some r →
  Day07.keeps grid st →
  Day07.keeps grid (Day07.row_step st row) ∧
  Day07.splitCount (Day07.row_step st row)
  ≤ Day07.splitCount st + length (filter (λ c, c = Some "^"%string) r).
Proof.
  intros Hr (Hlen & Hw & Hcells & Hnd). unfold Day07.row_step.
  destruct (beam_fold_keeps row (Day07.beams st)
              (Day07.mkBeams (Day07.splitCount st) [] (Day07.marked st)))
    as [Hk Hc].
  { do 3 (split; [done|]). apply NoDup_nil_2. }
  split; [done|]. rewrite Hc. cbn [Day07.splitCount].
  pose proof (hits_bound row r (Day07.beams st) Hr Hnd). lia.
Qed.

Lemma rows_keep start k :
  k ≤ length grid →
  Day07.keeps grid (foldl Day07.row_step (Day07.mkBeams 0 [start] grid) (seq 0 k)) ∧
  Day07.splitCount (foldl Day07.row_step (Day07.mkBeams 0 [start] grid) (seq 0 k))
  ≤ Day07.splitters (take k grid).
Proof.
  induction k as [|k IH]; intros Hk.
  - cbn [seq foldl]. split.
    + do 3 (split; [done|]). apply NoDup_singleton.
    + cbn [Day07.splitCount]. lia.
  - destruct (IH ltac:(lia)) as [Hkeep Hcount].
    destruct (lookup_lt_is_Some_2 grid k ltac:(lia)) as [r Hr].
    rewrite seq_S, foldl_app. cbn [foldl]. change (0 + k) with k.
    destruct (row_step_keeps k r _ Hr Hkeep) as [Hkeep' Hcount'].
    split; [done|]. rewrite (take_S_r grid k r Hr). unfold Day07.splitters in *.
    rewrite sum_list_with_app. cbn [sum_list_with]. lia.
Qed.

End Day07Part1.

(** X25. [part1] of day 7 counts no splitter twice: called with a grid
    that has a first row it returns a number which is at most the number
    of splitters of the grid; the grid it leaves behind has the same number
    of rows, the same first-row length and the same splitters. *)
Theorem day07_part1_bounded (grid : Day07.Grid) (row0 : Day07.Row) :
  grid !! 0 = Some row0 →
  ∃ n grid', Day07.part1 grid = Some (n, grid') ∧
    n ≤ Day07.splitters grid ∧
    length grid' = length grid ∧
    Day07.width grid' = Day07.width grid ∧
    ∀ row col, Day07.cell_at grid' row col = Some "^"%string
               ↔ Day07.cell_at grid row col = Some "^"%string.
Proof.
  intros H0. unfold Day07.part1, Day07.beams_after, Day07.startCol. rewrite H0.
  cbn [fmap option_fmap option_map mbind option_bind].
  set (start := js_findIndex _ row0).
  destruct (rows_keep grid start (length grid) ltac:(lia))
    as [(Hl & Hw & Hc & _) Hn].
  rewrite take_ge in Hn by lia.
  eexists _, _. split; [done|]. by do 3 (split; [done|]).
Qed.

Lemma day07_part1_bounded_witness :
  ∃ n grid',
    Day07.part1 [[Some "."; Some "S"; Some "."]; [Some "."; Some "^"; Some "."];
                 [Some "^"; Some "."; Some "^"]; [Some "."; Some "."; Some "."]]%string
      = Some (n, grid') ∧
    n ≤ Day07.splitters
          [[Some "."; Some "S"; Some "."]; [Some "."; Some "^"; Some "."];
           [Some "^"; Some "."; Some "^"]; [Some "."; Some "."; Some "."]]%string ∧
    length grid' = 4 ∧
    Day07.width grid' = Day07.width
          [[Some "."; Some "S"; Some "."]; [Some "."; Some "^"; Some "."];
           [Some "^"; Some "."; Some "^"]; [Some "."; Some "."; Some "."]]%string ∧
    ∀ row col, Day07.cell_at grid' row col = Some "^"%string
               ↔ Day07.cell_at
                   [[Some "."; Some "S"; Some "."]; [Some "."; Some "^"; Some "."];
                    [Some "^"; Some "."; Some "^"]; [Some "."; Some "."; Some "."]]%string
                   row col = Some "^"%string.
Proof.
  apply (day07_part1_bounded
           [[Some "."; Some "S"; Some "."]; [Some "."; Some "^"; Some "."];
            [Some "^"; Some "."; Some "^"]; [Some "."; Some "."; Some "."]]%string
           [Some "."; Some "S"; Some "."]%string).
  reflexivity.
Defined.

(** *** What [part1] does to the first row *)

Lemma beam_fold_row0 row bs : ∀ st,
  row ≠ 0 →
  Day07.marked (foldl (Day07.beam_step row) st bs) !! 0 = Day07.marked st !! 0.
Proof.
  induction bs as [|b bs IH]; intros st Hrow; [done|].
  cbn [foldl]. rewrite IH by done. unfold Day07.beam_step.
  repeat case_decide; try done.
  cbn [Day07.marked]. unfold Day07.write. by rewrite list_lookup_alter_ne.
Qed.

Lemma rows_row0 k : ∀ st a,
  1 ≤ a →
  Day07.marked (foldl Day07.row_step st (seq a k)) !! 0 = Day07.marked st !! 0.
Proof.
  induction k as [|k IH]; intros st a Ha; [done|].
  cbn [seq foldl]. rewrite IH by lia. unfold Day07.row_step.
  rewrite beam_fold_row0 by lia. done.
Qed.

Lemma idle_rows k : ∀ st a,
  Day07.beams st = [] ∨ Day07.beams st = [(-1)%Z] →
  Day07.splitCount (foldl Day07.row_step st (seq a k)) = Day07.splitCount st ∧
  Day07.marked (foldl Day07.row_step st (seq a k)) = Day07.marked st.
Proof.
  induction k as [|k IH]; intros st a Hb; [done|].
  cbn [seq foldl].
  assert (Day07.row_step st a
          = Day07.mkBeams (Day07.splitCount st) [] (Day07.marked st)) as ->.
  { unfold Day07.row_step. destruct Hb as [->| ->]; [done|].
    cbn [foldl]. unfold Day07.beam_step. by rewrite decide_True by (left; lia). }
  destruct (IH (Day07.mkBeams (Day07.splitCount st) [] (Day07.marked st)) (S a))
    as [-> ->]; [by left|done].
Qed.

Lemma idle_counts (grid : Day07.Grid) k : ∀ a,
  foldl (λ beamCounts row, foldl (Day07.count_step grid row) [] beamCounts)
        [] (seq a k) = [].
Proof. induction k as [|k IH]; intros a; [done|]. cbn [seq foldl]. apply IH. Qed.

(** X26. [part1] of day 7 overwrites the start: called with a grid whose
    first row has exactly one [S], it returns with a [|] in the place of
    that [S] and the rest of the first row as it was.  The grid is the
    caller's array, so a later call with it finds no [S]: [findIndex]
    gives -1, [part1] then returns 0 and changes nothing, and [part2]
    returns 0. *)
Theorem day07_part1_overwrites_start (grid : Day07.Grid) (before after : Day07.Row) :
  grid !! 0 = Some (before ++ Some "S"%string :: after) →
  forallb (λ c, negb (bool_decide (c = Some "S"%string))) (before ++ after) = true →
  ∃ n grid', Day07.part1 grid = Some (n, grid') ∧
    grid' !! 0 = Some (before ++ Some "|"%string :: after) ∧
    Day07.startCol grid' = Some (-1)%Z ∧
    Day07.part1 grid' = Some (0, grid') ∧
    Day07.part2 grid' = Some 0.
Proof.
  intros H0 Hs. rewrite forallb_app in Hs. apply andb_true_iff in Hs as [Hb Ha].
  assert (Day07.startCol grid = Some (Z.of_nat (length before))) as Hstart.
  { unfold Day07.startCol, js_findIndex. rewrite H0.
    cbn [fmap option_fmap option_map]. f_equal.
    rewrite js_findIndex_from_found; [lia|done|by apply bool_decide_eq_true]. }
  assert (1 ≤ length grid) as Hlen by (apply lookup_lt_Some in H0; lia).
  unfold Day07.part1 at 1. unfold Day07.beams_after. rewrite Hstart.
  cbn [mbind option_bind].
  set (st := foldl Day07.row_step _ _).
  assert (Day07.marked st !! 0 = Some (before ++ Some "|"%string :: after)) as Hrow0.
  { subst st. destruct (length grid) as [|n] eqn:Hn; [lia|].
    cbn [seq foldl]. rewrite rows_row0 by lia.
    unfold Day07.row_step. cbn [Day07.beams Day07.splitCount Day07.marked foldl].
    unfold Day07.beam_step. cbn [Day07.marked].
    assert (Day07.width grid = Z.of_nat (length (before ++ Some "S"%string :: after)))
      as Hw by (unfold Day07.width; by rewrite H0).
    rewrite length_app in Hw. cbn [length] in Hw.
    rewrite decide_False by lia.
    assert (Day07.cell_at grid 0 (Z.of_nat (length before)) = Some "S"%string) as Hcell.
    { unfold Day07.cell_at, Day07.row_cell. rewrite H0. cbn [mbind option_bind].
      rewrite Nat2Z.id, list_lookup_middle by done. done. }
    rewrite Hcell. rewrite decide_False by done. cbn [Day07.marked].
    unfold Day07.write. rewrite list_lookup_alter_eq, H0.
    cbn [fmap option_fmap option_map]. f_equal.
    unfold js_array_set. rewrite Nat2Z.id.
    rewrite decide_True by (rewrite length_app; simpl; lia).
    rewrite insert_app_r_alt by lia. by rewrite Nat.sub_diag. }
  set (grid' := Day07.marked st) in *.
  assert (Day07.startCol grid' = Some (-1)%Z) as Hstart'.
  { unfold Day07.startCol, js_findIndex. rewrite Hrow0.
    cbn [fmap option_fmap option_map]. f_equal.
    apply js_findIndex_from_none. rewrite forallb_app. cbn [forallb].
    rewrite Hb, Ha. done. }
  assert (1 ≤ length grid') as Hlen' by (apply lookup_lt_Some in Hrow0; lia).
  exists (Day07.splitCount st), grid'. do 3 (split; [done|]). split.
  - unfold Day07.part1, Day07.beams_after. rewrite Hstart'.
    cbn [mbind option_bind].
    destruct (idle_rows (length grid') (Day07.mkBeams 0 [(-1)%Z] grid') 0) as [-> ->];
      [by right|done].
  - unfold Day07.part2, Day07.counts_after. rewrite Hstart'.
    cbn [mbind option_bind].
    destruct (length grid') as [|n]; [lia|]. cbn [seq foldl].
    unfold Day07.count_step at 2. cbn [fst]. rewrite decide_True by (left; lia).
    by rewrite idle_counts.
Qed.

Lemma day07_part1_overwrites_start_witness :
  ∃ n grid',
    Day07.part1 [[Some "."; Some "S"; Some "."]; [Some "."; Some "^"; Some "."];
                 [Some "^"; Some "."; Some "^"]; [Some "."; Some "."; Some "."]]%string
      = Some (n, grid') ∧
    grid' !! 0 = Some ([Some "."%string] ++ Some "|"%string :: [Some "."%string]) ∧
    Day07.startCol grid' = Some (-1)%Z ∧
    Day07.part1 grid' = Some (0, grid') ∧
    Day07.part2 grid' = Some 0.
Proof.
  apply (day07_part1_overwrites_start
           [[Some "."; Some "S"; Some "."]; [Some "."; Some "^"; Some "."];
            [Some "^"; Some "."; Some "^"]; [Some "."; Some "."; Some "."]]%string
           [Some "."%string] [Some "."%string]); reflexivity.
Defined.

Example day07_example :
  let grid := [[Some "."; Some "."; Some "S"; Some "."; Some "."];
               [Some "."; Some "."; Some "."; Some "."; Some "."];
               [Some "."; Some "."; Some "^"; Some "."; Some "."];
               [Some "."; Some "^"; Some "."; Some "^"; Some "."];
               [Some "."; Some "."; Some "."; Some "."; Some "."]]%string in
  fst <$> Day07.part1 grid = Some 3 ∧ Day07.part2 grid = Some 4 ∧
  (res ← Day07.part1 grid; Day07.part2 res.2) = Some 0.
Proof. vm_compute. done. Qed.

(** ** Day 11 *)



Section Day11Part1.
Variables (graph : Day11.Graph) (rank : string → nat) (bound : nat).
Hypothesis Hranked : ∀ node outputs neighbor,
  graph !! node = Some outputs → neighbor ∈ outputs →
  rank neighbor < bound ∧ (node ≠ "out"%string → rank neighbor < rank node).






End Day11Part1.




Section Day11Part2.
Variables (graph : Day11.Graph) (rank : string → nat) (bound : nat).
Hypothesis Hranked : ∀ node outputs neighbor,
  graph !! node = Some outputs → neighbor ∈ outputs →
  rank neighbor < bound ∧ (node ≠ "out"%string → rank neighbor < rank node).





End Day11Part2.



Example day11_example :
  @Day11.part1 colon_parsing 4 ["you:abc def"; "abc:out def"; "def:out"]%string = Some 3 ∧
  @Day11.part2 colon_parsing 4
     ["svr:fft dac a"; "a:fft"; "fft:dac out"; "dac:out"]%string = Some 2.
Proof. vm_compute. done. Qed.

(** With a cycle the memo table can hold a count that was cut short by
    the cycle check: the same edges give 2 or 1, depending on the order of
    the outputs of ["you"]. *)
Example day11_cycle_order :
  @Day11.part1 colon_parsing 5 ["you:a b"; "a:b"; "b:a out"]%string = Some 2 ∧
  @Day11.part1 colon_parsing 5 ["you:b a"; "a:b"; "b:a out"]%string = Some 1.
Proof. vm_compute. done. Qed.

(** ** Day 3 visualization *)

Lemma digit_gt a b :
  a < 10 → b < 10 →
  js_string_gt (Day03.digit a) (Day03.digit b) = bool_decide (b < a).
Proof.
  intros Ha Hb.
  do 10 (destruct a as [|a];
         [do 10 (destruct b as [|b]; [vm_compute; reflexivity|]); lia|]).
  lia.
Qed.

Lemma digit_gt_sentinel a : a < 10 → js_string_gt (Day03.digit a) "-1" = true.
Proof.
  intros Ha. do 10 (destruct a as [|a]; [vm_compute; reflexivity|]). lia.
Qed.

Lemma digit_at_fmap (ds : list nat) (j : nat) :
  Day03.digit_at (Day03.digit <$> ds) (Z.of_nat j) = Day03.digit <$> ds !! j.
Proof.
  unfold Day03.digit_at. rewrite decide_True by lia.
  by rewrite Nat2Z.id, list_lookup_fmap.
Qed.

Section Day03Picks.
Variable ds : list nat.
Hypothesis Hds : Forall (λ d, d < 10) ds.

Lemma digit_bound j d : ds !! j = Some d → d < 10.
Proof. intros Hj. by eapply (Forall_lookup_1 _ _ _ _ Hds). Qed.

Lemma highest_fold k : ∀ s h ih,
  s + k ≤ length ds → h < 10 →
  ∃ m im,
    foldl (Day03.highest_step (Day03.digit <$> ds))
          (Day03.mkHighest (Day03.digit h) ih)
          (seqZ (Z.of_nat s) (Z.of_nat k))
    = Day03.mkHighest (Day03.digit m) im ∧
    m < 10 ∧
    (∀ j d, s ≤ j < s + k → ds !! j = Some d → d ≤ m) ∧
    ((m = h ∧ im = ih) ∨
     (h < m ∧ ∃ i, im = Z.of_nat i ∧ s ≤ i < s + k ∧ ds !! i = Some m ∧
        ∀ j d, s ≤ j < i → ds !! j = Some d → d < m)).
Proof.
  induction k as [|k IH]; intros s h ih Hk Hh.
  - exists h, ih. cbn [foldl seqZ]. rewrite seqZ_nil by lia. cbn [foldl].
    split; [done|]. split; [done|]. split; [intros; lia|by left].
  - rewrite seqZ_cons by lia. cbn [foldl].
    replace (Z.succ (Z.of_nat s)) with (Z.of_nat (S s)) by lia.
    replace (Z.pred (Z.of_nat (S k))) with (Z.of_nat k) by lia.
    destruct (lookup_lt_is_Some_2 ds s ltac:(lia)) as [d Hd].
    pose proof (digit_bound s d Hd) as Hd10.
    unfold Day03.highest_step at 2. rewrite digit_at_fmap, Hd.
    cbn [fmap option_fmap option_map Day03.value]. rewrite digit_gt by done.
    case_bool_decide as Hgt.
    + destruct (IH (S s) d (Z.of_nat s) ltac:(lia) Hd10)
        as (m & im & Hfold & Hm & Hall & Hcase).
      exists m, im. split; [done|]. split; [done|].
      assert (d ≤ m) as Hdm by (destruct Hcase as [[-> _]|[? _]]; lia).
      split.
      * intros j d' Hj Hd'. destruct (decide (j = s)) as [->|Hne].
        -- rewrite Hd in Hd'. injection Hd' as <-. done.
        -- apply (Hall j); [lia|done].
      * right. split; [lia|].
        destruct Hcase as [[-> ->]|(Hlt & i & -> & Hi & Hmi & Hbefore)].
        -- exists s. split; [done|]. split; [lia|]. split; [done|]. intros; lia.
        -- exists i. split; [done|]. split; [lia|]. split; [done|].
           intros j d' Hj Hd'. destruct (decide (j = s)) as [->|Hne].
           ++ rewrite Hd in Hd'. injection Hd' as <-. done.
           ++ apply (Hbefore j); [lia|done].
    + destruct (IH (S s) h ih ltac:(lia) Hh) as (m & im & Hfold & Hm & Hall & Hcase).
      exists m, im. split; [done|]. split; [done|].
      assert (h ≤ m) as Hhm by (destruct Hcase as [[-> _]|[? _]]; lia).
      split.
      * intros j d' Hj Hd'. destruct (decide (j = s)) as [->|Hne].
        -- rewrite Hd in Hd'. injection Hd' as <-. lia.
        -- apply (Hall j); [lia|done].
      * destruct Hcase as [[-> ->]|(Hlt & i & -> & Hi & Hmi & Hbefore)]; [by left|].
        right. split; [done|]. exists i. split; [done|]. split; [lia|].
        split; [done|]. intros j d' Hj Hd'. destruct (decide (j = s)) as [->|Hne].
        -- rewrite Hd in Hd'. injection Hd' as <-. lia.
        -- apply (Hbefore j); [lia|done].
Qed.

Lemma getHighestInRange_spec s k :
  0 < k → s + k ≤ length ds →
  ∃ m i,
    Day03.getHighestInRange (Day03.digit <$> ds) (Z.of_nat s) (Z.of_nat (s + k) - 1)
    = Day03.mkHighest (Day03.digit m) (Z.of_nat i) ∧
    s ≤ i < s + k ∧ ds !! i = Some m ∧
    (∀ j d, s ≤ j < s + k → ds !! j = Some d → d ≤ m) ∧
    (∀ j d, s ≤ j < i → ds !! j = Some d → d < m).
Proof.
  intros Hk Hlen. unfold Day03.getHighestInRange.
  replace (Z.of_nat (s + k) - 1 - Z.of_nat s + 1)%Z with (Z.of_nat k) by lia.
  destruct k as [|k]; [lia|]. rewrite seqZ_cons by lia. cbn [foldl].
  replace (Z.succ (Z.of_nat s)) with (Z.of_nat (S s)) by lia.
  replace (Z.pred (Z.of_nat (S k))) with (Z.of_nat k) by lia.
  destruct (lookup_lt_is_Some_2 ds s ltac:(lia)) as [d Hd].
  pose proof (digit_bound s d Hd) as Hd10.
  unfold Day03.highest_step at 2. rewrite digit_at_fmap, Hd.
  cbn [fmap option_fmap option_map Day03.value]. rewrite digit_gt_sentinel by done.
  destruct (highest_fold k (S s) d (Z.of_nat s) ltac:(lia) Hd10)
    as (m & im & Hfold & Hm & Hall & Hcase).
  assert (d ≤ m) as Hdm by (destruct Hcase as [[-> _]|[? _]]; lia).
  destruct Hcase as [[-> ->]|(Hlt & i & -> & Hi & Hmi & Hbefore)].
  - exists d, s. split; [done|]. split; [lia|]. split; [done|]. split.
    + intros j d' Hj Hd'. destruct (decide (j = s)) as [->|Hne].
      * rewrite Hd in Hd'. injection Hd' as <-. done.
      * apply (Hall j); [lia|done].
    + intros; lia.
  - exists m, i. split; [done|]. split; [lia|]. split; [done|]. split.
    + intros j d' Hj Hd'. destruct (decide (j = s)) as [->|Hne].
      * rewrite Hd in Hd'. injection Hd' as <-. done.
      * apply (Hall j); [lia|done].
    + intros j d' Hj Hd'. destruct (decide (j = s)) as [->|Hne].
      * rewrite Hd in Hd'. injection Hd' as <-. done.
      * apply (Hbefore j); [lia|done].
Qed.

Lemma sublist_drop_head (s : nat) (t0 : nat) (t' : list nat) :
  t0 :: t' `sublist_of` drop s ds →
  ∃ j, s ≤ j ∧ ds !! j = Some t0 ∧ t' `sublist_of` drop (S j) ds.
Proof.
  intros (k1 & k2 & Hsplit & Hsub)%sublist_cons_l.
  exists (s + length k1). split; [lia|].
  assert ((drop s ds) !! length k1 = Some t0) as Hl.
  { rewrite Hsplit. by apply list_lookup_middle. }
  rewrite lookup_drop in Hl. split; [done|].
  replace (S (s + length k1)) with (s + S (length k1)) by lia.
  rewrite <- drop_drop, Hsplit.
  change (t0 :: k2) with ([t0] ++ k2). rewrite app_assoc.
  rewrite drop_app_length'; [done|]. rewrite length_app. simpl. lia.
Qed.

Lemma pick_loop_spec k : ∀ p s row,
  p + k = Day03.keepCount → s + k ≤ length ds → length row = Day03.keepCount →
  ∃ best,
    Day03.resultRow
      (foldl (Day03.pick_step (Day03.digit <$> ds))
             (Day03.mkPicks (Z.of_nat s) row) (seq p k))
    = take p row ++ (Day03.digit <$> best) ∧
    best `sublist_of` drop s ds ∧ length best = k ∧
    ∀ t, t `sublist_of` drop s ds → length t = k → Day03.lex_le t best.
Proof.
  induction k as [|k IH]; intros p s row Hp Hs Hrow.
  - exists []. cbn [seq foldl Day03.resultRow fmap list_fmap].
    rewrite app_nil_r, take_ge by lia. split; [done|].
    split; [apply sublist_nil_l|]. split; [done|]. intros t _ _. by destruct t.
  - cbn [seq foldl]. unfold Day03.pick_step at 2. cbv zeta.
    cbn [Day03.searchStart Day03.resultRow]. rewrite length_fmap.
    set (win := length ds - k - s).
    assert (0 < win ∧ s + win = length ds - k) as [Hwin Hwin'] by (subst win; lia).
    replace (Z.of_nat (length ds) - (Z.of_nat Day03.keepCount - Z.of_nat p))%Z
      with (Z.of_nat (s + win) - 1)%Z by lia.
    destruct (getHighestInRange_spec s win Hwin ltac:(lia))
      as (m & i & -> & Hi & Hmi & Hall & Hbefore).
    cbn [Day03.index Day03.value].
    replace (Z.of_nat i + 1)%Z with (Z.of_nat (S i)) by lia.
    destruct (IH (S p) (S i) (<[p:=Day03.digit m]> row))
      as (best & Hres & Hsub & Hlen & Hmax).
    { lia. } { lia. } { by rewrite length_insert. }
    exists (m :: best). split; [|split; [|split]].
    + rewrite Hres. rewrite (take_S_r _ p (Day03.digit m)).
      * rewrite take_insert_ge by lia. rewrite <- app_assoc. done.
      * apply list_lookup_insert_eq. lia.
    + apply sublist_cons_l. exists (take (i - s) (drop s ds)), (drop (S i) ds).
      split; [|done].
      rewrite <- (take_drop_middle (drop s ds) (i - s) m) at 1.
      * rewrite drop_drop. do 3 f_equal. lia.
      * rewrite lookup_drop. by replace (s + (i - s)) with i by lia.
    + cbn [length]. lia.
    + intros [|t0 t'] Ht Hlt; [done|]. cbn [length] in Hlt.
      destruct (sublist_drop_head s t0 t' Ht) as (j & Hj & Hjt & Ht').
      pose proof (sublist_length _ _ Ht') as Hl. rewrite length_drop in Hl.
      pose proof (lookup_lt_Some _ _ _ Hjt) as Hjlen.
      pose proof (Hall j t0 ltac:(lia) Hjt) as Hle.
      cbn [Day03.lex_le]. destruct (decide (t0 < m)) as [?|Hge]; [by left|].
      right. split; [lia|]. apply Hmax; [|lia].
      assert (i ≤ j) as Hij.
      { destruct (decide (i ≤ j)) as [|Hn]; [done|].
        pose proof (Hbefore j t0 ltac:(lia) Hjt). lia. }
      etrans; [exact Ht'|].
      replace (S j) with (S i + (j - i)) by lia. rewrite <- drop_drop.
      apply sublist_drop.
Qed.

End Day03Picks.

(** X29. For a line of at least 12 decimal digits the picks of the day 3
    visualization spell the largest number that 12 of its digits form in
    their order: [resultRows[lineIdx]] is a subsequence of the line, of
    length 12, and no other such subsequence is lexicographically larger.
    [getHighestInRange] returns the first greatest digit of each window. *)
Theorem day03_picks_largest (ds : list nat) :
  forallb (λ d, bool_decide (d < 10)) ds = true →
  Day03.keepCount ≤ length ds →
  ∃ best,
    Day03.picks (Day03.digit <$> ds) = Day03.digit <$> best ∧
    best `sublist_of` ds ∧ length best = Day03.keepCount ∧
    ∀ t, t `sublist_of` ds → length t = Day03.keepCount → Day03.lex_le t best.
Proof.
  intros Hds Hlen.
  assert (Forall (λ d, d < 10) ds) as Hall.
  { apply Forall_forall. intros d Hd%list_elem_of_In.
    rewrite forallb_forall in Hds. specialize (Hds d Hd).
    by apply bool_decide_eq_true in Hds. }
  destruct (pick_loop_spec ds Hall Day03.keepCount 0 0
              (replicate Day03.keepCount "."%string))
    as (best & Hres & Hsub & Hl & Hmax).
  { done. } { lia. } { by rewrite length_replicate. }
  exists best. rewrite drop_0 in Hsub, Hmax. split; [|done].
  unfold Day03.picks. change (Z.of_nat 0) with 0%Z in Hres. by rewrite Hres.
Qed.

Lemma day03_picks_largest_witness :
  ∃ best,
    Day03.picks (Day03.digit <$> [2; 3; 4; 2; 3; 4; 2; 3; 4; 2; 3; 4; 2; 7; 8])
    = Day03.digit <$> best ∧
    best `sublist_of` [2; 3; 4; 2; 3; 4; 2; 3; 4; 2; 3; 4; 2; 7; 8] ∧
    length best = Day03.keepCount ∧
    ∀ t, t `sublist_of` [2; 3; 4; 2; 3; 4; 2; 3; 4; 2; 3; 4; 2; 7; 8] →
         length t = Day03.keepCount → Day03.lex_le t best.
Proof.
  apply (day03_picks_largest [2; 3; 4; 2; 3; 4; 2; 3; 4; 2; 3; 4; 2; 7; 8]).
  - reflexivity.
  - vm_compute. lia.
Defined.

Example day03_example :
  Day03.picks (Day03.digit <$> [2; 3; 4; 2; 3; 4; 2; 3; 4; 2; 3; 4; 2; 7; 8])
  = ["4"; "3"; "4"; "2"; "3"; "4"; "2"; "3"; "4"; "2"; "7"; "8"]%string ∧
  Day03.picks ["1"; "2"; "3"]%string
  = ["-1"; "-1"; "-1"; "-1"; "-1"; "-1"; "-1"; "-1"; "-1"; "1"; "2"; "3"]%string.
Proof. vm_compute. done. Qed.

(** ** The fill of day 9 *)

Lemma cell_pos_inj (w y x y' x' : nat) :
  x < w → x' < w → y * w + x = y' * w + x' → y = y' ∧ x = x'.
Proof.
  intros Hx Hx' Heq.
  assert (y = y') as ->.
  { destruct (decide (y < y')); [nia|]. destruct (decide (y' < y)); [nia|lia]. }
  split; [done|lia].
Qed.

Lemma scan_fold (grid : Day09.Grid) : ∀ positions found (res : Day09.Grid),
  length (foldl (λ st pos,
                   let foundX := st.1 || Day09.is_one grid pos in
                   (foundX, <[pos := if foundX then 1 else 0]> st.2))
                (found, res) positions).2 = length res ∧
  (∀ q, q ∉ positions →
     (foldl (λ st pos,
               let foundX := st.1 || Day09.is_one grid pos in
               (foundX, <[pos := if foundX then 1 else 0]> st.2))
            (found, res) positions).2 !! q = res !! q) ∧
  (NoDup positions → ∀ k p, positions !! k = Some p → p < length res →
     (foldl (λ st pos,
               let foundX := st.1 || Day09.is_one grid pos in
               (foundX, <[pos := if foundX then 1 else 0]> st.2))
            (found, res) positions).2 !! p
     = Some (if found || existsb (Day09.is_one grid) (take (S k) positions)
             then 1 else 0)).
Proof.
  induction positions as [|a ps IH]; intros found res.
  - cbn [foldl snd]. split; [done|]. split; [done|]. intros _ k p Hk. by rewrite lookup_nil in Hk.
  - cbn [foldl fst snd].
    destruct (IH (found || Day09.is_one grid a)
                 (<[a := if found || Day09.is_one grid a then 1 else 0]> res))
      as (Hlen & Hother & Hat).
    rewrite length_insert in Hlen, Hat. split; [done|]. split.
    + intros q [Hqa Hq]%not_elem_of_cons. rewrite Hother by done.
      by rewrite list_lookup_insert_ne.
    + intros [Ha Hps]%NoDup_cons k p Hk Hp. destruct k as [|k].
      * cbn in Hk. injection Hk as ->. rewrite Hother by done.
        rewrite list_lookup_insert_eq by done.
        cbn [take existsb]. by rewrite orb_false_r.
      * cbn in Hk. etrans; [exact (Hat Hps k p Hk Hp)|].
        cbn [take existsb]. by rewrite orb_assoc.
Qed.

Lemma scan_line_length grid positions res :
  length (Day09.scan_line grid positions res) = length res.
Proof. apply scan_fold. Qed.

Lemma scan_line_other grid positions res q :
  q ∉ positions → Day09.scan_line grid positions res !! q = res !! q.
Proof. apply scan_fold. Qed.

Lemma scan_line_at grid positions res k p :
  NoDup positions → positions !! k = Some p → p < length res →
  Day09.scan_line grid positions res !! p
  = Some (if existsb (Day09.is_one grid) (take (S k) positions) then 1 else 0).
Proof.
  intros Hnd Hk Hp. unfold Day09.scan_line.
  exact (proj2 (proj2 (scan_fold grid positions false res)) Hnd k p Hk Hp).
Qed.

Lemma scan_lines_other grid (line : nat → list nat) p : ∀ os res,
  (∀ o, o ∈ os → p ∉ line o) →
  length (foldl (λ result o, Day09.scan_line grid (line o) result) res os) = length res ∧
  foldl (λ result o, Day09.scan_line grid (line o) result) res os !! p = res !! p.
Proof.
  induction os as [|o os IH]; intros res Hos; [done|].
  cbn [foldl]. destruct (IH (Day09.scan_line grid (line o) res)) as [Hl Hp].
  { intros o' Ho'. apply Hos. by right. }
  rewrite Hl, Hp, scan_line_length. split; [done|].
  apply scan_line_other, Hos. by left.
Qed.

Lemma scan_lines_at grid (line : nat → list nat) p o k os1 os2 res :
  (∀ o', o' ∈ os1 ++ os2 → p ∉ line o') →
  NoDup (line o) → line o !! k = Some p → p < length res →
  foldl (λ result o, Day09.scan_line grid (line o) result) res (os1 ++ o :: os2) !! p
  = Some (if existsb (Day09.is_one grid) (take (S k) (line o)) then 1 else 0).
Proof.
  intros Hother Hnd Hk Hp. rewrite foldl_app. cbn [foldl].
  destruct (scan_lines_other grid line p os1 res) as [Hl1 Hp1].
  { intros o' Ho'. apply Hother, elem_of_app. by left. }
  destruct (scan_lines_other grid line p os2
              (Day09.scan_line grid (line o)
                 (foldl (λ result o, Day09.scan_line grid (line o) result) res os1)))
    as [_ ->].
  { intros o' Ho'. apply Hother, elem_of_app. by right. }
  apply scan_line_at; [done..|]. by rewrite Hl1.
Qed.

(** The position [buildHasX] visits as number [i] of the line [o]. *)
Lemma existsb_line grid (f : nat → nat) inner k :
  k < inner →
  existsb (Day09.is_one grid) (take (S k) (f <$> seq 0 inner)) = true
  ↔ ∃ i, i ≤ k ∧ Day09.is_one grid (f i) = true.
Proof.
  intros Hk. rewrite existsb_exists. split.
  - intros (p & Hp%list_elem_of_In & Hone).
    apply elem_of_take in Hp as (i & Hi & Hik).
    rewrite list_lookup_fmap in Hi.
    destruct (seq 0 inner !! i) as [j|] eqn:Hj; [|done].
    apply lookup_seq in Hj as [-> _]. injection Hi as <-. exists i. split; [lia|done].
  - intros (i & Hi & Hone). exists (f i). split; [|done].
    apply list_elem_of_In, elem_of_take. exists i. split; [|lia].
    rewrite list_lookup_fmap, lookup_seq_lt by lia. done.
Qed.

Section BuildHasX.
Variables (grid : Day09.Grid) (width height : nat).

Lemma buildHasX_at (scanByRow reverse : bool) (o k : nat) :
  o < (if scanByRow then height else width) →
  k < (if scanByRow then width else height) →
  Day09.buildHasX grid width height scanByRow reverse
    !! (let idx := if reverse then (if scanByRow then width else height) - 1 - k else k in
        if scanByRow then o * width + idx else idx * width + o)
  = Some (if existsb (Day09.is_one grid)
               (take (S k)
                  ((λ i, let idx := if reverse
                                    then (if scanByRow then width else height) - 1 - i
                                    else i in
                         if scanByRow then o * width + idx else idx * width + o)
                     <$> seq 0 (if scanByRow then width else height)))
          then 1 else 0).
Proof.
  intros Ho Hk. unfold Day09.buildHasX. cbv zeta.
  set (outer := if scanByRow then height else width) in *.
  set (inner := if scanByRow then width else height) in *.
  set (line := λ o : nat,
         (λ i, if scanByRow then o * width + (if reverse then inner - 1 - i else i)
               else (if reverse then inner - 1 - i else i) * width + o)
           <$> seq 0 inner).
  set (p := if scanByRow then o * width + (if reverse then inner - 1 - k else k)
            else (if reverse then inner - 1 - k else k) * width + o).
  assert (∀ i, i < inner → (if reverse then inner - 1 - i else i) < inner) as Hidx.
  { intros i Hi. destruct reverse; lia. }
  assert (∀ o1 i1 o2 i2, o1 < outer → i1 < inner → o2 < outer → i2 < inner →
            (if scanByRow then o1 * width + (if reverse then inner - 1 - i1 else i1)
             else (if reverse then inner - 1 - i1 else i1) * width + o1)
            = (if scanByRow then o2 * width + (if reverse then inner - 1 - i2 else i2)
               else (if reverse then inner - 1 - i2 else i2) * width + o2) →
            o1 = o2 ∧ i1 = i2) as Hinj.
  { intros o1 i1 o2 i2 Ho1 Hi1 Ho2 Hi2 Heq.
    pose proof (Hidx i1 Hi1) as H1. pose proof (Hidx i2 Hi2) as H2.
    subst outer inner. destruct scanByRow.
    - apply cell_pos_inj in Heq as [-> Hi]; [|done..]. split; [done|].
      destruct reverse; lia.
    - apply cell_pos_inj in Heq as [Hi ->]; [|done..]. split; [done|].
      destruct reverse; lia. }
  assert (seq 0 outer = seq 0 o ++ o :: seq (S o) (outer - S o)) as ->.
  { transitivity (seq 0 (o + S (outer - S o))); [f_equal; lia|]. by rewrite seq_app. }
  apply (scan_lines_at grid line p o k).
  - intros o' Ho' Hp. assert (o' < outer ∧ o' ≠ o) as [Hlt Hne].
    { apply elem_of_app in Ho' as [Ho'%elem_of_seq|Ho'%elem_of_seq]; lia. }
    apply list_elem_of_fmap in Hp as (i & Hp & Hi%elem_of_seq).
    destruct (Hinj o k o' i) as [? _]; [done|done|done|lia|done|done].
  - apply NoDup_fmap_2_strong; [|apply NoDup_seq].
    intros i1 i2 Hi1%elem_of_seq Hi2%elem_of_seq Heq.
    by destruct (Hinj o i1 o i2) as [_ ?]; [done|lia|done|lia|done|].
  - unfold line. rewrite list_lookup_fmap, lookup_seq_lt by done. done.
  - rewrite length_replicate. pose proof (Hidx k Hk) as Hik. subst p outer inner.
    destruct scanByRow; nia.
Qed.

Lemma hasXLeft_spec y x :
  y < height → x < width →
  Day09.is_one (Day09.buildHasX grid width height true false) (y * width + x) = true
  ↔ ∃ x', x' ≤ x ∧ Day09.is_one grid (y * width + x') = true.
Proof.
  intros Hy Hx. rewrite is_one_true.
  pose proof (buildHasX_at true false y x Hy Hx) as H. cbv beta iota zeta in H.
  rewrite H. rewrite <- (existsb_line grid (λ i, y * width + i) width x Hx).
  destruct (existsb _ _); split; (done || by intros [=]).
Qed.

Lemma hasXRight_spec y x :
  y < height → x < width →
  Day09.is_one (Day09.buildHasX grid width height true true) (y * width + x) = true
  ↔ ∃ x', x ≤ x' < width ∧ Day09.is_one grid (y * width + x') = true.
Proof.
  intros Hy Hx. rewrite is_one_true.
  pose proof (buildHasX_at true true y (width - 1 - x) Hy ltac:(lia)) as H.
  cbv beta iota zeta in H.
  replace (width - 1 - (width - 1 - x)) with x in H by lia.
  rewrite H.
  pose proof (existsb_line grid (λ i, y * width + (width - 1 - i)) width
                (width - 1 - x) ltac:(lia)) as He.
  split.
  - intros Hs. destruct (existsb _ _); [|by injection Hs].
    destruct (proj1 He eq_refl) as (i & Hi & Hone).
    exists (width - 1 - i). split; [lia|done].
  - intros (x' & Hx' & Hone).
    rewrite (proj2 He); [done|]. exists (width - 1 - x'). split; [lia|].
    by replace (width - 1 - (width - 1 - x')) with x' by lia.
Qed.

Lemma hasXAbove_spec y x :
  y < height → x < width →
  Day09.is_one (Day09.buildHasX grid width height false false) (y * width + x) = true
  ↔ ∃ y', y' ≤ y ∧ Day09.is_one grid (y' * width + x) = true.
Proof.
  intros Hy Hx. rewrite is_one_true.
  pose proof (buildHasX_at false false x y Hx Hy) as H. cbv beta iota zeta in H.
  rewrite H. rewrite <- (existsb_line grid (λ i, i * width + x) height y Hy).
  destruct (existsb _ _); split; (done || by intros [=]).
Qed.

Lemma hasXBelow_spec y x :
  y < height → x < width →
  Day09.is_one (Day09.buildHasX grid width height false true) (y * width + x) = true
  ↔ ∃ y', y ≤ y' < height ∧ Day09.is_one grid (y' * width + x) = true.
Proof.
  intros Hy Hx. rewrite is_one_true.
  pose proof (buildHasX_at false true x (height - 1 - y) Hx ltac:(lia)) as H.
  cbv beta iota zeta in H.
  replace (height - 1 - (height - 1 - y)) with y in H by lia.
  rewrite H.
  pose proof (existsb_line grid (λ i, (height - 1 - i) * width + x) height
                (height - 1 - y) ltac:(lia)) as He.
  split.
  - intros Hs. destruct (existsb _ _); [|by injection Hs].
    destruct (proj1 He eq_refl) as (i & Hi & Hone).
    exists (height - 1 - i). split; [lia|done].
  - intros (y' & Hy' & Hone).
    rewrite (proj2 He); [done|]. exists (height - 1 - y'). split; [lia|].
    by replace (height - 1 - (height - 1 - y')) with y' by lia.
Qed.

End BuildHasX.

Lemma nested_foldl {G : Type} (F : G → nat → nat → G) (xs : list nat) :
  ∀ (ys : list nat) (g : G),
    foldl (λ g yy, foldl (λ g xx, F g yy xx) g xs) g ys
    = foldl (λ g c, F g c.1 c.2) g (yy ← ys; (λ xx, (yy, xx)) <$> xs).
Proof.
  induction ys as [|y ys IH]; intros g; [done|].
  cbn [foldl mbind list_bind]. rewrite foldl_app, foldl_fmap. cbn [fst snd].
  apply IH.
Qed.

Lemma elem_of_cells (ys xs : list nat) (y x : nat) :
  (y, x) ∈ (yy ← ys; (λ xx, (yy, xx)) <$> xs) ↔ y ∈ ys ∧ x ∈ xs.
Proof.
  rewrite list_elem_of_bind. split.
  - intros (yy & (xx & [= -> ->] & Hx)%list_elem_of_fmap & Hy). done.
  - intros [Hy Hx]. exists y. split; [|done]. apply list_elem_of_fmap. by exists x.
Qed.

Lemma NoDup_cells (ys xs : list nat) :
  NoDup ys → NoDup xs → NoDup (yy ← ys; (λ xx, (yy, xx)) <$> xs).
Proof.
  intros Hys Hxs. apply NoDup_bind; [| |done].
  - intros y1 y2 [y x] _ _ (x1 & [= -> ->] & _)%list_elem_of_fmap
      (x2 & [= -> _] & _)%list_elem_of_fmap. done.
  - intros y _. apply NoDup_fmap_2; [|done]. intros x1 x2 [=]. done.
Qed.

Section Fill.
Variables (width : nat) (hasXLeft hasXRight hasXAbove hasXBelow : Day09.Grid).

Lemma fill_cell_other g yy xx q :
  q ≠ yy * width + xx →
  Day09.fill_cell width hasXLeft hasXRight hasXAbove hasXBelow g yy xx !! q = g !! q.
Proof.
  intros Hq. unfold Day09.fill_cell. cbv zeta.
  destruct (_ && _); [by rewrite list_lookup_insert_ne|done].
Qed.

Lemma fill_cell_lookup g yy xx :
  Day09.fill_cell width hasXLeft hasXRight hasXAbove hasXBelow g yy xx
    !! (yy * width + xx)
  = if Day09.is_zero g (yy * width + xx)
       && Day09.is_one hasXLeft (yy * width + xx - 1)
       && Day09.is_one hasXRight (yy * width + xx + 1)
       && Day09.is_one hasXAbove ((yy - 1) * width + xx)
       && Day09.is_one hasXBelow ((yy + 1) * width + xx)
    then Some 1 else g !! (yy * width + xx).
Proof.
  unfold Day09.fill_cell. cbv zeta.
  destruct (Day09.is_zero g (yy * width + xx)) eqn:Hz; [|done].
  destruct (_ && _ && _ && _ && _); [|done].
  apply list_lookup_insert_eq. unfold Day09.is_zero in Hz.
  apply bool_decide_eq_true in Hz. by eapply lookup_lt_Some.
Qed.

Lemma fill_cell_lookup_ext g g' yy xx :
  g' !! (yy * width + xx) = g !! (yy * width + xx) →
  Day09.fill_cell width hasXLeft hasXRight hasXAbove hasXBelow g' yy xx
    !! (yy * width + xx)
  = Day09.fill_cell width hasXLeft hasXRight hasXAbove hasXBelow g yy xx
      !! (yy * width + xx).
Proof.
  intros Heq. rewrite !fill_cell_lookup. unfold Day09.is_zero. by rewrite Heq.
Qed.

Lemma fill_cells : ∀ (cells : list (nat * nat)) g,
  NoDup cells → (∀ c, c ∈ cells → c.2 < width) →
  ∀ y x, x < width →
    foldl (λ g c, Day09.fill_cell width hasXLeft hasXRight hasXAbove hasXBelow g c.1 c.2)
          g cells !! (y * width + x)
    = (if decide ((y, x) ∈ cells)
       then Day09.fill_cell width hasXLeft hasXRight hasXAbove hasXBelow g y x
       else g) !! (y * width + x).
Proof.
  induction cells as [|[cy cx] cells IH]; intros g Hnd Hw y x Hx.
  - cbn [foldl]. by rewrite decide_False by apply not_elem_of_nil.
  - apply NoDup_cons in Hnd as [Hc Hnd]. cbn [foldl fst snd].
    rewrite IH; [|done|intros c Hin; apply Hw; by right|done].
    assert (cx < width) as Hcx by (apply (Hw (cy, cx)); left).
    destruct (decide ((y, x) ∈ cells)) as [Hin|Hnin].
    + rewrite decide_True by by right.
      apply fill_cell_lookup_ext, fill_cell_other.
      intros Heq. apply cell_pos_inj in Heq as [-> ->]; done.
    + destruct (decide ((y, x) = (cy, cx))) as [[= -> ->]|Hne].
      * by rewrite decide_True by left.
      * rewrite decide_False by (intros [?|?]%elem_of_cons; done).
        apply fill_cell_other. intros Heq.
        apply cell_pos_inj in Heq as [-> ->]; done.
Qed.

End Fill.

(** X30. What the fill of [part2] of day 9 marks: in a grid of zeros and
    ones, a cell is marked afterwards exactly when it was marked before,
    or when it is not in the first or last row or column and its row has a
    mark to its left and one to its right and its column has a mark above
    and one below it, all taken from the grid before the fill. *)
Theorem day09_fill_encloses (w h : nat) (g : Day09.Grid) (x y : nat) :
  length g = w * h →
  forallb (λ v, bool_decide (v ≤ 1)) g = true →
  x < w → y < h →
  Day09.is_one (Day09.fill w h g) (y * w + x) = true ↔
    Day09.is_one g (y * w + x) = true ∨
    ((1 ≤ x ∧ x + 1 < w ∧ 1 ≤ y ∧ y + 1 < h) ∧
     (∃ x', x' < x ∧ Day09.is_one g (y * w + x') = true) ∧
     (∃ x', x < x' < w ∧ Day09.is_one g (y * w + x') = true) ∧
     (∃ y', y' < y ∧ Day09.is_one g (y' * w + x) = true) ∧
     (∃ y', y < y' < h ∧ Day09.is_one g (y' * w + x) = true)).
Proof.
  intros Hlen Hbits Hx Hy.
  assert (y * w + x < length g) as Hpos by (rewrite Hlen; nia).
  assert (Day09.is_one g (y * w + x) = false →
          Day09.is_zero g (y * w + x) = true) as Hzero.
  { intros Hone. destruct (lookup_lt_is_Some_2 g _ Hpos) as [v Hv].
    rewrite forallb_forall in Hbits.
    pose proof (Hbits v ltac:(eapply list_elem_of_In, list_elem_of_lookup_2; done)) as Hv1.
    apply bool_decide_eq_true in Hv1. unfold Day09.is_one, Day09.is_zero in *.
    rewrite Hv in *. apply bool_decide_eq_false in Hone. apply bool_decide_eq_true.
    f_equal. destruct v as [|[|v]]; [done| |lia]. by destruct Hone. }
  unfold Day09.fill. cbv zeta. rewrite is_one_true at 1.
  rewrite nested_foldl, fill_cells;
    [|apply NoDup_cells; apply NoDup_seq
     |intros [cy cx] [_ Hc%elem_of_seq]%elem_of_cells; cbn [snd]; lia
     |done].
  destruct (decide ((y, x) ∈ _)) as [Hin|Hnin].
  - apply elem_of_cells in Hin as [Hyin%elem_of_seq Hxin%elem_of_seq].
    rewrite fill_cell_lookup.
    destruct (Day09.is_one g (y * w + x)) eqn:Hone.
    { assert (Day09.is_zero g (y * w + x) = false) as ->.
      { apply is_one_true in Hone. unfold Day09.is_zero. rewrite Hone.
        by apply bool_decide_eq_false. }
      cbn [andb]. rewrite <- is_one_true, Hone. split; [by left|done]. }
    rewrite (Hzero eq_refl). cbn [andb].
    replace (y * w + x - 1) with (y * w + (x - 1)) by lia.
    replace (y * w + x + 1) with (y * w + (x + 1)) by lia.
    pose proof (hasXLeft_spec g w h y (x - 1) Hy ltac:(lia)) as HL.
    pose proof (hasXRight_spec g w h y (x + 1) Hy ltac:(lia)) as HR.
    pose proof (hasXAbove_spec g w h (y - 1) x ltac:(lia) Hx) as HA.
    pose proof (hasXBelow_spec g w h (y + 1) x ltac:(lia) Hx) as HB.
    split.
    + intros Hfill. right.
      destruct (Day09.is_one (Day09.buildHasX g w h true false) _) eqn:EL;
        [|cbn [andb] in Hfill; apply is_one_true in Hfill; congruence].
      destruct (Day09.is_one (Day09.buildHasX g w h true true) _) eqn:ER;
        [|cbn [andb] in Hfill; apply is_one_true in Hfill; congruence].
      destruct (Day09.is_one (Day09.buildHasX g w h false false) _) eqn:EA;
        [|cbn [andb] in Hfill; apply is_one_true in Hfill; congruence].
      destruct (Day09.is_one (Day09.buildHasX g w h false true) _) eqn:EB;
        [|cbn [andb] in Hfill; apply is_one_true in Hfill; congruence].
      split; [lia|].
      destruct (proj1 HL eq_refl) as (xl & Hxl & Hl).
      destruct (proj1 HR eq_refl) as (xr & Hxr & Hr).
      destruct (proj1 HA eq_refl) as (ya & Hya & Ha).
      destruct (proj1 HB eq_refl) as (yb & Hyb & Hb).
      split; [exists xl; split; [lia|done]|].
      split; [exists xr; split; [lia|done]|].
      split; [exists ya; split; [lia|done]|].
      exists yb. split; [lia|done].
    + intros [?|(_ & (xl & Hxl & Hl) & (xr & Hxr & Hr) & (ya & Hya & Ha)
                   & (yb & Hyb & Hb))]; [done|].
      rewrite (proj2 HL) by (exists xl; split; [lia|done]).
      rewrite (proj2 HR) by (exists xr; split; [lia|done]).
      rewrite (proj2 HA) by (exists ya; split; [lia|done]).
      rewrite (proj2 HB) by (exists yb; split; [lia|done]).
      done.
  - rewrite <- is_one_true. split; [by left|]. intros [?|[Hint _]]; [done|].
    destruct Hnin. apply elem_of_cells. split; apply elem_of_seq; lia.
Qed.

Lemma day09_fill_encloses_witness :
  Day09.is_one (Day09.fill 3 3 [1; 1; 1; 1; 0; 1; 1; 1; 1]) (1 * 3 + 1) = true ↔
    Day09.is_one [1; 1; 1; 1; 0; 1; 1; 1; 1] (1 * 3 + 1) = true ∨
    ((1 ≤ 1 ∧ 1 + 1 < 3 ∧ 1 ≤ 1 ∧ 1 + 1 < 3) ∧
     (∃ x', x' < 1 ∧ Day09.is_one [1; 1; 1; 1; 0; 1; 1; 1; 1] (1 * 3 + x') = true) ∧
     (∃ x', 1 < x' < 3 ∧ Day09.is_one [1; 1; 1; 1; 0; 1; 1; 1; 1] (1 * 3 + x') = true) ∧
     (∃ y', y' < 1 ∧ Day09.is_one [1; 1; 1; 1; 0; 1; 1; 1; 1] (y' * 3 + 1) = true) ∧
     (∃ y', 1 < y' < 3 ∧ Day09.is_one [1; 1; 1; 1; 0; 1; 1; 1; 1] (y' * 3 + 1) = true)).
Proof.
  apply (day09_fill_encloses 3 3 [1; 1; 1; 1; 0; 1; 1; 1; 1] 1 1).
  - reflexivity.
  - reflexivity.
  - lia.
  - lia.
Defined.

(** The fill looks along the row and the column only: the middle of four
    marks that do not touch each other is filled as well. *)
Example day09_fill_example :
  Day09.fill 3 3 [1; 1; 1; 1; 0; 1; 1; 1; 1] = [1; 1; 1; 1; 1; 1; 1; 1; 1] ∧
  Day09.fill 3 3 [0; 1; 0; 1; 0; 1; 0; 1; 0] = [0; 1; 0; 1; 1; 1; 0; 1; 0].
Proof. vm_compute. done. Qed.

(** Beyond [exact_boxes] the rounding shows. *)
Example f64_distanceSqrt_rounds :
  f64_distanceSqrt (94906267, 0, 0)%Z (0, 0, 0)%Z = 9007199515875288%Z ∧
  distanceSqrt (94906267, 0, 0)%Z (0, 0, 0)%Z = 9007199515875289%Z.
Proof. vm_compute. done. Qed.
